(** * Series translate/draw pipeline: map series, column pyramid, stock compare

    A shallow embedding of the geometry and join logic of
    [MapSeries] (getBox, setData, setOptions, translate, translatePath,
    drawPoints), of [ColumnPyramidSeries.translate] and of the stock
    [Series.initCompare] value modifier, followed by the properties
    proved about them.

    Conventions of the embedding.
    - A JavaScript number is a [num]: an exact rational, the two
      infinities, or NaN.  Arithmetic is exact: the rounding and the
      overflow of IEEE doubles are not represented, and the two signed
      zeros are identified.  NaN and the infinities arise from division
      by zero and propagate the way they do in the language.
    - [undefined] for a typed optional field is [None].
    - A thrown [TypeError] is the [inl] branch of a [result].
    - Collaborators that live outside these sources (axis pixel mapping,
      point generation, path parsing, number printing) are gathered in the
      record [External] and taken as a parameter. *)

From Stdlib Require Import QArith Qabs Qround ZArith List String Ascii Bool Lia Lqa.
From Stdlib Require Import DecimalString Permutation.
Import ListNotations.

Set Warnings "-register-all".

(* ================================================================== *)
(** * Numbers *)
(* ================================================================== *)

Inductive num : Type :=
| Fin (q : Q)
| PInf
| NInf
| NaN.

Declare Scope num_scope.
Delimit Scope num_scope with num.
Bind Scope num_scope with num.

Definition of_Z (z : Z) : num := Fin (inject_Z z).
Definition of_nat (n : nat) : num := of_Z (Z.of_nat n).

(** [Number.MAX_VALUE], (2 - 2^-52) * 2^1023. *)
Definition MAX_VALUE : num := Fin (inject_Z ((2 ^ 53 - 1) * 2 ^ 971)).

(** Sign of a number other than NaN: [Lt] negative, [Eq] zero, [Gt] positive. *)
Definition sign (a : num) : comparison :=
  match a with
  | Fin q => (q ?= 0)%Q
  | PInf => Gt
  | NInf => Lt
  | NaN => Eq
  end.

Definition is_nan (a : num) : bool :=
  match a with NaN => true | _ => false end.

(** Unary minus. *)
Definition neg (a : num) : num :=
  match a with
  | Fin q => Fin (Qred (- q))
  | PInf => NInf
  | NInf => PInf
  | NaN => NaN
  end.

(** [a + b] *)
Definition add (a b : num) : num :=
  match a, b with
  | NaN, _ | _, NaN => NaN
  | Fin x, Fin y => Fin (Qred (x + y))
  | PInf, NInf | NInf, PInf => NaN
  | PInf, _ | _, PInf => PInf
  | NInf, _ | _, NInf => NInf
  end.

(** [a - b] *)
Definition sub (a b : num) : num :=
  match a, b with
  | NaN, _ | _, NaN => NaN
  | Fin x, Fin y => Fin (Qred (x - y))
  | PInf, PInf | NInf, NInf => NaN
  | PInf, _ | _, NInf => PInf
  | NInf, _ | _, PInf => NInf
  end.

(** The infinity of the product of two signs; zero times infinity is NaN. *)
Definition inf_of_signs (s t : comparison) : num :=
  match s, t with
  | Eq, _ | _, Eq => NaN
  | Gt, Gt | Lt, Lt => PInf
  | _, _ => NInf
  end.

(** [a * b] *)
Definition mul (a b : num) : num :=
  match a, b with
  | NaN, _ | _, NaN => NaN
  | Fin x, Fin y => Fin (Qred (x * y))
  | _, _ => inf_of_signs (sign a) (sign b)
  end.

(** [a / b].  A finite non-zero number over zero is an infinity with the
    sign of the numerator, zero over zero is NaN. *)
Definition div (a b : num) : num :=
  match a, b with
  | NaN, _ | _, NaN => NaN
  | Fin x, Fin y =>
      match (y ?= 0)%Q with
      | Eq => match (x ?= 0)%Q with
              | Eq => NaN
              | Gt => PInf
              | Lt => NInf
              end
      | _ => Fin (Qred (x / y))
      end
  | Fin _, _ => Fin 0
  | _, Fin y =>
      match (y ?= 0)%Q with
      | Lt => neg a
      | _ => a
      end
  | _, _ => NaN
  end.

(** Three-way comparison of two numbers, [None] when one of them is NaN. *)
Definition cmp (a b : num) : option comparison :=
  match a, b with
  | NaN, _ | _, NaN => None
  | Fin x, Fin y => Some (x ?= y)%Q
  | PInf, PInf | NInf, NInf => Some Eq
  | PInf, _ | _, NInf => Some Gt
  | NInf, _ | _, PInf => Some Lt
  end.

(** [a < b] *)
Definition lt (a b : num) : bool :=
  match cmp a b with Some Lt => true | _ => false end.

(** [a > b] *)
Definition gt (a b : num) : bool :=
  match cmp a b with Some Gt => true | _ => false end.

(** [a <= b] *)
Definition le (a b : num) : bool :=
  match cmp a b with Some Lt | Some Eq => true | _ => false end.

(** [a === b] on numbers. *)
Definition strict_eq (a b : num) : bool :=
  match cmp a b with Some Eq => true | _ => false end.

(** Truthiness of a number: every number but zero and NaN. *)
Definition truthy (a : num) : bool :=
  match a with
  | Fin q => negb (Qeq_bool q 0)
  | NaN => false
  | _ => true
  end.

(** [Math.min(a, b)] *)
Definition Math_min (a b : num) : num :=
  match cmp a b with
  | None => NaN
  | Some Gt => b
  | Some _ => a
  end.

(** [Math.max(a, b)] *)
Definition Math_max (a b : num) : num :=
  match cmp a b with
  | None => NaN
  | Some Lt => b
  | Some _ => a
  end.

(** [Math.min(a, b, c)] *)
Definition Math_min3 (a b c : num) : num := Math_min (Math_min a b) c.

(** [Math.round(a)]: the nearest integer, halves towards plus infinity. *)
Definition Math_round (a : num) : num :=
  match a with
  | Fin q => of_Z (Qfloor (q + (1 # 2)))
  | _ => a
  end.

(** [Math.ceil(a)] *)
Definition Math_ceil (a : num) : num :=
  match a with
  | Fin q => of_Z (Qceiling q)
  | _ => a
  end.

(** [Math.abs(a)] *)
Definition Math_abs (a : num) : num :=
  match a with
  | Fin q => Fin (Qred (Qabs q))
  | NInf => PInf
  | _ => a
  end.

Infix "+" := add : num_scope.
Infix "-" := sub : num_scope.
Infix "*" := mul : num_scope.
Infix "/" := div : num_scope.
Notation "- a" := (neg a) : num_scope.

(** [a || b] on numbers. *)
Definition or_else (a b : num) : num := if truthy a then a else b.

(** [o || d] where [o] may be undefined. *)
Definition or_default (o : option num) (d : num) : num :=
  match o with
  | Some a => or_else a d
  | None => d
  end.

(** Order on numbers as a proposition; nothing is related to NaN. *)
Definition num_le (a b : num) : Prop := le a b = true.

(* ================================================================== *)
(** * Errors *)
(* ================================================================== *)

(** The exception raised by a property access or assignment on [null],
    or by an assignment on a primitive in strict mode. *)
Inductive TypeError : Type :=
| CannotReadProperty (name : string)
| CannotSetProperty (name : string).

Definition result (A : Type) : Type := (TypeError + A)%type.

Definition ret {A} (a : A) : result A := inr a.
Definition throw {A} (e : TypeError) : result A := inl e.

Definition bind {A B} (m : result A) (k : A -> result B) : result B :=
  match m with
  | inl e => inl e
  | inr a => k a
  end.

Notation "x <- m ;; k" := (bind m (fun x => k))
  (at level 61, m at next level, right associativity).

(* ================================================================== *)
(** * Paths *)
(* ================================================================== *)

(** One segment of an [SVGPath]: the array [[tag, c1, ..., cn]]. *)
Record segment : Type := Seg { tag : string; coords : list num }.

Definition SVGPath : Type := list segment.

(** [seg[i]] for [i >= 1], used in arithmetic: a missing entry is
    [undefined], which arithmetic turns into NaN. *)
Definition seg_at (seg : segment) (i : nat) : num :=
  nth (i - 1) (coords seg) NaN.

(** [seg[seg.length - 2]] and [seg[seg.length - 1]] when both have type
    number.  With fewer than two coordinates one of the two reads is the
    tag or is out of range. *)
Definition last_pair (seg : segment) : option (num * num) :=
  match rev (coords seg) with
  | y :: x :: _ => Some (x, y)
  | _ => None
  end.

(** The [path] option of a point: an SVG path string, the legacy
    one-dimensional array, or an array of segments. *)
Inductive pathOption : Type :=
| PathString (s : string)
| PathLegacy (l : list (string + num))
| PathSegments (p : SVGPath).

(** Truthiness of [point.path]: only the empty string is falsy. *)
Definition path_truthy (p : pathOption) : bool :=
  match p with
  | PathString EmptyString => false
  | _ => true
  end.

(* ================================================================== *)
(** * Axes *)
(* ================================================================== *)

Module Axis.
Record t : Type := mk {
  min : option num;
  max : option num;
  transA : num;
  minPixelPadding : num;
  len : num;
  pos : num;
  width : num;
  reversed : bool;
  minRange : option num;
  (** [options.minRange] *)
  options_minRange : option num
}.

Definition set_minRange (a : t) (r : num) : t :=
  mk (min a) (max a) (transA a) (minPixelPadding a) (len a) (pos a)
     (width a) (reversed a) (Some r) (options_minRange a).
End Axis.

(* ================================================================== *)
(** * Values and objects *)
(* ================================================================== *)

(** Values held by dynamically named properties.  A function is given by
    the text that its conversion to a string yields. *)
Inductive jsval : Type :=
| VUndefined
| VNull
| VBool (b : bool)
| VNum (n : num)
| VStr (s : string)
| VObj (props : list (string * jsval))
| VFunction (text : string).

Definition object : Type := list (string * jsval).

(** [o[name]] on own properties. *)
Fixpoint get (o : object) (name : string) : jsval :=
  match o with
  | [] => VUndefined
  | (k, v) :: o' => if String.eqb k name then v else get o' name
  end.

(** [o[name] = v]: overwrite in place, or append. *)
Fixpoint set (o : object) (name : string) (v : jsval) : object :=
  match o with
  | [] => [(name, v)]
  | (k, w) :: o' =>
      if String.eqb k name then (k, v) :: o' else (k, w) :: set o' name v
  end.

(** Truthiness of a value. *)
Definition val_truthy (v : jsval) : bool :=
  match v with
  | VUndefined | VNull => false
  | VBool b => b
  | VNum n => truthy n
  | VStr s => negb (String.eqb s "")
  | VObj _ => true
  | VFunction _ => true
  end.

(** [defined(v)]: neither undefined nor null. *)
Definition defined (v : jsval) : bool :=
  match v with
  | VUndefined | VNull => false
  | _ => true
  end.

(** Modelled from the spec: [Utilities.isNumber] is not among the sources;
    the spec speaks of bare numbers and of non-finite geometry being
    skipped.  A number that is neither NaN nor infinite. *)
Definition isNumber (n : num) : bool :=
  match n with Fin _ => true | _ => false end.

Definition isNumber_opt (o : option num) : bool :=
  match o with Some n => isNumber n | None => false end.

(** Modelled from the spec: [Utilities.pick] is not among the sources; the
    spec describes defaults that apply unless an explicit value is
    supplied.  The first argument that is defined, here with a last
    argument that always is. *)
Fixpoint pick (args : list (option num)) (last : num) : num :=
  match args with
  | [] => last
  | Some a :: _ => a
  | None :: args' => pick args' last
  end.

(* ================================================================== *)
(** * Map points and the map series *)
(* ================================================================== *)

(** A point configuration object, [MapPointOptions & MapPoint.CacheObject].
    The properties the code reads and writes under fixed names are
    fields.  The properties reached through computed names (the join keys,
    the [pointArrayMap] names, ['_i'], ['value'], the [properties] object of
    a shape) are the entries of [own]; a computed name is taken not to be
    one of the fixed names. *)
Record MapPointOptions : Type := mkOptions {
  own : object;
  path : option pathOption;
  middleX : option num;
  middleY : option num;
  labelrank : option num;
  _foundBox : bool;
  _midX : option num;
  _midY : option num;
  _maxX : option num;
  _minX : option num;
  _maxY : option num;
  _minY : option num
}.

(** [properties && properties[name]] read as a number; the declared type
    of [properties] is an object, and the middle offsets are numbers. *)
Definition properties_num (o : MapPointOptions) (name : string)
  : option num :=
  match get (own o) "properties" with
  | VObj ps => match get ps name with
               | VNum n => Some n
               | _ => None
               end
  | _ => None
  end.

(** A point of the series, [MapPoint & MapPoint.CacheObject], after
    [generatePoints]. *)
Record ShapeArgs : Type := mkShapeArgs { d : SVGPath }.

Record MapPoint : Type := mkPoint {
  pt_path : option SVGPath;
  pt_midX : option num;
  pt_midY : option num;
  plotX : option num;
  plotY : option num;
  shapeType : option string;
  shapeArgs : option ShapeArgs
}.

(** [Highcharts.MapBaseTransObject] *)
Record MapBaseTransObject : Type := mkBaseTrans {
  originX : num;
  originY : num;
  transAX : num;
  transAY : num
}.

(** The attributes of [transformGroup] that [drawPoints] sets. *)
Record TransformAttrs : Type := mkTransform {
  translateX : num;
  translateY : num;
  scaleX : num;
  scaleY : num
}.

(** The join keys after [setOptions]: [joinBy[0]] and [joinBy[1]]. *)
Record JoinBy : Type := mkJoinBy {
  joinBy0 : option string;
  joinBy1 : option string
}.

(** The bounding box of the series, [this.minX] and so on. *)
Record SeriesBox : Type := mkBox {
  minX : option num;
  maxX : option num;
  minY : option num;
  maxY : option num
}.

Record MapSeries : Type := mkSeries {
  xAxis : Axis.t;
  yAxis : Axis.t;
  box : SeriesBox;
  joinBy : JoinBy;
  (** [options.borderWidth], the stroke width option *)
  options_borderWidth : option num;
  data : list MapPoint;
  isDirtyData : bool;
  chart_isResizing : bool;
  chart_styledMode : bool;
  renderer_isVML : bool;
  baseTrans : option MapBaseTransObject;
  transformGroup : option TransformAttrs;
  (** the [stroke-width] attribute of [group.element] *)
  stroke_width : option num
}.

Definition set_geometry (s : MapSeries) (x y : Axis.t) (b : SeriesBox)
  : MapSeries :=
  mkSeries x y b (joinBy s) (options_borderWidth s) (data s)
    (isDirtyData s) (chart_isResizing s) (chart_styledMode s)
    (renderer_isVML s) (baseTrans s) (transformGroup s) (stroke_width s).

Definition set_data (s : MapSeries) (l : list MapPoint) : MapSeries :=
  mkSeries (xAxis s) (yAxis s) (box s) (joinBy s) (options_borderWidth s) l
    (isDirtyData s) (chart_isResizing s) (chart_styledMode s)
    (renderer_isVML s) (baseTrans s) (transformGroup s) (stroke_width s).

Definition set_joinBy (s : MapSeries) (j : JoinBy) : MapSeries :=
  mkSeries (xAxis s) (yAxis s) (box s) j (options_borderWidth s) (data s)
    (isDirtyData s) (chart_isResizing s) (chart_styledMode s)
    (renderer_isVML s) (baseTrans s) (transformGroup s) (stroke_width s).

Definition set_drawn (s : MapSeries) (bt : option MapBaseTransObject)
  (tg : option TransformAttrs) (sw : option num) : MapSeries :=
  mkSeries (xAxis s) (yAxis s) (box s) (joinBy s) (options_borderWidth s)
    (data s) (isDirtyData s) (chart_isResizing s) (chart_styledMode s)
    (renderer_isVML s) bt tg sw.

(** The collaborators outside these sources. *)
Record External : Type := mkExternal {
  (** [Axis.prototype.toPixels(value, paneCoordinates)] *)
  toPixels : Axis.t -> num -> bool -> num;
  (** [Series.prototype.generatePoints] *)
  generatePoints : MapSeries -> MapSeries;
  (** [MapChart.splitPath] *)
  splitPath : string -> SVGPath;
  (** [SVGRenderer.prototype.pathToSegments] *)
  pathToSegments : list (string + num) -> SVGPath;
  (** [Number::toString] *)
  numberToString : num -> string;
  (** [MapPoint.prototype.setNestedProperty(object, value, key)] *)
  setNestedProperty : object -> jsval -> string -> object;
  (** [value[name]] where the value has no property of its own under the
      name: the member that it has from the language, inherited from the
      prototype of its kind ([Object.prototype], [String.prototype],
      [Number.prototype], ...) or built into a function; undefined when
      there is none *)
  inherited : jsval -> string -> jsval
}.

(* ------------------------------------------------------------------ *)
(** ** getBox *)
(* ------------------------------------------------------------------ *)

(** The running extremes of one point. *)
Record PointBox : Type := mkPointBox {
  pointMaxX : num;
  pointMinX : num;
  pointMaxY : num;
  pointMinY : num
}.

(** The locals of [getBox] that the loop over the points updates. *)
Record BoxAcc : Type := mkAcc {
  acc_maxX : num;
  acc_minX : num;
  acc_maxY : num;
  acc_minY : num;
  acc_minRange : num;
  hasBox : bool
}.

Definition initial_point_box : PointBox :=
  mkPointBox (- MAX_VALUE)%num MAX_VALUE (- MAX_VALUE)%num MAX_VALUE.

Definition initial_acc : BoxAcc :=
  mkAcc (- MAX_VALUE)%num MAX_VALUE (- MAX_VALUE)%num MAX_VALUE MAX_VALUE
    false.

(** The callback of [path.forEach]: fold the last two entries of the
    segment when both are numbers. *)
Definition walk_segment (b : PointBox) (seg : segment) : PointBox :=
  match last_pair seg with
  | Some (x, y) =>
      mkPointBox (Math_max (pointMaxX b) x) (Math_min (pointMinX b) x)
                 (Math_max (pointMaxY b) y) (Math_min (pointMinY b) y)
  | None => b
  end.

Definition walk_path (p : SVGPath) : PointBox :=
  fold_left walk_segment p initial_point_box.

(** An undefined cache field read in arithmetic. *)
Definition to_number (o : option num) : num :=
  match o with Some n => n | None => NaN end.

Section GetBox.
Variable E : External.

(** The conversion of a string path and of the legacy one-dimensional
    array that starts with ['M']. *)
Definition convert_path (p : pathOption) : pathOption :=
  match p with
  | PathString s => PathSegments (splitPath E s)
  | PathLegacy (inl t :: _ as l) =>
      if String.eqb t "M" then PathSegments (pathToSegments E l) else p
  | _ => p
  end.

(** The entries of [point.path || []] that [forEach] visits as segments.
    The entries of a one-dimensional array that was not converted are
    strings and numbers, on which no pair of numbers is read. *)
Definition segments_of (p : pathOption) : SVGPath :=
  match p with
  | PathSegments segs => segs
  | _ => []
  end.

(** The body of [if (!point._foundBox)]. *)
Definition analyze_box (point : MapPointOptions) (p : pathOption)
  : MapPointOptions :=
  let b := walk_path (segments_of p) in
  mkOptions (own point) (Some p) (middleX point) (middleY point)
    (Some (pick [labelrank point]
             ((pointMaxX b - pointMinX b) * (pointMaxY b - pointMinY b))%num))
    true
    (Some (pointMinX b + (pointMaxX b - pointMinX b) *
             pick [middleX point; properties_num point "hc-middle-x"]
                  (Fin 0.5))%num)
    (Some (pointMinY b + (pointMaxY b - pointMinY b) *
             pick [middleY point; properties_num point "hc-middle-y"]
                  (Fin 0.5))%num)
    (Some (pointMaxX b)) (Some (pointMinX b))
    (Some (pointMaxY b)) (Some (pointMinY b)).

Definition with_path (point : MapPointOptions) (p : pathOption)
  : MapPointOptions :=
  mkOptions (own point) (Some p) (middleX point) (middleY point)
    (labelrank point) (_foundBox point) (_midX point) (_midY point)
    (_maxX point) (_minX point) (_maxY point) (_minY point).

(** The callback of [(paths || []).forEach] on a point object. *)
Definition getBox_point (acc : BoxAcc) (point : MapPointOptions)
  : BoxAcc * MapPointOptions :=
  match path point with
  | Some p0 =>
      if path_truthy p0 then
        let p := convert_path p0 in
        let point' :=
          if _foundBox point then with_path point p
          else analyze_box point p in
        let pmaxX := to_number (_maxX point') in
        let pminX := to_number (_minX point') in
        let pmaxY := to_number (_maxY point') in
        let pminY := to_number (_minY point') in
        (mkAcc (Math_max (acc_maxX acc) pmaxX)
               (Math_min (acc_minX acc) pminX)
               (Math_max (acc_maxY acc) pmaxY)
               (Math_min (acc_minY acc) pminY)
               (Math_min3 (pmaxX - pminX)%num (pmaxY - pminY)%num
                          (acc_minRange acc))
               true,
         point')
      else (acc, point)
  | None => (acc, point)
  end.

(** The minimum range that [getBox] gives an axis. *)
Definition default_minRange (minRange extent : num) (a : Axis.t) : num :=
  Math_min3 (Fin 5 * minRange)%num (extent / Fin 5)%num
            (or_default (Axis.minRange a) MAX_VALUE).

(** [if (axis && typeof axis.options.minRange === 'undefined')], for a
    series that has its axes. *)
Definition update_minRange (minRange extent : num) (a : Axis.t) : Axis.t :=
  match Axis.options_minRange a with
  | None => Axis.set_minRange a (default_minRange minRange extent a)
  | Some _ => a
  end.

(** The part of [getBox] after the loop: the box of the whole series
    and the minimum range of the axes. *)
Definition getBox_finish (s : MapSeries) (acc : BoxAcc) : MapSeries :=
  if hasBox acc then
    let b := box s in
    let minY' := Math_min (acc_minY acc) (pick [minY b] MAX_VALUE) in
    let maxY' := Math_max (acc_maxY acc) (pick [maxY b] (- MAX_VALUE)) in
    let minX' := Math_min (acc_minX acc) (pick [minX b] MAX_VALUE) in
    let maxX' := Math_max (acc_maxX acc) (pick [maxX b] (- MAX_VALUE)) in
    set_geometry s
      (update_minRange (acc_minRange acc) (maxX' - minX')%num (xAxis s))
      (update_minRange (acc_minRange acc) (maxY' - minY')%num (yAxis s))
      (mkBox (Some minX') (Some maxX') (Some minY') (Some maxY'))
  else s.

(** The loop of [getBox] over point objects. *)
Fixpoint getBox_loop (acc : BoxAcc) (paths : list MapPointOptions)
  : BoxAcc * list MapPointOptions :=
  match paths with
  | [] => (acc, [])
  | point :: rest =>
      let (acc1, point') := getBox_point acc point in
      let (acc2, rest') := getBox_loop acc1 rest in
      (acc2, point' :: rest')
  end.

(** [getBox(paths)] on an array of point objects: the series and the
    array afterwards. *)
Definition getBox (s : MapSeries) (paths : list MapPointOptions)
  : MapSeries * list MapPointOptions :=
  let (acc, paths') := getBox_loop initial_acc paths in
  (getBox_finish s acc, paths').
End GetBox.

(* ------------------------------------------------------------------ *)
(** ** doFullTranslate, translatePath, translate *)
(* ------------------------------------------------------------------ *)

Definition is_some {A} (o : option A) : bool :=
  match o with Some _ => true | None => false end.

Definition doFullTranslate (s : MapSeries) : bool :=
  isDirtyData s || chart_isResizing s || renderer_isVML s
  || negb (is_some (baseTrans s)).

(** [(c - (min || 0)) * transA + minPixelPadding] on one axis. *)
Definition translate_coord (a : Axis.t) (c : num) : num :=
  ((c - or_default (Axis.min a) (Fin 0)) * Axis.transA a
   + Axis.minPixelPadding a)%num.

(** The callback of [path.forEach] in [translatePath]: what is pushed on
    [ret] for one segment. *)
Definition translate_segment (xa ya : Axis.t) (seg : segment)
  : list segment :=
  let X i := translate_coord xa (seg_at seg i) in
  let Y i := translate_coord ya (seg_at seg i) in
  if String.eqb (tag seg) "M" then [Seg "M" [X 1%nat; Y 2%nat]]
  else if String.eqb (tag seg) "L" then [Seg "L" [X 1%nat; Y 2%nat]]
  else if String.eqb (tag seg) "C" then
    [Seg "C" [X 1%nat; Y 2%nat; X 3%nat; Y 4%nat; X 5%nat; Y 6%nat]]
  else if String.eqb (tag seg) "Q" then
    [Seg "Q" [X 1%nat; Y 2%nat; X 3%nat; Y 4%nat]]
  else if String.eqb (tag seg) "Z" then [Seg "Z" []]
  else [].

Definition translatePath (s : MapSeries) (path : option SVGPath) : SVGPath :=
  match path with
  | Some p =>
      fold_left
        (fun ret seg => ret ++ translate_segment (xAxis s) (yAxis s) seg)
        p []
  | None => []
  end.

Section Translate.
Variable E : External.

(** The callback of [series.data.forEach] in [translate]. *)
Definition translate_point (s : MapSeries) (full : bool) (point : MapPoint)
  : MapPoint :=
  let mid := isNumber_opt (pt_midX point) && isNumber_opt (pt_midY point) in
  let px :=
    if mid then Some (toPixels E (xAxis s) (to_number (pt_midX point)) true)
    else plotX point in
  let py :=
    if mid then Some (toPixels E (yAxis s) (to_number (pt_midY point)) true)
    else plotY point in
  if full then
    mkPoint (pt_path point) (pt_midX point) (pt_midY point) px py
      (Some "path"%string)
      (Some (mkShapeArgs (translatePath s (pt_path point))))
  else
    mkPoint (pt_path point) (pt_midX point) (pt_midY point) px py
      (shapeType point) (shapeArgs point).

(** [translate()].  The [afterTranslate] event that it fires at the end
    is handled outside these sources. *)
Definition translate (s : MapSeries) : MapSeries :=
  let full := doFullTranslate s in
  let s1 := generatePoints E s in
  set_data s1 (map (translate_point s1 full) (data s1)).

(* ---------------------------------------------------------------- *)
(** ** drawPoints *)
(* ---------------------------------------------------------------- *)

(** The [else] branch of [drawPoints]: the scale and the translation of
    [transformGroup] against the base recorded at the last full
    translate. *)
Definition fast_transform (s : MapSeries) (bt : MapBaseTransObject)
  : TransformAttrs :=
  let scaleX := (Axis.transA (xAxis s) / transAX bt)%num in
  let scaleY := (Axis.transA (yAxis s) / transAY bt)%num in
  let translateX := toPixels E (xAxis s) (originX bt) true in
  let translateY := toPixels E (yAxis s) (originY bt) true in
  if gt scaleX (Fin 0.99) && lt scaleX (Fin 1.01)
     && gt scaleY (Fin 0.99) && lt scaleY (Fin 1.01)
  then mkTransform (Math_round translateX) (Math_round translateY)
                   (Fin 1) (Fin 1)
  else mkTransform translateX translateY scaleX scaleY.

(** The base recorded by a full translate. *)
Definition new_baseTrans (s : MapSeries) : MapBaseTransObject :=
  let xa := xAxis s in
  let ya := yAxis s in
  mkBaseTrans
    (to_number (Axis.min xa) - Axis.minPixelPadding xa / Axis.transA xa)%num
    (to_number (Axis.min ya) - Axis.minPixelPadding ya / Axis.transA ya
     + (if Axis.reversed ya then Fin 0
        else Axis.len ya / Axis.transA ya))%num
    (Axis.transA xa) (Axis.transA ya).

(** [drawPoints()], as far as the transform of the group, the base and
    the stroke width go; the drawing of the shapes and of the labels is
    the renderer's.  An animated change is recorded by its end value.
    [scaleX] is the local of that name: undefined after a full
    translate. *)
Definition drawPoints (s : MapSeries) : MapSeries :=
  let '(bt, tg, scaleX_local) :=
    match doFullTranslate s, baseTrans s with
    | false, Some bt =>
        let t := fast_transform s bt in
        (Some bt, t, Some (scaleX t))
    | _, _ =>
        (Some (new_baseTrans s),
         mkTransform (Fin 0) (Fin 0) (Fin 1) (Fin 1), None)
    end in
  let sw :=
    if chart_styledMode s then stroke_width s
    else Some (pick [options_borderWidth s] (Fin 1)
               / or_default scaleX_local (Fin 1))%num in
  set_drawn s bt (Some tg) sw.
End Translate.

(* ------------------------------------------------------------------ *)
(** ** setOptions *)
(* ------------------------------------------------------------------ *)

(** The [joinBy] option: [null], a string, or an array of strings. *)
Inductive joinByOption : Type :=
| JoinByNull
| JoinByString (s : string)
| JoinByArray (l : list string).

Definition str_truthy (o : option string) : bool :=
  match o with
  | Some s => negb (String.eqb s "")
  | None => false
  end.

(** The part of [setOptions] that resolves [joinBy]. *)
Definition setOptions (s : MapSeries) (o : joinByOption) : MapSeries :=
  let arr :=
    match o with
    | JoinByNull => ["_i"%string]
    | JoinByString k => [k]
    | JoinByArray l => l
    end in
  let j0 := nth_error arr 0 in
  let j1 := nth_error arr 1 in
  set_joinBy s (mkJoinBy j0 (if str_truthy j1 then j1 else j0)).

(* ------------------------------------------------------------------ *)
(** ** setData: the join of the value data with the map data *)
(* ------------------------------------------------------------------ *)

(** An entry of the [data] array: [MapPointOptions | PointShortOptions]. *)
Inductive dataItem : Type :=
| ItemNumber (n : num)
| ItemString (s : string)
| ItemNull
| ItemArray (l : list jsval)
| ItemObject (o : MapPointOptions).

(** The options and properties of the series that [setData] reads:
    [options.allAreas], [options.keys], [options.mapData],
    [chart.options.chart.map] and [this.pointArrayMap].  Map data is an
    array of shape objects: a map named by a string is looked up, and a
    GeoJSON feature collection is converted, by collaborators before the
    join. *)
Record JoinOptions : Type := mkJoinOptions {
  allAreas : bool;
  keys : option (list string);
  mapData : option (list MapPointOptions);
  globalMapData : option (list MapPointOptions);
  pointArrayMap : list string
}.

(** What [setData] leaves behind: the series, [this.mapData],
    [this.mapMap] (keys to positions in [mapData]) and the [data] and
    [updatePoints] arguments handed to [Series.prototype.setData]. *)
Record Joined : Type := mkJoined {
  joined_series : MapSeries;
  joined_mapData : option (list MapPointOptions);
  joined_mapMap : list (string * nat);
  merged : option (list dataItem);
  updatePoints : option bool
}.

Definition new_object (props : object) : MapPointOptions :=
  mkOptions props None None None None false None None None None None None.

Definition set_own (o : MapPointOptions) (name : string) (v : jsval)
  : MapPointOptions :=
  mkOptions (set (own o) name v) (path o) (middleX o) (middleY o)
    (labelrank o) (_foundBox o) (_midX o) (_midY o)
    (_maxX o) (_minX o) (_maxY o) (_minY o).

(** [s.indexOf(sub)], with [None] for -1. *)
Fixpoint indexOf_from (sub s : string) (i : nat) : option nat :=
  if String.prefix sub s then Some i
  else match s with
       | EmptyString => None
       | String _ s' => indexOf_from sub s' (S i)
       end.

Definition indexOf (s sub : string) : option nat := indexOf_from sub s 0.

(** [s.split(c)] *)
Fixpoint split (c : ascii) (s : string) : list string :=
  match s with
  | EmptyString => [EmptyString]
  | String a s' =>
      if Ascii.eqb a c then EmptyString :: split c s'
      else match split c s' with
           | w :: ws => String a w :: ws
           | [] => [String a EmptyString]
           end
  end.

(** An object has a property of its own under a name. *)
Fixpoint has (o : object) (name : string) : bool :=
  match o with
  | [] => false
  | (k, _) :: o' => String.eqb k name || has o' name
  end.

(** The position that a property name denotes: the name is the decimal
    text of a natural number, without sign and without leading zeros. *)
Definition array_index (name : string) : option nat :=
  match NilZero.uint_of_string name with
  | Some digits =>
      let i := Nat.of_uint digits in
      if String.eqb (NilZero.string_of_uint (Nat.to_uint i)) name
      then Some i
      else None
  | None => None
  end.

(** [v[name]] on a value that is neither undefined nor null: a property
    of its own (an entry of an object; the length of a string and its
    characters, under their positions), or else the member that the
    value inherits. *)
Definition get_prop (E : External) (v : jsval) (name : string) : jsval :=
  match v with
  | VObj ps => if has ps name then get ps name else inherited E v name
  | VStr s =>
      if String.eqb name "length" then VNum (of_nat (String.length s))
      else match array_index name with
           | Some i =>
               match String.get i s with
               | Some c => VStr (String c EmptyString)
               | None => inherited E v name
               end
           | None => inherited E v name
           end
  | _ => inherited E v name
  end.

Fixpoint walk_properties (E : External) (names : list string)
  (parent : jsval) : jsval :=
  match names with
  | [] => parent
  | name :: rest =>
      if defined parent then
        let child := get_prop E parent name in
        if defined child then walk_properties E rest child else VUndefined
      else parent
  end.

(** Modelled from the spec: [Utilities.getNestedProperty] is not among the
    sources; the spec has the join key resolved by a possibly nested,
    dot-separated property lookup. *)
Definition getNestedProperty (E : External) (path : string)
  (parent : jsval) : jsval :=
  walk_properties E (split "."%char path) parent.

(** A data entry as the value that property lookups see. *)
Definition item_value (it : dataItem) : jsval :=
  match it with
  | ItemNumber n => VNum n
  | ItemString s => VStr s
  | ItemNull => VNull
  | ItemArray _ => VObj []   (* no array is left after the first loop *)
  | ItemObject o => VObj (own o)
  end.

(** The name under which a possibly undefined key is looked up. *)
Definition name_of (o : option string) : string :=
  match o with Some s => s | None => "undefined"%string end.

Fixpoint update_nth {A} (l : list A) (i : nat) (a : A) : list A :=
  match l, i with
  | [], _ => []
  | _ :: l', O => a :: l'
  | x :: l', S i' => x :: update_nth l' i' a
  end.

(** [m[k]] and [m[k] = i] on the index of shapes. *)
Fixpoint lookup (m : list (string * nat)) (k : string) : option nat :=
  match m with
  | [] => None
  | (k', i) :: m' => if String.eqb k' k then Some i else lookup m' k
  end.

Fixpoint store (m : list (string * nat)) (k : string) (i : nat)
  : list (string * nat) :=
  match m with
  | [] => [(k, i)]
  | (k', j) :: m' =>
      if String.eqb k' k then (k', i) :: m' else (k', j) :: store m' k i
  end.

(** The map data that [setData] joins: of the series, or else of the
    chart. *)
Definition resolved_mapData (opts : JoinOptions)
  : option (list MapPointOptions) :=
  match mapData opts with
  | Some m => Some m
  | None => globalMapData opts
  end.

Section SetData.
Variable E : External.
Variable opts : JoinOptions.
Variable jb : JoinBy.

(** String conversion of a value, as a property key and in string
    concatenation. *)
Definition ToString (v : jsval) : string :=
  match v with
  | VUndefined => "undefined"
  | VNull => "null"
  | VBool true => "true"
  | VBool false => "false"
  | VNum n => numberToString E n
  | VStr s => s
  | VObj _ => "[object Object]"
  | VFunction text => text
  end.

(** [options.keys || this.pointArrayMap] *)
Definition effective_pointArrayMap : list string :=
  match keys opts with
  | Some k => k
  | None => pointArrayMap opts
  end.

Definition is_undefined (v : jsval) : bool :=
  match v with VUndefined => true | _ => false end.

(** The loop over [pointArrayMap] that copies the array entries from
    position [ix] on. *)
Fixpoint copy_values (names : list string) (vals : list jsval)
  (o : object) : object :=
  match names with
  | [] => o
  | name :: names' =>
      let v := hd VUndefined vals in
      let o' :=
        if negb (String.eqb name "") && negb (is_undefined v) then
          match indexOf name "." with
          | Some (S _) => setNestedProperty E o v name
          | _ => set o name v
          end
        else o in
      copy_values names' (tl vals) o'
  end.

(** The object made from an array point definition. *)
Definition array_to_object (val : list jsval) : object :=
  let names := effective_pointArrayMap in
  match keys opts, val with
  | None, VStr k :: rest =>
      if (List.length names <? List.length val)%nat
      then copy_values names rest [("hc-key"%string, VStr k)]
      else copy_values names val []
  | _, _ => copy_values names val []
  end.

(** The callback of the first [data.forEach]: numbers and arrays become
    objects, and the position is recorded when joining by position. *)
Definition normalize_item (i : nat) (val : dataItem) : result dataItem :=
  let val1 :=
    match val with
    | ItemNumber n =>
        if isNumber n then ItemObject (new_object [("value"%string, VNum n)])
        else val
    | ItemArray l => ItemObject (new_object (array_to_object l))
    | _ => val
    end in
  match joinBy0 jb with
  | Some k =>
      if String.eqb k "_i" then
        match val1 with
        | ItemObject o => ret (ItemObject (set_own o "_i" (VNum (of_nat i))))
        | _ => throw (CannotSetProperty "_i")
        end
      else ret val1
  | None => ret val1
  end.

Fixpoint normalize_from (i : nat) (data : list dataItem)
  : result (list dataItem) :=
  match data with
  | [] => ret []
  | val :: rest =>
      v <- normalize_item i val ;;
      r <- normalize_from (S i) rest ;;
      ret (v :: r)
  end.

(** The callback of [getBox] on an entry of [data]: reading [path] on
    [null] throws, on a primitive it is undefined. *)
Definition getBox_item (acc : BoxAcc) (it : dataItem)
  : result (BoxAcc * dataItem) :=
  match it with
  | ItemNull => throw (CannotReadProperty "path")
  | ItemObject o =>
      let (acc', o') := getBox_point E acc o in
      ret (acc', ItemObject o')
  | _ => ret (acc, it)
  end.

Fixpoint getBox_items_loop (acc : BoxAcc) (items : list dataItem)
  : result (BoxAcc * list dataItem) :=
  match items with
  | [] => ret (acc, [])
  | it :: rest =>
      r1 <- getBox_item acc it ;;
      r2 <- getBox_items_loop (fst r1) rest ;;
      ret (fst r2, snd r1 :: snd r2)
  end.

(** [getBox(data)] on the entries of the data array. *)
Definition getBox_items (s : MapSeries) (items : list dataItem)
  : result (MapSeries * list dataItem) :=
  r <- getBox_items_loop initial_acc items ;;
  ret (getBox_finish s (fst r), snd r).

(** [getBox(dataUsed)]: the entries are references to shapes of
    [mapData], which are updated in place. *)
Fixpoint getBox_refs_loop (acc : BoxAcc) (refs : list nat)
  (shapes : list MapPointOptions) : BoxAcc * list MapPointOptions :=
  match refs with
  | [] => (acc, shapes)
  | r :: rest =>
      match nth_error shapes r with
      | Some point =>
          let (acc', point') := getBox_point E acc point in
          getBox_refs_loop acc' rest (update_nth shapes r point')
      | None => getBox_refs_loop acc rest shapes
      end
  end.

Definition getBox_refs (s : MapSeries) (refs : list nat)
  (shapes : list MapPointOptions) : MapSeries * list MapPointOptions :=
  let (acc, shapes') := getBox_refs_loop initial_acc refs shapes in
  (getBox_finish s acc, shapes').

(** The body of the loop over [mapData]: the position, the key copied
    from [properties] when it is there, and the entry of [mapMap]. *)
Definition index_shape (i : nat) (mapPoint : MapPointOptions)
  : MapPointOptions :=
  let p1 := set_own mapPoint "_i" (VNum (of_nat i)) in
  match joinBy0 jb with
  | Some k =>
      let props := get (own p1) "properties" in
      if negb (String.eqb k "") && val_truthy props
         && val_truthy (get_prop E props k)
      then set_own p1 k (get_prop E props k)
      else p1
  | None => p1
  end.

Definition shape_key (mapPoint : MapPointOptions) : jsval :=
  get_prop E (VObj (own mapPoint)) (name_of (joinBy0 jb)).

Fixpoint index_shapes (i : nat) (shapes : list MapPointOptions)
  (mapMap : list (string * nat))
  : list MapPointOptions * list (string * nat) :=
  match shapes with
  | [] => ([], mapMap)
  | mapPoint :: rest =>
      let mapPoint' := index_shape i mapPoint in
      let mapMap' := store mapMap (ToString (shape_key mapPoint')) i in
      let (rest', mapMap'') := index_shapes (S i) rest mapMap' in
      (mapPoint' :: rest', mapMap'')
  end.

(** The first registration of the shapes that hold data: references
    to the shapes found under the key of each entry. *)
Definition used_refs (mapMap : list (string * nat)) (joinKey : string)
  (data : list dataItem) : list nat :=
  flat_map
    (fun pointOptions =>
       match lookup mapMap
               (ToString (getNestedProperty E joinKey
                            (item_value pointOptions))) with
       | Some r => [r]
       | None => []
       end)
    data.

(** The second registration, under [allAreas]: the key values. *)
Definition used_keys (joinKey : string) (data : list dataItem)
  : list jsval :=
  map (fun pointOptions =>
         getNestedProperty E joinKey (item_value pointOptions))
      data.

(** [point && point[joinBy[0]]] on an entry of [dataUsed], then the
    conversion that [join] applies to it. *)
Definition used_ref_text (shapes : list MapPointOptions) (r : nat)
  : string :=
  match nth_error shapes r with
  | Some point =>
      match shape_key point with
      | VUndefined | VNull => ""
      | v => ToString v
      end
  | None => ""
  end.

Definition used_key_text (point : jsval) : string :=
  let v := if val_truthy point
           then get_prop E point (name_of (joinBy0 jb))
           else point in
  match v with
  | VUndefined | VNull => ""
  | _ => ToString v
  end.

(** ['|' + dataUsed.map(...).join('|') + '|'] *)
Definition dataUsed_text (shapes : list MapPointOptions)
  (refs : list nat) (vals : list jsval) : string :=
  ("|" ++ String.concat "|"
            (map (used_ref_text shapes) refs ++ map used_key_text vals)
       ++ "|")%string.

(** The test under which a shape is added as a null point. *)
Definition unused (text : string) (mapPoint : MapPointOptions) : bool :=
  negb (str_truthy (joinBy0 jb))
  || negb (is_some
             (indexOf text ("|" ++ ToString (shape_key mapPoint) ++ "|")))%string.

(** [merge(mapPoint, { value: null })] *)
Definition null_point (mapPoint : MapPointOptions) : dataItem :=
  ItemObject (set_own mapPoint "value" VNull).

Definition null_points (text : string) (shapes : list MapPointOptions)
  : list dataItem :=
  map null_point (filter (unused text) shapes).

(** [setData(data, redraw, animation, updatePoints)] up to the call of
    [Series.prototype.setData].  The transform definitions of the chart,
    which the method also caches, bear on neither array. *)
Definition setData (s : MapSeries) (data : option (list dataItem))
  (updatePoints0 : option bool) : result Joined :=
  let mapData0 := resolved_mapData opts in
  data1 <- match data with
           | Some l => r <- normalize_from 0 l ;; ret (Some r)
           | None => ret None
           end ;;
  boxed <- match data1 with
           | Some l => r <- getBox_items s l ;; ret (fst r, Some (snd r))
           | None => ret (s, None)
           end ;;
  let s1 := fst boxed in
  let data2 := snd boxed in
  match mapData0 with
  | None => ret (mkJoined s1 None [] data2 updatePoints0)
  | Some shapes0 =>
      let (shapes1, mapMap) := index_shapes 0 shapes0 [] in
      let refs :=
        match data2, str_truthy (joinBy1 jb) with
        | Some l, true => used_refs mapMap (name_of (joinBy1 jb)) l
        | _, _ => []
        end in
      if allAreas opts then
        let (s2, shapes2) := getBox E s1 shapes1 in
        let data3 := match data2 with Some l => l | None => [] end in
        let vals :=
          if str_truthy (joinBy1 jb)
          then used_keys (name_of (joinBy1 jb)) data3
          else [] in
        let text := dataUsed_text shapes2 refs vals in
        let added := null_points text shapes2 in
        ret (mkJoined s2 (Some shapes2) mapMap (Some (data3 ++ added))
               (match added with
                | [] => updatePoints0
                | _ => Some false
                end))
      else
        let (s2, shapes2) := getBox_refs s1 refs shapes1 in
        ret (mkJoined s2 (Some shapes2) mapMap data2 updatePoints0)
  end.
End SetData.

(* ================================================================== *)
(** * Column pyramid series *)
(* ================================================================== *)

(** A value that may be [undefined] or [null]: in arithmetic the first is
    NaN and the second is zero. *)
Inductive nullable : Type :=
| Undefined
| Null
| Number (n : num).

Definition nullable_number (v : nullable) : num :=
  match v with
  | Undefined => NaN
  | Null => Fin 0
  | Number n => n
  end.

Record ColumnPyramidPoint : Type := mkPyramidPoint {
  cp_plotX : option num;
  cp_plotY : option num;
  yBottom : option num;
  total : option num;
  y : nullable;
  barX : option num;
  pointWidth : option num;
  tooltipPos : option (num * num * num);
  cp_shapeType : option string;
  (** [shapeArgs]: x, y, width, height and the path d *)
  cp_shapeArgs : option (num * num * num * num * SVGPath)
}.

Record ColumnPyramidSeries : Type := mkPyramid {
  chart_inverted : bool;
  chart_plotHeight : num;
  chart_plotLeft : num;
  chart_plotTop : num;
  options_threshold : nullable;
  options_stacking : option string;
  options_pointPadding : option num;
  options_minPointLength : option num;
  cp_options_borderWidth : option num;
  closestPointRange : option num;
  cp_xAxis : Axis.t;
  cp_yAxis : Axis.t;
  points : list ColumnPyramidPoint;
  dense : bool;
  borderWidth : option num;
  translatedThreshold : option num;
  barW : option num;
  pointXOffset : option num
}.

(** The collaborators of the column pyramid outside these sources. *)
Record ColumnExternal : Type := mkColumnExternal {
  (** [yAxis.toPixels(value, paneCoordinates)] *)
  cp_toPixels : Axis.t -> num -> bool -> num;
  (** [yAxis.getThreshold(threshold)] *)
  getThreshold : Axis.t -> nullable -> num;
  (** [series.getColumnMetrics()]: width and offset *)
  getColumnMetrics : ColumnPyramidSeries -> num * num;
  (** [ColumnSeries.prototype.translate], which places the points *)
  column_translate : ColumnPyramidSeries -> ColumnPyramidSeries;
  (** [Utilities.clamp(value, min, max)] *)
  clamp : num -> num -> num -> num
}.

(** The locals that the callback of [series.points.forEach] derives for
    one point. *)
Record PyramidGeometry : Type := mkGeometry {
  g_barX : num;
  g_barW : num;
  g_barY : num;
  g_barH : num;
  g_plotY : num;
  topPointY : num;
  stackHeight : num;
  topXwidth : num;
  bottomXwidth : num;
  x1 : num; x2 : num; x3 : num; x4 : num;
  y1 : num; y2 : num
}.

Section ColumnPyramid.
Variable C : ColumnExternal.
Local Open Scope num_scope.

(** The values that [translate] fixes before the loop over the points:
    the threshold in pixels (shifted by half a pixel on an inverted
    chart), the minimal point length, the width from the metrics, the
    bar width and the offset. *)
Record Prelude : Type := mkPrelude {
  p_dense : bool;
  p_borderWidth : num;
  p_seriesThreshold : num;
  p_translatedThreshold : num;
  p_minPointLength : num;
  p_pointWidth : num;
  p_seriesBarW : num;
  p_pointXOffset : num
}.

Definition prelude (series : ColumnPyramidSeries) : Prelude :=
  let dense :=
    lt (to_number (closestPointRange series) * Axis.transA (cp_xAxis series))
       (Fin 2) in
  let borderWidth :=
    pick [cp_options_borderWidth series] (if dense then Fin 0 else Fin 1) in
  let translatedThreshold :=
    getThreshold C (cp_yAxis series) (options_threshold series) in
  let metrics := getColumnMetrics C series in
  let pointWidth := fst metrics in
  let seriesBarW := Math_max pointWidth (Fin 1 + Fin 2 * borderWidth) in
  mkPrelude dense borderWidth translatedThreshold
    (if chart_inverted series then translatedThreshold - Fin 0.5
     else translatedThreshold)
    (pick [options_minPointLength series] (Fin 5))
    pointWidth
    (if truthy (to_number (options_pointPadding series))
     then Math_ceil seriesBarW else seriesBarW)
    (snd metrics).

Definition is_percent (o : option string) : bool :=
  match o with
  | Some t => String.eqb t "percent"
  | None => false
  end.

(** The geometry of one point. *)
Definition geometry (series : ColumnPyramidSeries) (p : Prelude)
  (point : ColumnPyramidPoint) : PyramidGeometry :=
  let yAxis := cp_yAxis series in
  let threshold := nullable_number (options_threshold series) in
  let translatedThreshold := p_translatedThreshold p in
  let minPointLength := p_minPointLength p in
  let yBottom := pick [yBottom point] translatedThreshold in
  let safeDistance := Fin 999 + Math_abs yBottom in
  let plotY :=
    clamp C (to_number (cp_plotY point)) (- safeDistance)
      (Axis.len yAxis + safeDistance) in
  let barX := to_number (cp_plotX point) + p_pointXOffset p in
  let barW := p_seriesBarW p / Fin 2 in
  let barY := Math_min plotY yBottom in
  let barH := Math_max plotY yBottom - barY in
  let y_num := nullable_number (y point) in
  let negative := lt y_num (Fin 0) in
  let stackTotal0 :=
    threshold + or_default (total point) y_num in
  let stackTotal :=
    if is_percent (options_stacking series) then
      if truthy (threshold + (if negative then Fin 1 else Fin 0))
      then Fin (-100) else Fin 100
    else stackTotal0 in
  let topPointY := cp_toPixels C yAxis stackTotal true in
  let stackHeight :=
    chart_plotHeight series - topPointY
    - (chart_plotHeight series - translatedThreshold) in
  let topXwidth :=
    if truthy stackHeight then (barW * (barY - topPointY)) / stackHeight
    else Fin 0 in
  let bottomXwidth :=
    if truthy stackHeight
    then (barW * (barY + barH - topPointY)) / stackHeight
    else Fin 0 in
  if chart_inverted series then
    let invBarPos := Axis.width yAxis - barY in
    let stackHeight' :=
      topPointY - (Axis.width yAxis - translatedThreshold) in
    let topXwidth' := (barW * (topPointY - invBarPos)) / stackHeight' in
    let bottomXwidth' :=
      (barW * (topPointY - (invBarPos - barH))) / stackHeight' in
    let x1 := barX + barW + topXwidth' in
    mkGeometry barX barW barY barH plotY topPointY stackHeight'
      topXwidth' bottomXwidth'
      x1 (x1 - Fin 2 * topXwidth')
      (barX - bottomXwidth' + barW) (barX + bottomXwidth' + barW)
      barY
      (if negative then barY + barH + minPointLength
       else barY + barH - minPointLength)
  else
    mkGeometry barX barW barY barH plotY topPointY stackHeight
      topXwidth bottomXwidth
      (barX - topXwidth + barW) (barX + topXwidth + barW)
      (barX + bottomXwidth + barW) (barX - bottomXwidth + barW)
      (if negative then barY else barY - minPointLength)
      (if negative then barY + barH + minPointLength else barY + barH).

(** The callback of [series.points.forEach]: what is recorded on the
    point. *)
Definition translate_pyramid_point (series : ColumnPyramidSeries)
  (p : Prelude) (point : ColumnPyramidPoint) : ColumnPyramidPoint :=
  let g := geometry series p point in
  let yAxis := cp_yAxis series in
  mkPyramidPoint (cp_plotX point) (cp_plotY point) (yBottom point)
    (total point) (y point)
    (Some (g_barX g)) (Some (p_pointWidth p))
    (Some
       (if chart_inverted series then
          (Axis.len yAxis + Axis.pos yAxis - chart_plotLeft series
           - g_plotY g,
           Axis.len (cp_xAxis series) - g_barX g - g_barW g,
           g_barH g)
        else
          (g_barX g + g_barW g,
           g_plotY g + Axis.pos yAxis - chart_plotTop series,
           g_barH g)))
    (Some "path"%string)
    (Some (x1 g, y1 g, x2 g - x1 g, g_barH g,
           [Seg "M" [x1 g; y1 g]; Seg "L" [x2 g; y1 g];
            Seg "L" [x3 g; y2 g]; Seg "L" [x4 g; y2 g]; Seg "Z" []])).

(** [ColumnPyramidSeries.translate()] *)
Definition pyramid_translate (series : ColumnPyramidSeries)
  : ColumnPyramidSeries :=
  let p := prelude series in
  let s0 :=
    mkPyramid (chart_inverted series) (chart_plotHeight series)
      (chart_plotLeft series) (chart_plotTop series)
      (options_threshold series) (options_stacking series)
      (options_pointPadding series) (options_minPointLength series)
      (cp_options_borderWidth series) (closestPointRange series)
      (cp_xAxis series) (cp_yAxis series) (points series)
      (p_dense p) (Some (p_borderWidth p)) (Some (p_seriesThreshold p))
      (Some (Math_max (p_pointWidth p) (Fin 1 + Fin 2 * p_borderWidth p)))
      (Some (p_pointXOffset p)) in
  let s1 := column_translate C s0 in
  mkPyramid (chart_inverted s1) (chart_plotHeight s1)
    (chart_plotLeft s1) (chart_plotTop s1)
    (options_threshold s1) (options_stacking s1)
    (options_pointPadding s1) (options_minPointLength s1)
    (cp_options_borderWidth s1) (closestPointRange s1)
    (cp_xAxis s1) (cp_yAxis s1)
    (map (translate_pyramid_point s1 p) (points s1))
    (dense s1) (borderWidth s1) (translatedThreshold s1)
    (barW s1) (pointXOffset s1).
End ColumnPyramid.

(* ================================================================== *)
(** * Stock: the compare value modifier *)
(* ================================================================== *)

Record StockPoint : Type := mkStockPoint {
  change : option num
}.

(** The series as far as the compare logic goes.  The function installed
    as [modifyValue] closes over the [compare] argument of [initCompare];
    it is represented by that argument, [None] when [modifyValue] is
    [null]. *)
Record StockSeries : Type := mkStock {
  compareValue : option num;
  options_compareBase : option num;
  modifyValue_compare : option string;
  chart_hasRendered : bool;
  isDirty : bool
}.

Definition is_compare_mode (compare : option string) : bool :=
  match compare with
  | Some c => String.eqb c "value" || String.eqb c "percent"
  | None => false
  end.

(** [initCompare(compare)] *)
Definition initCompare (s : StockSeries) (compare : option string)
  : StockSeries :=
  mkStock (compareValue s) (options_compareBase s)
    (if is_compare_mode compare then compare else None)
    (chart_hasRendered s)
    (if chart_hasRendered s then true else isDirty s).

(** [if (point) { point.change = value; }] *)
Definition set_change (point : option StockPoint) (value : num)
  : option StockPoint :=
  match point with
  | Some _ => Some (mkStockPoint (Some value))
  | None => None
  end.

(** The function that [initCompare] installs, for the [compare] it closed
    over: the returned number and the point afterwards. *)
Definition modifyValue (compare : string) (this : StockSeries)
  (value : option num) (point : option StockPoint)
  : num * option StockPoint :=
  match value, compareValue this with
  | Some v, Some cv =>
      let value' :=
        if String.eqb compare "value" then (v - cv)%num
        else (Fin 100 * (v / cv)
              - (if match options_compareBase this with
                    | Some b => strict_eq b (Fin 100)
                    | None => false
                    end
                 then Fin 0 else Fin 100))%num in
      (value', set_change point value')
  | _, _ => (Fin 0, point)
  end.

(** [this.modifyValue(value, point)] when a modifier is installed. *)
Definition call_modifyValue (s : StockSeries) (value : option num)
  (point : option StockPoint) : option (num * option StockPoint) :=
  match modifyValue_compare s with
  | Some c => Some (modifyValue c s value point)
  | None => None
  end.

Section Extremes.
(** [Utilities.arrayMin] and [Utilities.arrayMax], outside these
    sources. *)
Variables arrayMin arrayMax : list num -> num.

(** The handler of [afterGetExtremes]: the data extremes, as
    [(dataMin, dataMax)], after the modifier. *)
Definition afterGetExtremes (s : StockSeries)
  (dataExtremes : option (option num * option num))
  : option (option num * option num) :=
  match modifyValue_compare s, dataExtremes with
  | Some c, Some (dataMin, dataMax) =>
      let extremes :=
        [fst (modifyValue c s dataMin None);
         fst (modifyValue c s dataMax None)] in
      Some (Some (arrayMin extremes), Some (arrayMax extremes))
  | _, _ => dataExtremes
  end.
End Extremes.

(* ================================================================== *)
(** * Statements in terms of the specification *)
(* ================================================================== *)

(** ** Pixel mapping *)

(** The pixel of a coordinate, as the specification writes it:
    [(coord - domainMin) * transA + pixelPadding]. *)
Definition to_pixel (domainMin transA pixelPadding coord : num) : num :=
  ((coord - domainMin) * transA + pixelPadding)%num.

(** The coordinates of a segment mapped in turn by the X and the Y
    mapping. *)
Fixpoint map_xy (fx fy : num -> num) (l : list num) : list num :=
  match l with
  | x :: y :: rest => fx x :: fy y :: map_xy fx fy rest
  | _ => []
  end.

(** The five kinds of segment of the data model, with the number of
    coordinates of each. *)
Definition segment_kind (seg : segment) : bool :=
  (String.eqb (tag seg) "M" && (List.length (coords seg) =? 2)%nat)
  || (String.eqb (tag seg) "L" && (List.length (coords seg) =? 2)%nat)
  || (String.eqb (tag seg) "C" && (List.length (coords seg) =? 6)%nat)
  || (String.eqb (tag seg) "Q" && (List.length (coords seg) =? 4)%nat)
  || (String.eqb (tag seg) "Z" && (List.length (coords seg) =? 0)%nat).

(** The number of points of a segment. *)
Definition point_count (seg : segment) : nat :=
  Nat.div2 (List.length (coords seg)).

(** ** Bounding boxes *)

(** Every coordinate pair of a segment, control points included. *)
Fixpoint coordinate_pairs (l : list num) : list (num * num) :=
  match l with
  | x :: y :: rest => (x, y) :: coordinate_pairs rest
  | _ => []
  end.

(** The cached box of a point bounds a coordinate pair. *)
Definition bounds (o : MapPointOptions) (xy : num * num) : Prop :=
  num_le (to_number (_minX o)) (fst xy)
  /\ num_le (fst xy) (to_number (_maxX o))
  /\ num_le (to_number (_minY o)) (snd xy)
  /\ num_le (snd xy) (to_number (_maxY o)).

(** The cached box bounds every coordinate pair of every segment. *)
Definition bounds_all_coordinates (o : MapPointOptions) (p : SVGPath)
  : Prop :=
  forall seg xy,
    In seg p -> In xy (coordinate_pairs (coords seg)) -> bounds o xy.

(** The cached box bounds the end point of every segment. *)
Definition bounds_end_points (o : MapPointOptions) (p : SVGPath) : Prop :=
  forall seg xy, In seg p -> last_pair seg = Some xy -> bounds o xy.

(** The cache fields of a point. *)
Definition cache (o : MapPointOptions)
  : bool * (option num * option num)
    * (option num * option num * option num * option num) :=
  (_foundBox o, (_midX o, _midY o), (_minX o, _maxX o, _minY o, _maxY o)).

(** The end points of a path are numbers other than NaN. *)
Definition end_points_not_nan (p : SVGPath) : Prop :=
  forall seg x y,
    In seg p -> last_pair seg = Some (x, y) ->
    is_nan x = false /\ is_nan y = false.

Definition box_not_nan (b : PointBox) : Prop :=
  is_nan (pointMaxX b) = false /\ is_nan (pointMinX b) = false
  /\ is_nan (pointMaxY b) = false /\ is_nan (pointMinY b) = false.

(** One box lies within another. *)
Definition box_within (b c : PointBox) : Prop :=
  num_le (pointMinX c) (pointMinX b) /\ num_le (pointMaxX b) (pointMaxX c)
  /\ num_le (pointMinY c) (pointMinY b) /\ num_le (pointMaxY b) (pointMaxY c).

(** A box holds a coordinate pair. *)
Definition box_holds (b : PointBox) (xy : num * num) : Prop :=
  num_le (pointMinX b) (fst xy) /\ num_le (fst xy) (pointMaxX b)
  /\ num_le (pointMinY b) (snd xy) /\ num_le (snd xy) (pointMaxY b).

(** ** Minimum range *)

(** A point has geometry when its [path] is truthy. *)
Definition has_geometry (o : MapPointOptions) : bool :=
  match path o with
  | Some p => path_truthy p
  | None => false
  end.

Definition extentX (o : MapPointOptions) : num :=
  (to_number (_maxX o) - to_number (_minX o))%num.

Definition extentY (o : MapPointOptions) : num :=
  (to_number (_maxY o) - to_number (_minY o))%num.

(** The smallest extent, on either axis, of the points with geometry. *)
Definition smallest_extent (points : list MapPointOptions) : num :=
  fold_left
    (fun m o => if has_geometry o then Math_min3 (extentX o) (extentY o) m
                else m)
    points MAX_VALUE.

(** The minimum range as the specification words it: the minimum of five
    times the smallest extent, a fifth of the extent of the collection,
    and the minimum range set before, if any. *)
Definition claimed_minRange (smallest extent : num) (previous : option num)
  : num :=
  match previous with
  | Some r => Math_min3 (Fin 5 * smallest)%num (extent / Fin 5)%num r
  | None => Math_min (Fin 5 * smallest)%num (extent / Fin 5)%num
  end.

(** The previous minimum range as the code reads it: a range of zero
    counts as none. *)
Definition previous_or_max (previous : option num) : num :=
  or_default previous MAX_VALUE.

Definition seriesExtentX (s : MapSeries) : num :=
  (to_number (maxX (box s)) - to_number (minX (box s)))%num.

Definition seriesExtentY (s : MapSeries) : num :=
  (to_number (maxY (box s)) - to_number (minY (box s)))%num.

(** ** Fast transform *)

(** The scales and the translation that the fast transform starts from. *)
Section FastTransform.
Variable E : External.
Variable s : MapSeries.
Variable bt : MapBaseTransObject.

Definition computed_scaleX : num := (Axis.transA (xAxis s) / transAX bt)%num.
Definition computed_scaleY : num := (Axis.transA (yAxis s) / transAY bt)%num.
Definition computed_translateX : num :=
  toPixels E (xAxis s) (originX bt) true.
Definition computed_translateY : num :=
  toPixels E (yAxis s) (originY bt) true.

Definition snapped : TransformAttrs :=
  mkTransform (Math_round computed_translateX)
    (Math_round computed_translateY) (Fin 1) (Fin 1).

Definition unmodified : TransformAttrs :=
  mkTransform computed_translateX computed_translateY
    computed_scaleX computed_scaleY.

(** Both scales in the closed interval from 0.99 to 1.01. *)
Definition within_closed : bool :=
  le (Fin 0.99) computed_scaleX && le computed_scaleX (Fin 1.01)
  && le (Fin 0.99) computed_scaleY && le computed_scaleY (Fin 1.01).

(** Both scales strictly between 0.99 and 1.01. *)
Definition strictly_within : bool :=
  lt (Fin 0.99) computed_scaleX && lt computed_scaleX (Fin 1.01)
  && lt (Fin 0.99) computed_scaleY && lt computed_scaleY (Fin 1.01).

(** The dampening rule with the closed interval. *)
Definition snaps_on_closed_interval : Prop :=
  transformGroup (drawPoints E s)
  = Some (if within_closed then snapped else unmodified).
End FastTransform.

(** ** Translate *)

(** The pixel geometry that [translate] assigns to a point. *)
Definition pixel_geometry (p : MapPoint)
  : option num * option num * option SVGPath :=
  (plotX p, plotY p,
   match shapeArgs p with
   | Some a => Some (d a)
   | None => None
   end).

(** [generatePoints] leaves the view alone: the axes, the flags that
    decide on a full translate, and the recorded base. *)
Definition keeps_view (E : External) : Prop :=
  forall s : MapSeries,
    xAxis (generatePoints E s) = xAxis s
    /\ yAxis (generatePoints E s) = yAxis s
    /\ isDirtyData (generatePoints E s) = isDirtyData s
    /\ chart_isResizing (generatePoints E s) = chart_isResizing s
    /\ renderer_isVML (generatePoints E s) = renderer_isVML s
    /\ baseTrans (generatePoints E s) = baseTrans s.

(** With no change of the data in between, [generatePoints] hands back
    the points it generated before, with whatever was recorded on them. *)
Definition reuses_points (E : External) : Prop :=
  forall (s : MapSeries) (f : MapPoint -> MapPoint),
    data (generatePoints E
            (set_data (generatePoints E s)
               (map f (data (generatePoints E s)))))
    = map f (data (generatePoints E s)).

(** ** Join *)

Definition merged_length (r : result Joined) : option nat :=
  match r with
  | inr j => match merged j with
             | Some l => Some (List.length l)
             | None => None
             end
  | inl _ => None
  end.












(** ** Compare *)

(** The remapped value of the specification. *)
Definition compared_value (value baseline : num) : num :=
  (value - baseline)%num.

Definition base_is_100 (base : option num) : bool :=
  match base with
  | Some b => strict_eq b (Fin 100)
  | None => false
  end.

Definition compared_percent (value baseline : num) (base : option num)
  : num :=
  (Fin 100 * (value / baseline)
   - (if base_is_100 base then Fin 0 else Fin 100))%num.

(* ================================================================== *)
(** * Example data *)
(* ================================================================== *)

Definition MoveTo (x y : Q) : segment := Seg "M" [Fin x; Fin y].
Definition LineTo (x y : Q) : segment := Seg "L" [Fin x; Fin y].
Definition CurveTo (x1 y1 x2 y2 x y : Q) : segment :=
  Seg "C" [Fin x1; Fin y1; Fin x2; Fin y2; Fin x; Fin y].
Definition QuadTo (x1 y1 x y : Q) : segment :=
  Seg "Q" [Fin x1; Fin y1; Fin x; Fin y].
Definition ClosePath : segment := Seg "Z" [].

(** Decimal printing, exact on the integers, which are the only numbers
    that the examples print. *)
Definition decimal (n : num) : string :=
  match n with
  | Fin q =>
      let r := Qred q in
      if (Zpos (Qden r) =? 1)%Z
      then NilZero.string_of_int (Z.to_int (Qnum r))
      else ""
  | PInf => "Infinity"
  | NInf => "-Infinity"
  | NaN => "NaN"
  end.

(** Modelled from the spec: [Axis.toPixels] is not among the sources; the
    specification gives the pixel mapping of an axis as
    [(value - domainMin) * transA + pixelPadding]. *)
Definition spec_toPixels (a : Axis.t) (value : num) (paneCoordinates : bool)
  : num :=
  to_pixel (or_default (Axis.min a) (Fin 0)) (Axis.transA a)
    (Axis.minPixelPadding a) value.

(** The collaborators used by the examples: points are kept as they are,
    paths come in segment form, names are not nested, and no name of the
    examples is that of an inherited member. *)
Definition example_external : External :=
  mkExternal spec_toPixels (fun s => s) (fun _ => []) (fun _ => [])
    decimal (fun o v k => set o k v) (fun _ _ => VUndefined).

Definition example_axis (min transA pad : Q) : Axis.t :=
  Axis.mk (Some (Fin min)) None (Fin transA) (Fin pad) (Fin 100) (Fin 0)
    (Fin 100) false None None.

Definition example_series (xa ya : Axis.t) : MapSeries :=
  mkSeries xa ya (mkBox None None None None) (mkJoinBy None None) None []
    false false false false None None None.

Definition plain_series : MapSeries :=
  example_series (example_axis 0 1 0) (example_axis 0 1 0).

Definition square_path : SVGPath :=
  [MoveTo 0 0; LineTo 10 0; LineTo 10 10; ClosePath].

(** A shape given by its path in segment form. *)
Definition shape_of (p : SVGPath) : MapPointOptions :=
  mkOptions [] (Some (PathSegments p)) None None None false
    None None None None None None.

(** A shape with a curve whose control points lie outside the span of its
    end points. *)
Definition curved_shape : MapPointOptions :=
  shape_of [MoveTo 0 0; CurveTo 0 100 50 100 50 0; ClosePath].

(** A square of side 10. *)
Definition square_shape : MapPointOptions := shape_of square_path.

(** A series whose y axis has a configured minimum range. *)
Definition configured_series : MapSeries :=
  example_series (example_axis 0 1 0)
    (Axis.mk (Some (Fin 0)) None (Fin 1) (Fin 0) (Fin 100) (Fin 0) (Fin 100)
       false (Some (Fin 30)) (Some (Fin 7))).

(** The series after [getBox] on a shape without height: the minimum
    range of both axes is zero. *)
Definition series_after_flat_shape : MapSeries :=
  fst (getBox example_external plain_series [curved_shape]).

(** A series in fast-transform mode whose x scale is exactly 0.99. *)
Definition boundary_series : MapSeries :=
  mkSeries (example_axis 0 0.99 0) (example_axis 0 1 0)
    (mkBox None None None None) (mkJoinBy None None) None []
    false false false false
    (Some (mkBaseTrans (Fin 0) (Fin 0) (Fin 1) (Fin 1)))
    (Some (mkTransform (Fin 0) (Fin 0) (Fin 1) (Fin 1))) None.

Definition boundary_base : MapBaseTransObject :=
  mkBaseTrans (Fin 0) (Fin 0) (Fin 1) (Fin 1).

(** A series in fast-transform mode after a small drift of the view. *)
Definition drifted_series : MapSeries :=
  mkSeries (example_axis (1 # 3) 1.001 0) (example_axis 0 0.999 0)
    (mkBox None None None None) (mkJoinBy None None) None []
    false false false false
    (Some (mkBaseTrans (Fin 2) (Fin 7.3) (Fin 1) (Fin 1)))
    (Some (mkTransform (Fin 0) (Fin 0) (Fin 1) (Fin 1))) None.

(** Point generation for the examples: the points are made when the series
    has none, and kept otherwise. *)
Definition generate_once (pts : list MapPoint) (s : MapSeries) : MapSeries :=
  match data s with
  | [] => set_data s pts
  | _ => s
  end.

Definition generating_external (pts : list MapPoint) : External :=
  mkExternal spec_toPixels (generate_once pts) (fun _ => []) (fun _ => [])
    decimal (fun o v k => set o k v) (fun _ _ => VUndefined).

Definition square_point : MapPoint :=
  mkPoint (Some square_path) (Some (Fin 5)) (Some (Fin 5)) None None None
    None.

(** Three shapes without keys, for the join by position. *)
Definition plain_shape (x : Q) : MapPointOptions :=
  mkOptions [] (Some (PathSegments [MoveTo x 0; LineTo (x + 1) 1; ClosePath]))
    None None None false None None None None None None.

Definition three_shapes : list MapPointOptions :=
  [plain_shape 0; plain_shape 1; plain_shape 2].

(** A shape with a key of its own. *)
Definition keyed_shape (key : string) (x : Q) : MapPointOptions :=
  mkOptions [("hc-key"%string, VStr key)]
    (Some (PathSegments [MoveTo x 0; LineTo (x + 1) 1; ClosePath]))
    None None None false None None None None None None.

(** A shape whose key is held by its [properties]. *)
Definition geojson_shape (key : string) (x : Q) : MapPointOptions :=
  mkOptions [("properties"%string, VObj [("hc-key"%string, VStr key)])]
    (Some (PathSegments [MoveTo x 0; LineTo (x + 1) 1; ClosePath]))
    None None None false None None None None None None.

(** A shape with a key under a given name. *)
Definition named_shape (name key : string) (x : Q) : MapPointOptions :=
  mkOptions [(name, VStr key)]
    (Some (PathSegments [MoveTo x 0; LineTo (x + 1) 1; ClosePath]))
    None None None false None None None None None None.

Definition keyed_shapes : list MapPointOptions :=
  [keyed_shape "no" 0; geojson_shape "se" 1; keyed_shape "dk" 2].


Definition by_key : JoinBy :=
  mkJoinBy (Some "hc-key"%string) (Some "hc-key"%string).

Definition join_options (all : bool) (shapes : list MapPointOptions)
  : JoinOptions :=
  mkJoinOptions all None (Some shapes) None ["value"%string].

(** A stock series with a baseline of 50. *)
Definition example_stock (base : option num) : StockSeries :=
  mkStock (Some (Fin 50)) base None false false.

(** [value > min ? (value < max ? value : max) : min] *)
Definition example_clamp (value min max : num) : num :=
  if gt value min then (if lt value max then value else max) else min.

(** Collaborators of the column pyramid used by the examples: the pixel
    mapping of the specification, a threshold measured from the far end of
    the axis, columns of width 20, and points placed beforehand. *)
Definition example_column_external : ColumnExternal :=
  mkColumnExternal spec_toPixels
    (fun a t => (Axis.len a - spec_toPixels a (nullable_number t) true)%num)
    (fun _ => (Fin 20, Fin 0)) (fun s => s) example_clamp.

(** A column pyramid with one point whose stack total falls on the
    threshold line of the chart. *)
Definition flat_point : ColumnPyramidPoint :=
  mkPyramidPoint (Some (Fin 30)) (Some (Fin 99.5)) (Some (Fin 100)) None
    (Number (Fin 0.5)) None None None None None.

Definition flat_pyramid (inverted : bool) : ColumnPyramidSeries :=
  mkPyramid inverted (Fin 100) (Fin 0) (Fin 0) (Number (Fin 0)) None None
    None None (Some (Fin 1)) (example_axis 0 40 0) (example_axis 0 1 0)
    [flat_point] false None None None None.

(* ================================================================== *)
(** * Further parts of the sources *)
(* ================================================================== *)

(* ------------------------------------------------------------------ *)
(** ** Stock: the baseline of the comparison *)
(* ------------------------------------------------------------------ *)

(** An entry of [processedYData]: a number, [null], or the array of the
    values of a point that has more than one (a range, OHLC). *)
Inductive yValue : Type :=
| YNumber (n : num)
| YNull
| YArray (l : list nullable).

(** The series as far as [processData], [setCompare] and
    [Axis.setCompare] go. *)
Record CompareSeries : Type := mkCompareSeries {
  stock : StockSeries;
  (** [options.compareStart] *)
  options_compareStart : option bool;
  (** [options.pointValKey] *)
  options_pointValKey : option string;
  pointValKey : option string;
  cs_pointArrayMap : option (list string);
  cs_xAxis : option Axis.t;
  processedXData : list num;
  processedYData : option (list yValue);
  (** [userOptions.compare] *)
  userOptions_compare : option string
}.

Definition set_stock (s : CompareSeries) (st : StockSeries)
  : CompareSeries :=
  mkCompareSeries st (options_compareStart s) (options_pointValKey s)
    (pointValKey s) (cs_pointArrayMap s) (cs_xAxis s) (processedXData s)
    (processedYData s) (userOptions_compare s).

Definition set_compareValue (s : StockSeries) (v : num) : StockSeries :=
  mkStock (Some v) (options_compareBase s) (modifyValue_compare s)
    (chart_hasRendered s) (isDirty s).

(** [a >= b] *)
Definition ge (a b : num) : bool :=
  match cmp a b with Some Gt | Some Eq => true | _ => false end.

(** [a.indexOf(x)] on an array of strings, with [None] for -1. *)
Fixpoint array_indexOf (a : list string) (x : string) : option nat :=
  match a with
  | [] => None
  | y :: a' =>
      if String.eqb y x then Some 0%nat
      else match array_indexOf a' x with
           | Some i => Some (S i)
           | None => None
           end
  end.

(** [a || d] on strings that may be undefined. *)
Definition or_string (a : option string) (d : string) : string :=
  match a with
  | Some t => if String.eqb t "" then d else t
  | None => d
  end.

(** [processedYData[i] && keyIndex > -1 ? processedYData[i][keyIndex] :
    processedYData[i]], as far as [isNumber] can tell the results apart:
    the number that is read, or [None] for anything else (undefined,
    [null], an array).  A number other than zero and NaN is truthy and
    has no indexed entry. *)
Definition read_compareValue (keyIndex : option nat) (y : yValue)
  : option num :=
  match y, keyIndex with
  | YNumber n, Some _ => if truthy n then None else Some n
  | YNumber n, None => Some n
  | YNull, _ => None
  | YArray l, Some k =>
      match nth_error l k with
      | Some (Number n) => Some n
      | _ => None
      end
  | YArray _, None => None
  end.

(** The test of the loop at position [i]: the value read there when it is
    taken as the baseline. *)
Definition baseline_at (keyIndex : option nat) (xs : list num)
  (xMin : option num) (compareStart i : nat) (y : yValue) : option num :=
  match read_compareValue keyIndex y with
  | Some v =>
      if isNumber v
         && match nth_error xs (i + compareStart) with
            | Some x => ge x (to_number xMin)
            | None => false
            end
         && negb (strict_eq v (Fin 0))
      then Some v
      else None
  | None => None
  end.

(** The loop [for (i = 0; i < length - compareStart; i++)], from position
    [i] on, over the entries that it visits. *)
Fixpoint find_compareValue (keyIndex : option nat) (xs : list num)
  (xMin : option num) (compareStart i : nat) (ys : list yValue)
  : option num :=
  match ys with
  | [] => None
  | y :: rest =>
      match baseline_at keyIndex xs xMin compareStart i y with
      | Some v => Some v
      | None => find_compareValue keyIndex xs xMin compareStart (S i) rest
      end
  end.

(** [options.compareStart === true ? 0 : 1] *)
Definition compare_start (this : CompareSeries) : nat :=
  match options_compareStart this with
  | Some true => 0%nat
  | _ => 1%nat
  end.

(** The index of the value to compare within an array of values:
    [pointArrayMap.indexOf(options.pointValKey || pointValKey || 'y')]
    when there is a [pointArrayMap], [None] for -1. *)
Definition compare_keyIndex (series : CompareSeries) : option nat :=
  match cs_pointArrayMap series with
  | Some m =>
      array_indexOf m
        (or_string (options_pointValKey series)
           (or_string (pointValKey series) "y"))
  | None => None
  end.

Section ProcessData.
(** [Series.prototype.processData] before the stock module extends it,
    outside these sources. *)
Variable seriesProcessData : CompareSeries -> CompareSeries.

(** [processData()]: the base method, then the search of the first value
    to compare against. *)
Definition processData (this : CompareSeries) : CompareSeries :=
  let compareStart := compare_start this in
  let series := seriesProcessData this in
  match cs_xAxis series, processedYData series with
  | Some xAxis, Some ys =>
      match find_compareValue (compare_keyIndex series)
              (processedXData series) (Axis.min xAxis) compareStart 0
              (firstn (List.length ys - compareStart) ys) with
      | Some v => set_stock series (set_compareValue (stock series) v)
      | None => series
      end
  | _, _ => series
  end.
End ProcessData.

(** [Series.prototype.setCompare(compare)] *)
Definition setCompare (this : CompareSeries) (compare : option string)
  : CompareSeries :=
  mkCompareSeries (initCompare (stock this) compare)
    (options_compareStart this) (options_pointValKey this)
    (pointValKey this) (cs_pointArrayMap this) (cs_xAxis this)
    (processedXData this) (processedYData this) compare.

(** [Axis.prototype.setCompare(compare, redraw)] on an axis with the
    series [series]: the series afterwards, and whether the chart is
    redrawn. *)
Definition axis_setCompare (isXAxis : bool) (series : list CompareSeries)
  (compare : option string) (redraw : option bool)
  : list CompareSeries * bool :=
  if isXAxis then (series, false)
  else (map (fun s => setCompare s compare) series,
        match redraw with Some r => r | None => true end).

(* ------------------------------------------------------------------ *)
(** ** Stock: crisp plot lines *)
(* ------------------------------------------------------------------ *)

(** The integer part of a rational, towards zero. *)
Definition Qtrunc (q : Q) : Z := Z.quot (Qnum q) (Zpos (Qden q)).

(** [a % b]: the remainder has the sign of the dividend. *)
Definition rem (a b : num) : num :=
  match a, b with
  | Fin x, Fin y =>
      if Qeq_bool y 0 then NaN
      else Fin (Qred (x - y * inject_Z (Qtrunc (x / y))))
  | Fin _, PInf | Fin _, NInf => a
  | _, _ => NaN
  end.

(** An entry of the path handed to [crispPolyLine],
    [SVGPath.MoveTo | SVGPath.LineTo]: the array [[tag, x, y]]. *)
Record PolyPoint : Type := mkPolyPoint {
  pp_tag : string;
  pp_x : num;
  pp_y : num
}.

(** The body of the loop of [crispPolyLine] on [start] and [end]. *)
Definition crisp_pair (width : num) (start end_ : PolyPoint)
  : PolyPoint * PolyPoint :=
  let x :=
    if strict_eq (pp_x start) (pp_x end_)
    then Some (Math_round (pp_x start) - rem width (Fin 2) / Fin 2)%num
    else None in
  let y :=
    if strict_eq (pp_y start) (pp_y end_)
    then Some (Math_round (pp_y start) + rem width (Fin 2) / Fin 2)%num
    else None in
  (mkPolyPoint (pp_tag start)
     (match x with Some v => v | None => pp_x start end)
     (match y with Some v => v | None => pp_y start end),
   mkPolyPoint (pp_tag end_)
     (match x with Some v => v | None => pp_x end_ end)
     (match y with Some v => v | None => pp_y end_ end)).

(** [SVGRenderer.prototype.crispPolyLine(points, width)].  With an odd
    number of points the last [end] is undefined, and reading its entry
    throws. *)
Fixpoint crispPolyLine (points : list PolyPoint) (width : num)
  : result (list PolyPoint) :=
  match points with
  | [] => ret []
  | [_] => throw (CannotReadProperty "1")
  | start :: end_ :: rest =>
      let (start', end') := crisp_pair width start end_ in
      r <- crispPolyLine rest width ;;
      ret (start' :: end' :: r)
  end.

(* ------------------------------------------------------------------ *)
(** ** Map series: the start of the drill-down animation *)
(* ------------------------------------------------------------------ *)

(** [Highcharts.BBoxObject] *)
Record BBoxObject : Type := mkBBox {
  bb_x : num;
  bb_y : num;
  bb_width : num;
  bb_height : num
}.

(** [animateDrilldown(init)]: the [shapeArgs] recorded on the drill-down
    level when the animation runs, from the box [fromBox] of the level
    and the plot box [toBox] of the chart. *)
Definition animateDrilldown (fromBox toBox : BBoxObject) (init : bool)
  : option TransformAttrs :=
  if init then None
  else
    let scale :=
      Math_min (bb_width fromBox / bb_width toBox)%num
               (bb_height fromBox / bb_height toBox)%num in
    Some (mkTransform (bb_x fromBox) (bb_y fromBox) scale scale).

(* ------------------------------------------------------------------ *)
(** ** Map series: getExtremes *)
(* ------------------------------------------------------------------ *)

(** The series with the value extremes that [getExtremes] records. *)
Record MapValueSeries : Type := mkMapValues {
  map_series : MapSeries;
  valueMin : option num;
  valueMax : option num;
  (** [chart.hasRendered] *)
  map_hasRendered : bool;
  (** [options.data] *)
  options_data : option (list dataItem)
}.

Section GetExtremes.
Variable E : External.
(** [Series.prototype.getExtremes] on [valueData], outside these sources:
    [dataMin] and [dataMax]. *)
Variable seriesGetExtremes : MapValueSeries -> option num * option num.

(** [getExtremes()]: the series afterwards, its [options.data] included,
    and the returned [dataMin] and [dataMax]. *)
Definition getExtremes (this : MapValueSeries)
  : result (MapValueSeries * (option num * option num)) :=
  let (dataMin, dataMax) := seriesGetExtremes this in
  boxed <-
    (if map_hasRendered this && isDirtyData (map_series this) then
       match options_data this with
       | Some l =>
           r <- getBox_items E (map_series this) l ;;
           ret (fst r, Some (snd r))
       | None => ret (map_series this, None)
       end
     else ret (map_series this, options_data this)) ;;
  let s := fst boxed in
  ret (mkMapValues s
         (if isNumber_opt dataMin then dataMin else valueMin this)
         (if isNumber_opt dataMax then dataMax else valueMax this)
         (map_hasRendered this) (snd boxed),
       (minY (box s), maxY (box s))).
End GetExtremes.

(* ================================================================== *)
(** * Further statements *)
(* ================================================================== *)

(** ** Bounding boxes of a series *)

(** The cached box of a point holds numbers other than NaN. *)
Definition cache_not_nan (o : MapPointOptions) : Prop :=
  is_nan (to_number (_minX o)) = false
  /\ is_nan (to_number (_maxX o)) = false
  /\ is_nan (to_number (_minY o)) = false
  /\ is_nan (to_number (_maxY o)) = false.

(** A point from which [getBox] reads numbers: a cached box without NaN,
    or, when the box is still to be found, a path whose end points are
    not NaN. *)
Definition sound_geometry (E : External) (o : MapPointOptions) : Prop :=
  match path o with
  | Some p =>
      path_truthy p = true ->
      if _foundBox o then cache_not_nan o
      else end_points_not_nan (segments_of (convert_path E p))
  | None => True
  end.

(** The bounds of the series that are set are not NaN. *)
Definition box_set_not_nan (b : SeriesBox) : Prop :=
  (forall m, minX b = Some m -> is_nan m = false)
  /\ (forall m, maxX b = Some m -> is_nan m = false)
  /\ (forall m, minY b = Some m -> is_nan m = false)
  /\ (forall m, maxY b = Some m -> is_nan m = false).

(** The box of the series contains the cached box of a point. *)
Definition series_box_contains (s : MapSeries) (o : MapPointOptions)
  : Prop :=
  num_le (to_number (minX (box s))) (to_number (_minX o))
  /\ num_le (to_number (_maxX o)) (to_number (maxX (box s)))
  /\ num_le (to_number (minY (box s))) (to_number (_minY o))
  /\ num_le (to_number (_maxY o)) (to_number (maxY (box s))).

(** Every bound that is set in [b] lies within the box [c]. *)
Definition series_box_within (b c : SeriesBox) : Prop :=
  (forall m, minX b = Some m -> num_le (to_number (minX c)) m)
  /\ (forall m, maxX b = Some m -> num_le m (to_number (maxX c)))
  /\ (forall m, minY b = Some m -> num_le (to_number (minY c)) m)
  /\ (forall m, maxY b = Some m -> num_le m (to_number (maxY c))).

(** The running extremes of [getBox] are not NaN. *)
Definition acc_not_nan (acc : BoxAcc) : Prop :=
  is_nan (acc_minX acc) = false /\ is_nan (acc_maxX acc) = false
  /\ is_nan (acc_minY acc) = false /\ is_nan (acc_maxY acc) = false.

(** The running extremes hold the cached box of a point. *)
Definition acc_contains (acc : BoxAcc) (o : MapPointOptions) : Prop :=
  num_le (acc_minX acc) (to_number (_minX o))
  /\ num_le (to_number (_maxX o)) (acc_maxX acc)
  /\ num_le (acc_minY acc) (to_number (_minY o))
  /\ num_le (to_number (_maxY o)) (acc_maxY acc).

(** The running extremes [a] lie within the running extremes [b]. *)
Definition acc_within (a b : BoxAcc) : Prop :=
  num_le (acc_minX b) (acc_minX a) /\ num_le (acc_maxX a) (acc_maxX b)
  /\ num_le (acc_minY b) (acc_minY a) /\ num_le (acc_maxY a) (acc_maxY b).

(** ** Compare *)

(** A baseline by which a percentage can be computed: none, or a number
    other than zero. *)
Definition usable_baseline (baseline : option num) : Prop :=
  forall v, baseline = Some v ->
            isNumber v = true /\ strict_eq v (Fin 0) = false.

(** ** Paths *)

(** The tags of the segments that [translatePath] handles. *)
Definition known_tag (t : string) : bool :=
  existsb (String.eqb t) ["M"; "L"; "C"; "Q"; "Z"]%string.

(** The points of a path handed to [crispPolyLine], two by two. *)
Fixpoint pairs {A} (l : list A) : list (A * A) :=
  match l with
  | a :: b :: rest => (a, b) :: pairs rest
  | _ => []
  end.

(** A number without fractional part. *)
Definition whole (a : num) : Prop := exists z : Z, a = of_Z z.

(** A line of width [w] through the coordinate [c] covers the pixels
    from [c - w / 2] to [c + w / 2]; it is crisp when both are whole. *)
Definition crisp (w c : num) : Prop :=
  whole (c - w / Fin 2)%num /\ whole (c + w / Fin 2)%num.

(** ** Join *)

(** The text under which a shape is entered in the index of shapes. *)
Definition shape_text (E : External) (jb : JoinBy)
  (mapPoint : MapPointOptions) : string :=
  ToString E (shape_key E jb mapPoint).

(** An entry of the merged list that stands for a shape without value. *)
Definition null_valued (it : dataItem) : Prop :=
  exists o, it = ItemObject o /\ get (own o) "value" = VNull.



(** [this.mapData] after [setData], empty when there is none. *)
Definition mapData_of (j : Joined) : list MapPointOptions :=
  match joined_mapData j with
  | Some shapes => shapes
  | None => []
  end.

(** The records that the join by position makes of a list of numbers,
    from position [i] on. *)
Fixpoint positional_records (i : nat) (ns : list Q) : list dataItem :=
  match ns with
  | [] => []
  | n :: ns' =>
      ItemObject
        (new_object [("value"%string, VNum (Fin n));
                     ("_i"%string, VNum (of_nat i))])
      :: positional_records (S i) ns'
  end.

(** ** Array points *)

(** A name that [setData] assigns directly: not empty, without a dot. *)
Definition direct_name (name : string) : Prop :=
  name <> ""%string /\ indexOf name "." = None.

(* ================================================================== *)
(** * Further example data *)
(* ================================================================== *)

(** A shape whose box was found before. *)
Definition analyzed_square : MapPointOptions :=
  snd (getBox_point example_external initial_acc square_shape).

(** A value record without geometry. *)
Definition value_record (v : Q) : MapPointOptions :=
  new_object [("value"%string, VNum (Fin v))].

(** A series in fast-transform mode, zoomed in by a factor of two, with a
    border of three pixels. *)
Definition zoomed_series : MapSeries :=
  mkSeries (example_axis 0 2 0) (example_axis 0 2 0)
    (mkBox None None None None) (mkJoinBy None None) (Some (Fin 3)) []
    false false false false
    (Some (mkBaseTrans (Fin 0) (Fin 0) (Fin 1) (Fin 1)))
    (Some (mkTransform (Fin 0) (Fin 0) (Fin 1) (Fin 1))) None.

(** A stock series in percent mode with five points, of which the first
    two lie before the minimum of the x axis, with the given
    [compareStart] option. *)
Definition five_points (compareStart : option bool) : CompareSeries :=
  mkCompareSeries (mkStock None None (Some "percent"%string) false false)
    compareStart None None None
    (Some (Axis.mk (Some (Fin 3)) None (Fin 1) (Fin 0) (Fin 100) (Fin 0)
             (Fin 100) false None None))
    [Fin 1; Fin 2; Fin 3; Fin 4; Fin 5]
    (Some [YNumber (Fin 10); YNumber (Fin 0); YNumber (Fin 40);
           YNumber (Fin 50); YNumber (Fin 60)])
    None.

(** A stock series with a single point. *)
Definition single_point : CompareSeries :=
  mkCompareSeries (mkStock None None (Some "percent"%string) false false)
    None None None None
    (Some (example_axis 0 1 0)) [Fin 1] (Some [YNumber (Fin 10)]) None.

(** A pyramid with one point on an upright chart and the given
    threshold and stacking. *)
Definition stacked_pyramid (threshold : Q) (stacking : option string)
  (value : Q) : ColumnPyramidSeries :=
  mkPyramid false (Fin 100) (Fin 0) (Fin 0) (Number (Fin threshold))
    stacking None None None (Some (Fin 1)) (example_axis 0 40 0)
    (example_axis 0 1 0)
    [mkPyramidPoint (Some (Fin 30)) (Some (Fin 40)) (Some (Fin 100)) None
       (Number (Fin value)) None None None None None]
    false None None None None.

(** The smallest and the largest number of an array, for the examples. *)
Definition example_arrayMin (data : list num) : num :=
  fold_right Math_min PInf data.

Definition example_arrayMax (data : list num) : num :=
  fold_right Math_max NInf data.

(** A map series that has been rendered and whose data has changed since:
    its box covers the curved shape, and its data is now a square. *)
Definition updated_map : MapValueSeries :=
  mkMapValues
    (mkSeries (example_axis 0 1 0) (example_axis 0 1 0)
       (mkBox (Some (Fin 0)) (Some (Fin 50)) (Some (Fin 0)) (Some (Fin 0)))
       (mkJoinBy None None) None [] true false false false None None None)
    (Some (Fin 1)) (Some (Fin 9)) true
    (Some [ItemObject square_shape]).

(* ================================================================== *)
(** * Properties *)
(* ================================================================== *)

(** ** Numbers *)

Lemma gt_lt (a b : num) : gt a b = lt b a.
Proof.
  destruct a as [x| | |], b as [y| | |]; unfold gt, lt; simpl; trivial.
  rewrite <- Qcompare_antisym. destruct (y ?= x)%Q; reflexivity.
Qed.

Lemma sub_zero_representation (c : num) (q : Q) :
  (q == 0)%Q -> (c - Fin q)%num = (c - Fin 0)%num.
Proof.
  intros Hq. destruct c as [x| | |]; unfold sub; cbv beta iota; trivial.
  f_equal. apply Qred_complete. rewrite Hq. reflexivity.
Qed.

Lemma truthy_false_zero (q : Q) : truthy (Fin q) = false -> (q == 0)%Q.
Proof.
  simpl. intros H. apply negb_false_iff in H. now apply Qeq_bool_iff.
Qed.

(** [(c - (min || 0))] is [c - min] whenever [min] is a number other than
    NaN. *)
Lemma sub_or_zero (c m : num) :
  is_nan m = false -> (c - or_else m (Fin 0))%num = (c - m)%num.
Proof.
  intros Hm. unfold or_else. destruct (truthy m) eqn:Ht; trivial.
  destruct m as [q| | |]; try discriminate.
  symmetry. apply sub_zero_representation. now apply truthy_false_zero.
Qed.

Lemma translate_coord_to_pixel (a : Axis.t) (m c : num) :
  Axis.min a = Some m -> is_nan m = false ->
  translate_coord a c
  = to_pixel m (Axis.transA a) (Axis.minPixelPadding a) c.
Proof.
  intros Hmin Hm. unfold translate_coord, to_pixel.
  rewrite Hmin. simpl. now rewrite sub_or_zero.
Qed.

(** ** translatePath *)

Lemma fold_left_push {A B} (f : A -> list B) (l : list A) (acc : list B) :
  fold_left (fun ret a => ret ++ f a) l acc = acc ++ flat_map f l.
Proof.
  revert acc. induction l as [|a l IH]; intros acc; simpl.
  - now rewrite app_nil_r.
  - rewrite IH. now rewrite app_assoc.
Qed.

Lemma translatePath_flat_map (s : MapSeries) (p : SVGPath) :
  translatePath s (Some p)
  = flat_map (translate_segment (xAxis s) (yAxis s)) p.
Proof. unfold translatePath. now rewrite fold_left_push. Qed.

Lemma length_eqb_cases {A} (l : list A) (n : nat) :
  (List.length l =? n)%nat = true -> List.length l = n.
Proof. apply Nat.eqb_eq. Qed.

Ltac exact_length H :=
  apply length_eqb_cases in H;
  repeat match goal with
         | l : list num |- _ => destruct l; simpl in H; try discriminate H
         end.

Lemma translate_segment_kind (xa ya : Axis.t) (xm ym : num) (seg : segment) :
  Axis.min xa = Some xm -> is_nan xm = false ->
  Axis.min ya = Some ym -> is_nan ym = false ->
  segment_kind seg = true ->
  translate_segment xa ya seg
  = [Seg (tag seg)
         (map_xy (to_pixel xm (Axis.transA xa) (Axis.minPixelPadding xa))
                 (to_pixel ym (Axis.transA ya) (Axis.minPixelPadding ya))
                 (coords seg))].
Proof.
  intros Hx Hxn Hy Hyn Hk. destruct seg as [t cs].
  unfold segment_kind in Hk. simpl in Hk.
  unfold translate_segment, seg_at. simpl.
  destruct (String.eqb t "M") eqn:HM.
  { apply String.eqb_eq in HM. subst t. simpl in Hk.
    rewrite !orb_false_r in Hk. exact_length Hk. simpl.
    now rewrite !(fun c => translate_coord_to_pixel xa xm c Hx Hxn),
                !(fun c => translate_coord_to_pixel ya ym c Hy Hyn). }
  destruct (String.eqb t "L") eqn:HL.
  { apply String.eqb_eq in HL. subst t. simpl in Hk.
    rewrite !orb_false_r in Hk. exact_length Hk. simpl.
    now rewrite !(fun c => translate_coord_to_pixel xa xm c Hx Hxn),
                !(fun c => translate_coord_to_pixel ya ym c Hy Hyn). }
  destruct (String.eqb t "C") eqn:HC.
  { apply String.eqb_eq in HC. subst t. simpl in Hk.
    rewrite !orb_false_r in Hk. exact_length Hk. simpl.
    now rewrite !(fun c => translate_coord_to_pixel xa xm c Hx Hxn),
                !(fun c => translate_coord_to_pixel ya ym c Hy Hyn). }
  destruct (String.eqb t "Q") eqn:HQ.
  { apply String.eqb_eq in HQ. subst t. simpl in Hk.
    rewrite !orb_false_r in Hk. exact_length Hk. simpl.
    now rewrite !(fun c => translate_coord_to_pixel xa xm c Hx Hxn),
                !(fun c => translate_coord_to_pixel ya ym c Hy Hyn). }
  destruct (String.eqb t "Z") eqn:HZ.
  { apply String.eqb_eq in HZ. subst t. simpl in Hk.
    exact_length Hk. reflexivity. }
  simpl in Hk. discriminate.
Qed.

Lemma map_xy_length (fx fy : num -> num) (l : list num) :
  Nat.Even (List.length l) ->
  List.length (map_xy fx fy l) = List.length l.
Proof.
  intros [k Hk]. revert l Hk.
  induction k as [|k IH]; intros l Hk.
  - destruct l; simpl in *; [reflexivity|lia].
  - destruct l as [|x [|y l]]; simpl in *; try lia.
    f_equal. f_equal. apply IH. lia.
Qed.

Lemma segment_kind_even (seg : segment) :
  segment_kind seg = true -> Nat.Even (List.length (coords seg)).
Proof.
  unfold segment_kind. intros H.
  repeat (apply orb_true_iff in H; destruct H as [H|H]);
    apply andb_true_iff in H; destruct H as [_ H];
    apply Nat.eqb_eq in H; rewrite H.
  - now exists 1%nat.
  - now exists 1%nat.
  - now exists 3%nat.
  - now exists 2%nat.
  - now exists 0%nat.
Qed.

(** C4.  On a path made of the five kinds of segment, [translatePath]
    returns one segment per input segment, with the tag and the number of
    points of the input segment, and with every coordinate mapped by
    [(coord - domainMin) * transA + minPixelPadding], the X coordinates
    with the state of the x axis and the Y coordinates with the state of
    the y axis.  With a domain minimum of 0, a [transA] of 10 and no
    padding on both axes, the path [M 0 0, L 10 0, L 10 10, Z] becomes
    [M 0 0, L 100 0, L 100 100, Z]. *)
Theorem translatePath_maps_coordinates :
  (forall (s : MapSeries) (path : SVGPath) (xMin yMin : num),
      Axis.min (xAxis s) = Some xMin -> is_nan xMin = false ->
      Axis.min (yAxis s) = Some yMin -> is_nan yMin = false ->
      forallb segment_kind path = true ->
      let fx := to_pixel xMin (Axis.transA (xAxis s))
                         (Axis.minPixelPadding (xAxis s)) in
      let fy := to_pixel yMin (Axis.transA (yAxis s))
                         (Axis.minPixelPadding (yAxis s)) in
      let out := translatePath s (Some path) in
      out = map (fun seg => Seg (tag seg) (map_xy fx fy (coords seg))) path
      /\ List.length out = List.length path
      /\ map tag out = map tag path
      /\ map point_count out = map point_count path)
  /\ translatePath
       (example_series (example_axis 0 10 0) (example_axis 0 10 0))
       (Some [MoveTo 0 0; LineTo 10 0; LineTo 10 10; ClosePath])
     = [MoveTo 0 0; LineTo 100 0; LineTo 100 100; ClosePath].
Proof.
  split; [|reflexivity].
  intros s path xMin yMin Hx Hxn Hy Hyn Hk fx fy out.
  assert (Hout : out = map (fun seg => Seg (tag seg)
                                          (map_xy fx fy (coords seg))) path).
  { unfold out. rewrite translatePath_flat_map.
    induction path as [|seg path IH]; [reflexivity|].
    simpl in Hk. apply andb_true_iff in Hk. destruct Hk as [Hseg Hk].
    simpl. rewrite (translate_segment_kind _ _ _ _ seg Hx Hxn Hy Hyn Hseg).
    simpl. f_equal. now apply IH. }
  split; [exact Hout|]. rewrite Hout. clear Hout out.
  split; [now rewrite length_map|].
  split.
  - rewrite map_map. reflexivity.
  - rewrite map_map. apply map_ext_in. intros seg Hin.
    unfold point_count. simpl. rewrite map_xy_length; trivial.
    apply segment_kind_even.
    rewrite forallb_forall in Hk. now apply Hk.
Qed.

Lemma translatePath_maps_coordinates_witness :
  translatePath
    (example_series (example_axis 2 3 1) (example_axis 0 10 5))
    (Some [MoveTo 4 1; CurveTo 5 5 6 6 7 2; QuadTo 1 1 2 2; ClosePath])
  = [MoveTo 7 15; CurveTo 10 55 13 65 16 25; QuadTo (-2) 15 1 25; ClosePath]
  /\ map tag
       (translatePath
          (example_series (example_axis 2 3 1) (example_axis 0 10 5))
          (Some [MoveTo 4 1; CurveTo 5 5 6 6 7 2; QuadTo 1 1 2 2;
                 ClosePath]))
     = ["M"; "C"; "Q"; "Z"]%string.
Proof.
  pose proof
    (proj1 translatePath_maps_coordinates
       (example_series (example_axis 2 3 1) (example_axis 0 10 5))
       [MoveTo 4 1; CurveTo 5 5 6 6 7 2; QuadTo 1 1 2 2; ClosePath]
       (Fin 2) (Fin 0) eq_refl eq_refl eq_refl eq_refl eq_refl) as H.
  cbv zeta in H. destruct H as (Hout & _ & Htags & _).
  split.
  - etransitivity; [exact Hout|reflexivity].
  - etransitivity; [exact Htags|reflexivity].
Defined.

(** ** The compare value modifier *)

Lemma initCompare_installs (s : StockSeries) (compare : string) :
  compare = "value"%string \/ compare = "percent"%string ->
  modifyValue_compare (initCompare s (Some compare)) = Some compare
  /\ compareValue (initCompare s (Some compare)) = compareValue s
  /\ options_compareBase (initCompare s (Some compare))
     = options_compareBase s.
Proof. intros [-> | ->]; repeat split. Qed.

(** C5.  With the compare mode set to "value" or "percent", a defined
    baseline and a defined input, the installed [modifyValue] returns
    [value - baseline] in value mode and
    [100 * (value / baseline) - (compareBase === 100 ? 0 : 100)] in
    percent mode; in percent mode a baseline of 50 and a value of 75 give
    50. *)
Theorem modifyValue_formula :
  (forall (s : StockSeries) (value baseline : num)
          (point : option StockPoint),
      compareValue s = Some baseline ->
      call_modifyValue (initCompare s (Some "value"%string))
        (Some value) point
      = Some (compared_value value baseline,
              set_change point (compared_value value baseline))
      /\ call_modifyValue (initCompare s (Some "percent"%string))
           (Some value) point
         = Some (compared_percent value baseline (options_compareBase s),
                 set_change point
                   (compared_percent value baseline
                      (options_compareBase s))))
  /\ call_modifyValue (initCompare (example_stock None)
                         (Some "percent"%string))
       (Some (Fin 75)) None
     = Some (Fin 50, None).
Proof.
  split; [|reflexivity].
  intros s value baseline point Hb.
  unfold call_modifyValue, modifyValue. simpl.
  rewrite Hb. split; reflexivity.
Qed.

Lemma modifyValue_formula_witness :
  call_modifyValue (initCompare (example_stock (Some (Fin 100)))
                      (Some "value"%string))
    (Some (Fin 75)) (Some (mkStockPoint None))
  = Some (Fin 25, Some (mkStockPoint (Some (Fin 25))))
  /\ call_modifyValue (initCompare (example_stock (Some (Fin 100)))
                         (Some "percent"%string))
       (Some (Fin 75)) (Some (mkStockPoint None))
     = Some (Fin 150, Some (mkStockPoint (Some (Fin 150)))).
Proof.
  destruct (proj1 modifyValue_formula (example_stock (Some (Fin 100)))
              (Fin 75) (Fin 50) (Some (mkStockPoint None)) eq_refl)
    as [H1 H2].
  split.
  - etransitivity; [exact H1|reflexivity].
  - etransitivity; [exact H2|reflexivity].
Defined.

(** C10.  With the compare mode set to "value" or "percent", the installed
    [modifyValue] returns 0 and leaves the point alone whenever the input
    or the baseline of the series is undefined; so with no baseline both
    modified extremes of the series are computed from 0 and 0, whatever
    the raw extremes are. *)
Theorem modifyValue_zero_without_baseline :
  forall (arrayMin arrayMax : list num -> num) (s : StockSeries)
         (compare : string) (value : option num)
         (point : option StockPoint),
    compare = "value"%string \/ compare = "percent"%string ->
    value = None \/ compareValue s = None ->
    call_modifyValue (initCompare s (Some compare)) value point
    = Some (Fin 0, point)
    /\ (compareValue s = None ->
        forall dataMin dataMax : option num,
          afterGetExtremes arrayMin arrayMax (initCompare s (Some compare))
            (Some (dataMin, dataMax))
          = Some (Some (arrayMin [Fin 0; Fin 0]),
                  Some (arrayMax [Fin 0; Fin 0]))).
Proof.
  intros arrayMin arrayMax s compare value point Hc Hu.
  destruct (initCompare_installs s compare Hc) as (Hm & Hv & _).
  split.
  - unfold call_modifyValue. rewrite Hm. unfold modifyValue. rewrite Hv.
    destruct Hu as [-> | ->]; [reflexivity|].
    now destruct value.
  - intros Hnone dataMin dataMax.
    unfold afterGetExtremes. rewrite Hm. unfold modifyValue.
    rewrite Hv, Hnone. now destruct dataMin, dataMax.
Qed.

Lemma modifyValue_zero_without_baseline_witness :
  call_modifyValue
    (initCompare (mkStock None None None true false) (Some "percent"%string))
    (Some (Fin 75)) (Some (mkStockPoint None))
  = Some (Fin 0, Some (mkStockPoint None)).
Proof.
  exact (proj1 (modifyValue_zero_without_baseline
                  (fun _ => NaN) (fun _ => NaN)
                  (mkStock None None None true false) "percent"%string
                  (Some (Fin 75)) (Some (mkStockPoint None))
                  (or_intror eq_refl) (or_intror eq_refl))).
Defined.

(** ** drawPoints: the fast transform *)

Lemma fast_transform_cases (E : External) (s : MapSeries)
  (bt : MapBaseTransObject) :
  fast_transform E s bt
  = if strictly_within s bt then snapped E s bt else unmodified E s bt.
Proof.
  unfold fast_transform, strictly_within, snapped, unmodified.
  fold (computed_scaleX s bt). fold (computed_scaleY s bt).
  now rewrite !gt_lt.
Qed.

Lemma drawPoints_fast (E : External) (s : MapSeries)
  (bt : MapBaseTransObject) :
  doFullTranslate s = false -> baseTrans s = Some bt ->
  transformGroup (drawPoints E s) = Some (fast_transform E s bt).
Proof.
  intros Hfull Hbt. unfold drawPoints. now rewrite Hfull, Hbt.
Qed.

(** [Math.round] of a finite number is the integer [z] with
    [z - 1/2 <= q < z + 1/2]. *)
Lemma Math_round_nearest (q : Q) :
  exists z : Z,
    Math_round (Fin q) = of_Z z
    /\ (inject_Z z - (1 # 2) <= q)%Q /\ (q < inject_Z z + (1 # 2))%Q.
Proof.
  exists (Qfloor (q + (1 # 2))). split; [reflexivity|].
  pose proof (Qfloor_le (q + (1 # 2))) as Hle.
  pose proof (Qlt_floor (q + (1 # 2))) as Hlt.
  rewrite inject_Z_plus in Hlt. change (inject_Z 1) with 1%Q in Hlt.
  set (r := inject_Z (Qfloor (q + (1 # 2)))) in *. clearbody r.
  split; lra.
Qed.

(** C3, as the code has it.  In fast-transform mode, when both computed
    scales lie strictly between 0.99 and 1.01, both are set to 1 and both
    translations are rounded to the nearest integer; in every other case,
    a scale of exactly 0.99 or 1.01 included, the scales and the
    translations are applied as computed. *)
Theorem fast_transform_dampening :
  forall (E : External) (s : MapSeries) (bt : MapBaseTransObject),
    doFullTranslate s = false -> baseTrans s = Some bt ->
    (strictly_within s bt = true ->
     transformGroup (drawPoints E s)
     = Some (mkTransform (Math_round (computed_translateX E s bt))
               (Math_round (computed_translateY E s bt)) (Fin 1) (Fin 1)))
    /\ (strictly_within s bt = false ->
        transformGroup (drawPoints E s)
        = Some (mkTransform (computed_translateX E s bt)
                  (computed_translateY E s bt)
                  (computed_scaleX s bt) (computed_scaleY s bt)))
    /\ (forall q : Q,
           exists z : Z,
             Math_round (Fin q) = of_Z z
             /\ (inject_Z z - (1 # 2) <= q)%Q
             /\ (q < inject_Z z + (1 # 2))%Q).
Proof.
  intros E s bt Hfull Hbt.
  rewrite (drawPoints_fast E s bt Hfull Hbt), fast_transform_cases.
  split; [now intros ->|].
  split; [now intros ->|].
  apply Math_round_nearest.
Qed.

Lemma fast_transform_dampening_witness :
  transformGroup (drawPoints example_external drifted_series)
  = Some (mkTransform (Fin 2) (Fin 7) (Fin 1) (Fin 1)).
Proof.
  etransitivity.
  - exact (proj1 (fast_transform_dampening example_external drifted_series
                    (mkBaseTrans (Fin 2) (Fin 7.3) (Fin 1) (Fin 1))
                    eq_refl eq_refl) eq_refl).
  - reflexivity.
Defined.

(** C3, as the specification words it, fails on the boundary: with an x
    scale of exactly 0.99 and a y scale of 1 both lie in the closed
    interval, and the scale is applied as it is. *)
Lemma closed_interval_not_snapped :
  within_closed boundary_series boundary_base = true
  /\ transformGroup (drawPoints example_external boundary_series)
     = Some (mkTransform (Fin 0) (Fin 0) (Fin 0.99) (Fin 1))
  /\ ~ snaps_on_closed_interval example_external boundary_series
         boundary_base.
Proof.
  split; [reflexivity|]. split; [reflexivity|].
  unfold snaps_on_closed_interval.
  change (within_closed boundary_series boundary_base) with true.
  cbv iota.
  change (transformGroup (drawPoints example_external boundary_series))
    with (Some (mkTransform (Fin 0) (Fin 0) (Fin 0.99) (Fin 1))).
  change (snapped example_external boundary_series boundary_base)
    with (mkTransform (Fin 0) (Fin 0) (Fin 1) (Fin 1)).
  intros H. discriminate H.
Qed.

(** ** Column pyramid: the stack height as a denominator *)

Lemma div_zero_not_finite (a : num) (q : Q) :
  (q == 0)%Q -> isNumber (a / Fin q)%num = false.
Proof.
  intros Hq. apply Qeq_alt in Hq.
  destruct a as [x| | |]; unfold div; cbv beta iota; rewrite ?Hq; trivial.
  now destruct (x ?= 0)%Q.
Qed.

(** On a chart that is not inverted the widths are guarded: a stack
    height of zero gives widths of zero. *)
Lemma guarded_widths (C : ColumnExternal) (series : ColumnPyramidSeries)
  (p : Prelude) (point : ColumnPyramidPoint) :
  chart_inverted series = false ->
  truthy (stackHeight (geometry C series p point)) = false ->
  topXwidth (geometry C series p point) = Fin 0
  /\ bottomXwidth (geometry C series p point) = Fin 0.
Proof.
  unfold geometry. intros Hinv. rewrite Hinv. simpl.
  intros Hs. now rewrite Hs.
Qed.

(** On an inverted chart the widths are divided by the stack height
    without a guard: with a stack height of zero neither width is a
    finite number. *)
Lemma unguarded_widths (C : ColumnExternal) (series : ColumnPyramidSeries)
  (p : Prelude) (point : ColumnPyramidPoint) (q : Q) :
  chart_inverted series = true ->
  stackHeight (geometry C series p point) = Fin q -> (q == 0)%Q ->
  isNumber (topXwidth (geometry C series p point)) = false
  /\ isNumber (bottomXwidth (geometry C series p point)) = false.
Proof.
  unfold geometry. intros Hinv. rewrite Hinv. simpl.
  intros Hs Hq. rewrite Hs. split; now apply div_zero_not_finite.
Qed.

(** C7 at a point of an inverted chart whose stack total falls on the
    threshold line: the stack height is zero, the top width is NaN and the
    bottom width is infinite, and they reach the path of the shape. *)
Theorem inverted_pyramid_widths_not_zero :
  let series := flat_pyramid true in
  let g := geometry example_column_external series
             (prelude example_column_external series) flat_point in
  stackHeight g = Fin 0
  /\ topXwidth g = NaN /\ bottomXwidth g = PInf
  /\ map cp_shapeArgs
       (points (pyramid_translate example_column_external series))
     = [Some (NaN, Fin 99.5, NaN, Fin (1 # 2),
              [Seg "M" [NaN; Fin 99.5]; Seg "L" [NaN; Fin 99.5];
               Seg "L" [NInf; Fin 95]; Seg "L" [PInf; Fin 95];
               Seg "Z" []])].
Proof. vm_compute. repeat split. Qed.

(** The same point on a chart that is not inverted: widths of zero. *)
Lemma upright_pyramid_widths_zero :
  let series := flat_pyramid false in
  let g := geometry example_column_external series
             (prelude example_column_external series)
             (mkPyramidPoint (Some (Fin 30)) (Some (Fin 100))
                (Some (Fin 100)) None (Number (Fin 100)) None None None None
                None) in
  stackHeight g = Fin 0 /\ topXwidth g = Fin 0 /\ bottomXwidth g = Fin 0.
Proof. vm_compute. repeat split. Qed.

(** ** setData: entries of the data array that are null *)

Lemma normalize_item_null (E : External) (opts : JoinOptions) (jb : JoinBy)
  (i : nat) :
  joinBy0 jb = Some "_i"%string ->
  normalize_item E opts jb i ItemNull = inl (CannotSetProperty "_i").
Proof. intros H. unfold normalize_item. now rewrite H. Qed.

Lemma normalize_from_null (E : External) (opts : JoinOptions) (jb : JoinBy)
  (data : list dataItem) :
  joinBy0 jb = Some "_i"%string -> In ItemNull data ->
  forall i, exists e, normalize_from E opts jb i data = inl e.
Proof.
  intros Hj. induction data as [|val rest IH]; intros Hin i; [easy|].
  simpl. destruct Hin as [-> | Hin].
  - rewrite normalize_item_null by assumption. simpl. eauto.
  - destruct (normalize_item E opts jb i val) as [e|v]; simpl; [eauto|].
    destruct (IH Hin (S i)) as [e He]. rewrite He. simpl. eauto.
Qed.

Lemma getBox_items_loop_null (E : External) (items : list dataItem) :
  In ItemNull items ->
  forall acc, exists e, getBox_items_loop E acc items = inl e.
Proof.
  induction items as [|it rest IH]; intros Hin acc; [easy|].
  simpl. destruct Hin as [-> | Hin]; simpl; [eauto|].
  destruct (getBox_item E acc it) as [e|r]; simpl; [eauto|].
  destruct (IH Hin (fst r)) as [e He]. rewrite He. simpl. eauto.
Qed.

Lemma normalize_item_keeps_null (E : External) (opts : JoinOptions)
  (jb : JoinBy) (i : nat) (val v : dataItem) :
  normalize_item E opts jb i val = inr v ->
  val = ItemNull -> v = ItemNull.
Proof.
  intros H ->. unfold normalize_item in H.
  destruct (joinBy0 jb) as [k|]; [|now inversion H].
  destruct (String.eqb k "_i"); [discriminate|now inversion H].
Qed.

Lemma normalize_from_keeps_null (E : External) (opts : JoinOptions)
  (jb : JoinBy) (data : list dataItem) :
  In ItemNull data ->
  forall i r, normalize_from E opts jb i data = inr r -> In ItemNull r.
Proof.
  induction data as [|val rest IH]; intros Hin i r Hr; [easy|].
  simpl in Hr.
  destruct (normalize_item E opts jb i val) as [e|v] eqn:Hv;
    [discriminate|]. simpl in Hr.
  destruct (normalize_from E opts jb (S i) rest) as [e|r'] eqn:Hr';
    [discriminate|]. simpl in Hr. inversion Hr; subst r.
  destruct Hin as [Hnull | Hin].
  - left.
    exact (normalize_item_keeps_null E opts jb i val v Hv Hnull).
  - right. exact (IH Hin (S i) r' Hr').
Qed.

(** A null entry anywhere in the data array makes [setData] throw, by
    position or by key. *)
Lemma setData_null_entry_throws (E : External) (opts : JoinOptions)
  (jb : JoinBy) (s : MapSeries) (data : list dataItem)
  (updatePoints0 : option bool) :
  In ItemNull data ->
  exists e, setData E opts jb s (Some data) updatePoints0 = inl e.
Proof.
  intros Hin. unfold setData.
  destruct (normalize_from E opts jb 0 data) as [e|r] eqn:Hr; simpl;
    [eauto|].
  pose proof (normalize_from_keeps_null E opts jb data Hin 0 r Hr) as Hin'.
  unfold getBox_items.
  destruct (getBox_items_loop_null E r Hin' initial_acc) as [e He].
  rewrite He. simpl. eauto.
Qed.

(** C8 on the code.  The data [1, null, 3] joined by position with three
    shapes and [allAreas] off: the assignment of the position to the null
    entry throws, and no merged collection is produced. *)
Theorem join_by_index_with_null_throws :
  let series := setOptions plain_series JoinByNull in
  joinBy series = mkJoinBy (Some "_i"%string) (Some "_i"%string)
  /\ setData example_external (join_options false three_shapes)
       (joinBy series) series
       (Some [ItemNumber (Fin 1); ItemNull; ItemNumber (Fin 3)]) None
     = inl (CannotSetProperty "_i").
Proof. split; reflexivity. Qed.

(** With the second value record given as an object whose value is null
    the join goes through: three entries, the second with a null value. *)
Lemma join_by_index_with_null_value :
  let series := setOptions plain_series JoinByNull in
  exists j l,
    setData example_external (join_options false three_shapes)
      (joinBy series) series
      (Some [ItemNumber (Fin 1);
             ItemObject (new_object [("value"%string, VNull)]);
             ItemNumber (Fin 3)]) None
    = inr j
    /\ merged j = Some l
    /\ List.length l = 3%nat
    /\ map (fun it => get_prop example_external (item_value it) "value") l
       = [VNum (Fin 1); VNull; VNum (Fin 3)].
Proof.
  intros series. eexists. eexists.
  split; [vm_compute; reflexivity|].
  split; [reflexivity|]. split; reflexivity.
Qed.

(** ** The order of numbers *)

Lemma cmp_refl (a : num) : is_nan a = false -> cmp a a = Some Eq.
Proof.
  destruct a as [x| | |]; simpl; try easy.
  intros _. f_equal. apply Qeq_alt. reflexivity.
Qed.

Lemma le_refl (a : num) : is_nan a = false -> num_le a a.
Proof. intros H. unfold num_le, le. now rewrite cmp_refl. Qed.

Lemma le_trans (a b c : num) : num_le a b -> num_le b c -> num_le a c.
Proof.
  unfold num_le, le.
  destruct a as [x| | |], b as [y| | |], c as [z| | |]; simpl;
    try easy.
  intros Hxy Hyz.
  assert (Hle1 : (x <= y)%Q).
  { apply Qle_alt. destruct (x ?= y)%Q; easy. }
  assert (Hle2 : (y <= z)%Q).
  { apply Qle_alt. destruct (y ?= z)%Q; easy. }
  assert (Hle : (x <= z)%Q) by (eapply Qle_trans; eassumption).
  pose proof (proj1 (Qle_alt x z) Hle) as Hc.
  destruct (x ?= z)%Q; try reflexivity. now elim Hc.
Qed.

Lemma cmp_antisym (a b : num) :
  cmp b a = match cmp a b with
            | Some c => Some (CompOpp c)
            | None => None
            end.
Proof.
  destruct a as [x| | |], b as [y| | |]; simpl; trivial.
  now rewrite <- Qcompare_antisym.
Qed.

Lemma Math_min_not_nan (a b : num) :
  is_nan a = false -> is_nan b = false -> is_nan (Math_min a b) = false.
Proof.
  intros Ha Hb. unfold Math_min.
  destruct a as [x| | |], b as [y| | |]; simpl in *; try easy.
  now destruct (x ?= y)%Q.
Qed.

Lemma Math_max_not_nan (a b : num) :
  is_nan a = false -> is_nan b = false -> is_nan (Math_max a b) = false.
Proof.
  intros Ha Hb. unfold Math_max.
  destruct a as [x| | |], b as [y| | |]; simpl in *; try easy.
  now destruct (x ?= y)%Q.
Qed.

Lemma Math_min_le_l (a b : num) :
  is_nan a = false -> is_nan b = false -> num_le (Math_min a b) a.
Proof.
  intros Ha Hb. unfold Math_min.
  destruct (cmp a b) as [[| |]|] eqn:Hc.
  - now apply le_refl.
  - now apply le_refl.
  - unfold num_le, le. rewrite cmp_antisym, Hc. reflexivity.
  - destruct a, b; simpl in *; easy.
Qed.

Lemma Math_min_le_r (a b : num) :
  is_nan a = false -> is_nan b = false -> num_le (Math_min a b) b.
Proof.
  intros Ha Hb. unfold Math_min.
  destruct (cmp a b) as [[| |]|] eqn:Hc.
  - unfold num_le, le. now rewrite Hc.
  - unfold num_le, le. now rewrite Hc.
  - now apply le_refl.
  - destruct a, b; simpl in *; easy.
Qed.

Lemma Math_max_ge_l (a b : num) :
  is_nan a = false -> is_nan b = false -> num_le a (Math_max a b).
Proof.
  intros Ha Hb. unfold Math_max.
  destruct (cmp a b) as [[| |]|] eqn:Hc.
  - now apply le_refl.
  - unfold num_le, le. now rewrite Hc.
  - now apply le_refl.
  - destruct a, b; simpl in *; easy.
Qed.

Lemma Math_max_ge_r (a b : num) :
  is_nan a = false -> is_nan b = false -> num_le b (Math_max a b).
Proof.
  intros Ha Hb. unfold Math_max.
  destruct (cmp a b) as [[| |]|] eqn:Hc.
  - unfold num_le, le. rewrite cmp_antisym, Hc. reflexivity.
  - now apply le_refl.
  - unfold num_le, le. rewrite cmp_antisym, Hc. reflexivity.
  - destruct a, b; simpl in *; easy.
Qed.

(** ** getBox: the box of one point *)

Lemma walk_segment_grows (b : PointBox) (seg : segment) :
  box_not_nan b ->
  (forall x y, last_pair seg = Some (x, y) ->
               is_nan x = false /\ is_nan y = false) ->
  box_not_nan (walk_segment b seg)
  /\ box_within b (walk_segment b seg)
  /\ (forall xy, last_pair seg = Some xy ->
                 box_holds (walk_segment b seg) xy).
Proof.
  intros (HMX & HmX & HMY & HmY) Hseg. unfold walk_segment.
  destruct (last_pair seg) as [[x y]|].
  - destruct (Hseg x y eq_refl) as [Hx Hy].
    split; [|split].
    + unfold box_not_nan. simpl.
      auto using Math_min_not_nan, Math_max_not_nan.
    + unfold box_within. simpl.
      auto using Math_min_le_l, Math_max_ge_l.
    + intros xy Hxy. inversion Hxy; subst xy.
      unfold box_holds. simpl.
      auto using Math_min_le_r, Math_max_ge_r.
  - split; [|split].
    + easy.
    + unfold box_within. auto using le_refl.
    + intros xy Hxy. discriminate.
Qed.

Lemma box_holds_within (b c : PointBox) (xy : num * num) :
  box_within b c -> box_holds b xy -> box_holds c xy.
Proof.
  intros (H1 & H2 & H3 & H4) (K1 & K2 & K3 & K4).
  unfold box_holds. repeat split; eauto using le_trans.
Qed.

Lemma walk_bounds (p : SVGPath) :
  end_points_not_nan p ->
  forall b,
    box_not_nan b ->
    box_not_nan (fold_left walk_segment p b)
    /\ box_within b (fold_left walk_segment p b)
    /\ (forall seg xy, In seg p -> last_pair seg = Some xy ->
                       box_holds (fold_left walk_segment p b) xy).
Proof.
  induction p as [|seg p IH]; intros Hp b Hb; simpl.
  - destruct Hb as (H1 & H2 & H3 & H4).
    split; [easy|]. split; [|easy].
    unfold box_within. auto using le_refl.
  - assert (Hseg : forall x y, last_pair seg = Some (x, y) ->
                               is_nan x = false /\ is_nan y = false).
    { intros x y H. apply (Hp seg x y); [now left|exact H]. }
    destruct (walk_segment_grows b seg Hb Hseg) as (Hn & Hw & Hh).
    assert (Hp' : end_points_not_nan p).
    { intros s x y Hin H. apply (Hp s x y); [now right|exact H]. }
    destruct (IH Hp' (walk_segment b seg) Hn) as (Hn' & Hw' & Hh').
    split; [exact Hn'|]. split.
    + destruct Hw as (A1 & A2 & A3 & A4), Hw' as (B1 & B2 & B3 & B4).
      unfold box_within. repeat split; eauto using le_trans.
    + intros s xy [-> | Hin] Hxy.
      * eapply box_holds_within; [exact Hw'|]. now apply Hh.
      * now apply (Hh' s xy).
Qed.

Lemma initial_point_box_not_nan : box_not_nan initial_point_box.
Proof. repeat split. Qed.

Lemma convert_path_truthy (E : External) (p : pathOption) :
  path_truthy p = true -> path_truthy (convert_path E p) = true.
Proof.
  destruct p as [s|l|segs]; simpl; trivial.
  destruct l as [|[t|n] l]; trivial.
  now destruct (String.eqb t "M").
Qed.

Lemma convert_path_segments (E : External) (segs : SVGPath) :
  convert_path E (PathSegments segs) = PathSegments segs.
Proof. reflexivity. Qed.

(** The point after [getBox] when its box was not cached yet. *)
Lemma getBox_point_fresh (E : External) (acc : BoxAcc)
  (point : MapPointOptions) (p0 : pathOption) :
  path point = Some p0 -> path_truthy p0 = true ->
  _foundBox point = false ->
  snd (getBox_point E acc point) = analyze_box point (convert_path E p0).
Proof.
  intros Hp Ht Hf. unfold getBox_point. now rewrite Hp, Ht, Hf.
Qed.

(** The point after [getBox] when its box was cached: only the path may
    have been converted. *)
Lemma getBox_point_cached (E : External) (acc : BoxAcc)
  (point : MapPointOptions) :
  _foundBox point = true ->
  cache (snd (getBox_point E acc point)) = cache point.
Proof.
  intros Hf. unfold getBox_point.
  destruct (path point) as [p0|]; [|reflexivity].
  destruct (path_truthy p0); [|reflexivity].
  now rewrite Hf.
Qed.

(** C2, as the code has it.  For a point with geometry whose box is not
    cached yet, [getBox] folds the last coordinate pair of every segment,
    its end point, into the running extremes of the point, caches them
    and marks the point; the cached box bounds the end point of every
    segment when these are numbers other than NaN.  Once the point is
    marked, the cache no longer depends on the path: the geometry is
    walked once. *)
Theorem getBox_caches_end_point_box :
  forall (E : External) (acc : BoxAcc) (point : MapPointOptions)
         (p0 : pathOption),
    path point = Some p0 -> path_truthy p0 = true ->
    _foundBox point = false ->
    let segs := segments_of (convert_path E p0) in
    let point' := snd (getBox_point E acc point) in
    _foundBox point' = true
    /\ (_minX point', _maxX point', _minY point', _maxY point')
       = (Some (pointMinX (walk_path segs)), Some (pointMaxX (walk_path segs)),
          Some (pointMinY (walk_path segs)), Some (pointMaxY (walk_path segs)))
    /\ (end_points_not_nan segs -> bounds_end_points point' segs)
    /\ (forall (acc' : BoxAcc) (p1 : pathOption),
           cache (snd (getBox_point E acc' (with_path point' p1)))
           = cache point').
Proof.
  intros E acc point p0 Hp Ht Hf segs point'.
  unfold point'. rewrite (getBox_point_fresh E acc point p0 Hp Ht Hf).
  fold segs. split; [reflexivity|]. split; [reflexivity|]. split.
  - intros Hsegs seg xy Hin Hxy.
    destruct (walk_bounds segs Hsegs initial_point_box
                initial_point_box_not_nan) as (_ & _ & Hh).
    destruct (Hh seg xy Hin Hxy) as (H1 & H2 & H3 & H4).
    unfold bounds, analyze_box. simpl. fold segs.
    unfold walk_path. easy.
  - intros acc' p1. now rewrite getBox_point_cached.
Qed.

Lemma getBox_caches_end_point_box_witness :
  _foundBox (snd (getBox_point example_external initial_acc curved_shape))
  = true
  /\ bounds (snd (getBox_point example_external initial_acc curved_shape))
       (Fin 50, Fin 0).
Proof.
  destruct (getBox_caches_end_point_box example_external initial_acc
              curved_shape
              (PathSegments [MoveTo 0 0; CurveTo 0 100 50 100 50 0;
                             ClosePath])
              eq_refl eq_refl eq_refl) as (Hfound & _ & Hb & _).
  split; [exact Hfound|].
  apply (Hb ltac:(intros seg x y [<-|[<-|[<-|[]]]] H; inversion H;
                  split; reflexivity)
            (CurveTo 0 100 50 100 50 0)).
  - right. now left.
  - reflexivity.
Defined.

(** C2, as the specification words it, fails on a curve: the control
    point (0, 100) of the curve lies outside the cached box, whose
    largest Y is 0. *)
Lemma control_points_not_bounded :
  _maxY (snd (getBox_point example_external initial_acc curved_shape))
  = Some (Fin 0)
  /\ ~ bounds_all_coordinates
         (snd (getBox_point example_external initial_acc curved_shape))
         [MoveTo 0 0; CurveTo 0 100 50 100 50 0; ClosePath].
Proof.
  split; [reflexivity|].
  intros H.
  destruct (H (CurveTo 0 100 50 100 50 0) (Fin 0, Fin 100)) as (_ & _ & _ & K).
  - right. now left.
  - now left.
  - vm_compute in K. discriminate K.
Qed.

(** ** getBox: the minimum range of the axes *)

Lemma getBox_point_no_geometry (E : External) (acc : BoxAcc)
  (point : MapPointOptions) :
  has_geometry point = false -> getBox_point E acc point = (acc, point).
Proof.
  unfold has_geometry, getBox_point.
  destruct (path point) as [p0|]; [|reflexivity].
  now intros ->.
Qed.

Lemma getBox_point_geometry (E : External) (acc : BoxAcc)
  (point : MapPointOptions) :
  has_geometry point = true ->
  let acc' := fst (getBox_point E acc point) in
  let point' := snd (getBox_point E acc point) in
  has_geometry point' = true
  /\ hasBox acc' = true
  /\ acc_minRange acc'
     = Math_min3 (extentX point') (extentY point') (acc_minRange acc).
Proof.
  unfold has_geometry, getBox_point.
  destruct (path point) as [p0|]; [|discriminate].
  intros Ht. rewrite Ht. simpl.
  split; [|split; reflexivity].
  destruct (_foundBox point); simpl; now apply convert_path_truthy.
Qed.

Lemma getBox_loop_minRange (E : External) (paths : list MapPointOptions) :
  forall acc : BoxAcc,
    let acc' := fst (getBox_loop E acc paths) in
    let paths' := snd (getBox_loop E acc paths) in
    hasBox acc' = hasBox acc || existsb has_geometry paths
    /\ acc_minRange acc'
       = fold_left
           (fun m o => if has_geometry o
                       then Math_min3 (extentX o) (extentY o) m else m)
           paths' (acc_minRange acc).
Proof.
  induction paths as [|point rest IH]; intros acc; simpl.
  - now rewrite orb_false_r.
  - destruct (getBox_point E acc point) as [acc1 point'] eqn:Hpoint.
    specialize (IH acc1).
    destruct (getBox_loop E acc1 rest) as [acc2 rest'] eqn:Hrest.
    simpl in *. destruct IH as [IHb IHm].
    destruct (has_geometry point) eqn:Hg.
    + destruct (getBox_point_geometry E acc point Hg) as (Hg' & Hb & Hm).
      rewrite Hpoint in Hg', Hb, Hm. simpl in Hg', Hb, Hm.
      rewrite Hg', IHb, Hb, IHm, Hm. now rewrite orb_true_r.
    + rewrite (getBox_point_no_geometry E acc point Hg) in Hpoint.
      inversion Hpoint; subst acc1 point'.
      rewrite Hg. now rewrite IHb, IHm.
Qed.

Lemma update_minRange_default (m extent : num) (a : Axis.t) :
  Axis.options_minRange a = None ->
  Axis.minRange (update_minRange m extent a)
  = Some (Math_min3 (Fin 5 * m)%num (extent / Fin 5)%num
            (previous_or_max (Axis.minRange a))).
Proof. intros H. unfold update_minRange. now rewrite H. Qed.

Lemma update_minRange_configured (m extent : num) (a : Axis.t) :
  Axis.options_minRange a <> None -> update_minRange m extent a = a.
Proof.
  intros H. unfold update_minRange.
  now destruct (Axis.options_minRange a).
Qed.

(** C6, as the code has it.  When [getBox] finds at least one point with
    geometry, an axis without a configured [minRange] option gets as
    minimum range the minimum of five times the smallest extent of the
    points seen, a fifth of the extent of the whole series on that axis,
    and the minimum range it had before when that is a number other than
    zero, [Number.MAX_VALUE] in its place otherwise; an axis with a
    configured [minRange] option is left as it is. *)
Theorem getBox_sets_minRange :
  forall (E : External) (s : MapSeries) (paths : list MapPointOptions),
    existsb has_geometry paths = true ->
    let s' := fst (getBox E s paths) in
    let paths' := snd (getBox E s paths) in
    (Axis.options_minRange (xAxis s) = None ->
     Axis.minRange (xAxis s')
     = Some (Math_min3 (Fin 5 * smallest_extent paths')%num
               (seriesExtentX s' / Fin 5)%num
               (previous_or_max (Axis.minRange (xAxis s)))))
    /\ (Axis.options_minRange (yAxis s) = None ->
        Axis.minRange (yAxis s')
        = Some (Math_min3 (Fin 5 * smallest_extent paths')%num
                  (seriesExtentY s' / Fin 5)%num
                  (previous_or_max (Axis.minRange (yAxis s)))))
    /\ (Axis.options_minRange (xAxis s) <> None -> xAxis s' = xAxis s)
    /\ (Axis.options_minRange (yAxis s) <> None -> yAxis s' = yAxis s)
    /\ (forall r : num,
           truthy r = true -> previous_or_max (Some r) = r)
    /\ (forall r : num,
           truthy r = false -> previous_or_max (Some r) = MAX_VALUE)
    /\ previous_or_max None = MAX_VALUE.
Proof.
  intros E s paths Hsome s' paths'.
  unfold s', paths', getBox.
  pose proof (getBox_loop_minRange E paths initial_acc) as Hloop.
  destruct (getBox_loop E initial_acc paths) as [acc ps] eqn:Hl.
  simpl in Hloop. destruct Hloop as [Hb Hm]. rewrite Hsome in Hb.
  simpl. unfold getBox_finish. rewrite Hb.
  unfold seriesExtentX, seriesExtentY, smallest_extent.
  cbn [fst snd xAxis yAxis box set_geometry minX maxX minY maxY].
  rewrite <- Hm.
  split; [apply update_minRange_default|].
  split; [apply update_minRange_default|].
  split; [apply update_minRange_configured|].
  split; [apply update_minRange_configured|].
  unfold previous_or_max, or_default, or_else.
  split; [now intros r ->|]. split; [now intros r ->|reflexivity].
Qed.

Lemma getBox_sets_minRange_witness :
  Axis.minRange
    (xAxis (fst (getBox example_external configured_series [square_shape])))
  = Some (Fin 2)
  /\ yAxis (fst (getBox example_external configured_series [square_shape]))
     = yAxis configured_series.
Proof.
  destruct (getBox_sets_minRange example_external configured_series
              [square_shape] eq_refl) as (Hx & _ & _ & Hy & _).
  split.
  - etransitivity; [exact (Hx eq_refl)|]. vm_compute. reflexivity.
  - apply Hy. discriminate.
Defined.

(** C6, as the specification words it, fails when the minimum range set
    before is zero.  A first [getBox] on a shape without height sets the
    minimum range of the x axis to zero; a second one on a square of side
    10 reads that zero as none and sets the minimum range to 10, a fifth
    of the extent of the series, where the minimum with the range set
    before would be 0. *)
Lemma zero_minRange_is_ignored :
  let s' :=
    fst (getBox example_external series_after_flat_shape [square_shape]) in
  let paths' :=
    snd (getBox example_external series_after_flat_shape [square_shape]) in
  Axis.minRange (xAxis series_after_flat_shape) = Some (Fin 0)
  /\ Axis.options_minRange (xAxis series_after_flat_shape) = None
  /\ Axis.minRange (xAxis s') = Some (Fin 10)
  /\ claimed_minRange (smallest_extent paths') (seriesExtentX s')
       (Axis.minRange (xAxis series_after_flat_shape))
     = Fin 0
  /\ Axis.minRange (xAxis s')
     <> Some (claimed_minRange (smallest_extent paths') (seriesExtentX s')
                (Axis.minRange (xAxis series_after_flat_shape))).
Proof.
  vm_compute. repeat split. intros H. discriminate H.
Qed.

(** ** translate *)

Lemma translate_point_axes (E : External) (s t : MapSeries) (full : bool)
  (point : MapPoint) :
  xAxis s = xAxis t -> yAxis s = yAxis t ->
  translate_point E s full point = translate_point E t full point.
Proof.
  intros Hx Hy. unfold translate_point, translatePath. now rewrite Hx, Hy.
Qed.

Lemma translate_point_idempotent (E : External) (s : MapSeries)
  (full : bool) (point : MapPoint) :
  translate_point E s full (translate_point E s full point)
  = translate_point E s full point.
Proof.
  unfold translate_point.
  destruct full;
    destruct (isNumber_opt (pt_midX point) && isNumber_opt (pt_midY point))
      eqn:Hmid; simpl; rewrite Hmid; reflexivity.
Qed.

Lemma doFullTranslate_set_data (s : MapSeries) (l : list MapPoint) :
  doFullTranslate (set_data s l) = doFullTranslate s.
Proof. reflexivity. Qed.

Lemma doFullTranslate_generatePoints (E : External) (s : MapSeries) :
  keeps_view E -> doFullTranslate (generatePoints E s) = doFullTranslate s.
Proof.
  intros Hk. destruct (Hk s) as (_ & _ & H1 & H2 & H3 & H4).
  unfold doFullTranslate. now rewrite H1, H2, H3, H4.
Qed.

(** C9.  With a point generation that leaves the view alone and hands
    back the points it has, a second [translate] with no change in
    between leaves every point as the first one left it: the same
    [plotX], [plotY] and [shapeArgs.d]. *)
Theorem translate_idempotent :
  forall (E : External) (s : MapSeries),
    keeps_view E -> reuses_points E ->
    data (translate E (translate E s)) = data (translate E s)
    /\ map pixel_geometry (data (translate E (translate E s)))
       = map pixel_geometry (data (translate E s)).
Proof.
  intros E s Hview Hreuse.
  assert (Hdata : data (translate E (translate E s))
                  = data (translate E s)).
  { unfold translate at 1.
    set (s' := translate E s).
    assert (Hfull : doFullTranslate s' = doFullTranslate s).
    { unfold s', translate. rewrite doFullTranslate_set_data.
      now apply doFullTranslate_generatePoints. }
    rewrite Hfull.
    assert (Hpoints : data (generatePoints E s')
                      = map (translate_point E (generatePoints E s)
                               (doFullTranslate s))
                            (data (generatePoints E s))).
    { unfold s', translate. apply Hreuse. }
    destruct (Hview s') as (Hx & Hy & _).
    simpl. rewrite Hpoints. unfold s' at 1. unfold translate. simpl.
    rewrite map_map. apply map_ext. intros point.
    rewrite (translate_point_axes E (generatePoints E s')
               (generatePoints E s)).
    - apply translate_point_idempotent.
    - rewrite Hx. reflexivity.
    - rewrite Hy. reflexivity. }
  split; [exact Hdata|]. now rewrite Hdata.
Qed.

Lemma generate_once_keeps_view (pts : list MapPoint) :
  keeps_view (generating_external pts).
Proof.
  intros s. simpl. unfold generate_once.
  destruct (data s); repeat split.
Qed.

Lemma generate_once_reuses_points (pts : list MapPoint) :
  pts <> [] -> reuses_points (generating_external pts).
Proof.
  intros Hpts s f. simpl. unfold generate_once at 1.
  remember (generate_once pts s) as s1 eqn:Hs1.
  assert (Hne : data s1 <> []).
  { subst s1. unfold generate_once.
    destruct (data s) eqn:Hd; [exact Hpts|]. rewrite Hd. discriminate. }
  simpl. destruct (data s1) as [|p l]; [now elim Hne|]. reflexivity.
Qed.

Lemma translate_idempotent_witness :
  map pixel_geometry
    (data (translate (generating_external [square_point])
             (translate (generating_external [square_point])
                (example_series (example_axis 0 10 0)
                   (example_axis 0 10 0)))))
  = [(Some (Fin 50), Some (Fin 50),
      Some [MoveTo 0 0; LineTo 100 0; LineTo 100 100; ClosePath])].
Proof.
  etransitivity.
  - exact (proj2 (translate_idempotent (generating_external [square_point])
                    (example_series (example_axis 0 10 0)
                       (example_axis 0 10 0))
                    (generate_once_keeps_view [square_point])
                    (generate_once_reuses_points [square_point]
                       ltac:(discriminate)))).
  - reflexivity.
Defined.

(** ** Strings: occurrences in a delimited list *)

















(** ** setData: the join under [allAreas] *)








(** *** The index of the shapes *)

Lemma lookup_store (m : list (string * nat)) (k k' : string) (i : nat) :
  lookup (store m k i) k'
  = if String.eqb k k' then Some i else lookup m k'.
Proof.
  induction m as [|[k0 j] m IH]; simpl.
  - reflexivity.
  - destruct (String.eqb k0 k) eqn:H0.
    + apply String.eqb_eq in H0. subst k0. simpl.
      now destruct (String.eqb k k').
    + simpl. rewrite IH.
      destruct (String.eqb k0 k') eqn:H1; [|reflexivity].
      apply String.eqb_eq in H1. subst k0.
      now rewrite String.eqb_sym, H0.
Qed.



(** *** The text of the used keys *)










Lemma get_set_same (o : object) (name : string) (v : jsval) :
  get (set o name v) name = v.
Proof.
  induction o as [|[k w] o IH]; simpl.
  - now rewrite String.eqb_refl.
  - destruct (String.eqb k name) eqn:Hk; simpl; now rewrite Hk.
Qed.







(** Why the key values must have no property under the name
    [joinBy[0]].  Joined by ['length'], the key ['no'] of the value
    record has the length 2, which passes for the key of the shape
    ['2']; joined by ['0'], it has the character ['n'], which passes for
    the key of the shape ['n'].  Either way that shape gets no entry: one
    entry for two shapes. *)
Lemma key_property_hides_shape :
  merged_length
    (setData example_external
       (join_options true
          [named_shape "length" "no" 0; named_shape "length" "2" 1])
       (mkJoinBy (Some "length"%string) (Some "length"%string))
       plain_series
       (Some [ItemObject
                (new_object [("length"%string, VStr "no");
                             ("value"%string, VNum (Fin 7))])])
       None)
  = Some 1%nat
  /\ merged_length
       (setData example_external
          (join_options true [named_shape "0" "no" 0; named_shape "0" "n" 1])
          (mkJoinBy (Some "0"%string) (Some "0"%string))
          plain_series
          (Some [ItemObject
                   (new_object [("0"%string, VStr "no");
                                ("value"%string, VNum (Fin 7))])])
          None)
     = Some 1%nat.
Proof. split; reflexivity. Qed.

(* ================================================================== *)
(** * Further properties *)
(* ================================================================== *)

Arguments MAX_VALUE : simpl never.

(** ** getBox on a whole array *)

Lemma convert_path_idempotent (E : External) (p : pathOption) :
  convert_path E (convert_path E p) = convert_path E p.
Proof.
  destruct p as [t|l|segs]; simpl; trivial.
  destruct l as [|[t|n] l]; simpl; trivial.
  destruct (String.eqb t "M") eqn:Ht; simpl; [reflexivity|].
  now rewrite Ht.
Qed.

(** The callback of [getBox] finds nothing new on a point that it has
    handled. *)
Lemma getBox_point_again (E : External) (acc : BoxAcc)
  (point : MapPointOptions) :
  getBox_point E acc (snd (getBox_point E acc point))
  = getBox_point E acc point.
Proof.
  unfold getBox_point.
  destruct (path point) as [p0|] eqn:Hp; simpl; [|now rewrite Hp].
  destruct (path_truthy p0) eqn:Ht; simpl; [|now rewrite Hp, Ht].
  destruct (_foundBox point) eqn:Hf; simpl;
    rewrite (convert_path_truthy E p0 Ht), convert_path_idempotent;
    try rewrite Hf; reflexivity.
Qed.

Lemma getBox_loop_again (E : External) (paths : list MapPointOptions) :
  forall acc,
    getBox_loop E acc (snd (getBox_loop E acc paths))
    = getBox_loop E acc paths.
Proof.
  induction paths as [|point rest IH]; intros acc; [reflexivity|].
  simpl. pose proof (getBox_point_again E acc point) as Hpoint.
  destruct (getBox_point E acc point) as [acc1 point'].
  specialize (IH acc1).
  destruct (getBox_loop E acc1 rest) as [acc2 rest'].
  simpl in *. now rewrite Hpoint, IH.
Qed.

Lemma Math_min_again (a b : num) :
  Math_min a (Math_min a b) = Math_min a b.
Proof.
  unfold Math_min at 2 3.
  destruct (cmp a b) as [[| |]|] eqn:Hc.
  - unfold Math_min. rewrite cmp_refl; [reflexivity|].
    destruct a, b; simpl in *; easy.
  - unfold Math_min. rewrite cmp_refl; [reflexivity|].
    destruct a, b; simpl in *; easy.
  - unfold Math_min. now rewrite Hc.
  - unfold Math_min. destruct a, b; simpl in *; easy.
Qed.

Lemma Math_max_again (a b : num) :
  Math_max a (Math_max a b) = Math_max a b.
Proof.
  unfold Math_max at 2 3.
  destruct (cmp a b) as [[| |]|] eqn:Hc.
  - unfold Math_max. rewrite cmp_refl; [reflexivity|].
    destruct a, b; simpl in *; easy.
  - unfold Math_max. now rewrite Hc.
  - unfold Math_max. rewrite cmp_refl; [reflexivity|].
    destruct a, b; simpl in *; easy.
  - unfold Math_max. destruct a, b; simpl in *; easy.
Qed.

Lemma truthy_MAX_VALUE : truthy MAX_VALUE = true.
Proof. vm_compute. reflexivity. Qed.

Lemma truthy_or_default (previous : option num) :
  truthy (or_default previous MAX_VALUE) = true.
Proof.
  destruct previous as [a|]; simpl; [|exact truthy_MAX_VALUE].
  unfold or_else. destruct (truthy a) eqn:Ha; [exact Ha|].
  exact truthy_MAX_VALUE.
Qed.

Lemma truthy_not_nan (a : num) : truthy a = true -> is_nan a = false.
Proof. now destruct a. Qed.

(** A number that is neither NaN nor truthy is a zero, below
    [MAX_VALUE]. *)
Lemma falsy_below_MAX_VALUE (a : num) :
  is_nan a = false -> truthy a = false -> cmp a MAX_VALUE = Some Lt.
Proof.
  destruct a as [q| | |]; intros Hn Ht; try discriminate.
  cbn [truthy] in Ht. apply negb_false_iff, Qeq_bool_iff in Ht.
  unfold cmp, MAX_VALUE. f_equal. rewrite Ht. vm_compute. reflexivity.
Qed.

Lemma Math_min_settles (M C : num) :
  truthy C = true ->
  Math_min M (or_else (Math_min M C) MAX_VALUE) = Math_min M C.
Proof.
  intros HC. pose proof (truthy_not_nan C HC) as HCn.
  assert (Hr : Math_min M C
               = match cmp M C with
                 | None => NaN
                 | Some Gt => C
                 | Some _ => M
                 end) by reflexivity.
  assert (Hself : forall c, (c = Lt \/ c = Eq) -> cmp M C = Some c ->
                            Math_min M (or_else M MAX_VALUE) = M).
  { intros c Hcase Hc.
    assert (HMn : is_nan M = false).
    { destruct M, C; simpl in *; easy. }
    unfold or_else. destruct (truthy M) eqn:HM.
    - unfold Math_min. now rewrite cmp_refl.
    - unfold Math_min. now rewrite falsy_below_MAX_VALUE. }
  destruct (cmp M C) as [[| |]|] eqn:Hc; rewrite Hr.
  - eapply Hself; [right; reflexivity|reflexivity].
  - eapply Hself; [left; reflexivity|reflexivity].
  - unfold or_else. rewrite HC. unfold Math_min. now rewrite Hc.
  - assert (HM : M = NaN) by (destruct M, C; simpl in *; easy).
    now rewrite HM.
Qed.

(** The minimum range that [getBox] chose is chosen again. *)
Lemma default_minRange_again (m extent : num) (a : Axis.t) :
  default_minRange m extent
    (Axis.set_minRange a (default_minRange m extent a))
  = default_minRange m extent a.
Proof.
  unfold default_minRange, Math_min3. simpl Axis.minRange.
  simpl or_default at 1.
  apply Math_min_settles. apply truthy_or_default.
Qed.

Lemma update_minRange_again (m extent : num) (a : Axis.t) :
  update_minRange m extent (update_minRange m extent a)
  = update_minRange m extent a.
Proof.
  unfold update_minRange at 2 3.
  destruct (Axis.options_minRange a) as [r|] eqn:Ho.
  - unfold update_minRange. now rewrite Ho.
  - unfold update_minRange. simpl Axis.options_minRange. rewrite Ho.
    rewrite default_minRange_again. reflexivity.
Qed.

Lemma getBox_finish_again (s : MapSeries) (acc : BoxAcc) :
  getBox_finish (getBox_finish s acc) acc = getBox_finish s acc.
Proof.
  unfold getBox_finish at 2 3.
  destruct (hasBox acc) eqn:Hb; [|unfold getBox_finish; now rewrite Hb].
  unfold getBox_finish. rewrite Hb.
  cbn [box xAxis yAxis set_geometry minX maxX minY maxY pick].
  rewrite !Math_min_again, !Math_max_again, !update_minRange_again.
  reflexivity.
Qed.

(** X1.  [getBox] settles at once: a second call on the array that the
    first one left, for the series that the first one left, changes
    neither the series (its box and the minimum range of its axes) nor
    the points (their paths and their cached boxes). *)
Theorem getBox_idempotent :
  forall (E : External) (s : MapSeries) (paths : list MapPointOptions),
    getBox E (fst (getBox E s paths)) (snd (getBox E s paths))
    = getBox E s paths.
Proof.
  intros E s paths. unfold getBox.
  pose proof (getBox_loop_again E paths initial_acc) as Hloop.
  destruct (getBox_loop E initial_acc paths) as [acc paths'].
  simpl in *. rewrite Hloop. now rewrite getBox_finish_again.
Qed.

(** X2.  An array in which no point has geometry (value records, an
    empty array) leaves the series and the array as they are: no box, no
    minimum range, no cache. *)
Theorem getBox_without_geometry :
  forall (E : External) (s : MapSeries) (paths : list MapPointOptions),
    Forall (fun point => has_geometry point = false) paths ->
    getBox E s paths = (s, paths).
Proof.
  intros E s paths Hall. unfold getBox.
  assert (Hloop : forall acc, getBox_loop E acc paths = (acc, paths)).
  { induction Hall as [|point rest Hpoint Hrest IH]; intros acc;
      [reflexivity|].
    simpl. rewrite (getBox_point_no_geometry E acc point Hpoint).
    now rewrite IH. }
  now rewrite Hloop.
Qed.

Lemma getBox_without_geometry_witness :
  getBox example_external plain_series [value_record 3; value_record 4]
  = (plain_series, [value_record 3; value_record 4]).
Proof.
  apply getBox_without_geometry.
  repeat constructor.
Defined.

(** *** The box of the series *)

Lemma acc_within_refl (acc : BoxAcc) : acc_not_nan acc -> acc_within acc acc.
Proof.
  intros (H1 & H2 & H3 & H4). unfold acc_within. auto using le_refl.
Qed.

Lemma acc_within_trans (a b c : BoxAcc) :
  acc_within a b -> acc_within b c -> acc_within a c.
Proof.
  intros (A1 & A2 & A3 & A4) (B1 & B2 & B3 & B4).
  unfold acc_within. repeat split; eauto using le_trans.
Qed.

Lemma acc_contains_within (a b : BoxAcc) (o : MapPointOptions) :
  acc_within a b -> acc_contains a o -> acc_contains b o.
Proof.
  intros (A1 & A2 & A3 & A4) (B1 & B2 & B3 & B4).
  unfold acc_contains. repeat split; eauto using le_trans.
Qed.

(** The cached box of a point after the callback, when the point has
    geometry from which numbers are read. *)
Lemma getBox_point_cache_not_nan (E : External) (acc : BoxAcc)
  (point : MapPointOptions) :
  sound_geometry E point -> has_geometry point = true ->
  cache_not_nan (snd (getBox_point E acc point)).
Proof.
  unfold sound_geometry, has_geometry, getBox_point.
  destruct (path point) as [p0|]; [|discriminate].
  intros Hs Ht. rewrite Ht. specialize (Hs Ht).
  destruct (_foundBox point); cbn [snd].
  - exact Hs.
  - destruct (walk_bounds (segments_of (convert_path E p0)) Hs
                initial_point_box initial_point_box_not_nan)
      as ((H1 & H2 & H3 & H4) & _ & _).
    unfold cache_not_nan, analyze_box, walk_path. cbn. auto.
Qed.

(** The running extremes after the callback, in terms of the point that
    it leaves. *)
Lemma getBox_point_extremes (E : External) (acc : BoxAcc)
  (point : MapPointOptions) :
  has_geometry point = true ->
  let acc' := fst (getBox_point E acc point) in
  let point' := snd (getBox_point E acc point) in
  acc_maxX acc' = Math_max (acc_maxX acc) (to_number (_maxX point'))
  /\ acc_minX acc' = Math_min (acc_minX acc) (to_number (_minX point'))
  /\ acc_maxY acc' = Math_max (acc_maxY acc) (to_number (_maxY point'))
  /\ acc_minY acc' = Math_min (acc_minY acc) (to_number (_minY point')).
Proof.
  unfold has_geometry, getBox_point.
  destruct (path point) as [p0|]; [|discriminate].
  intros Ht. rewrite Ht. cbn [fst snd acc_maxX acc_minX acc_maxY acc_minY].
  repeat split.
Qed.

Lemma getBox_point_sound (E : External) (acc : BoxAcc)
  (point : MapPointOptions) :
  acc_not_nan acc -> sound_geometry E point ->
  let acc' := fst (getBox_point E acc point) in
  let point' := snd (getBox_point E acc point) in
  acc_not_nan acc' /\ acc_within acc acc'
  /\ (has_geometry point = true -> acc_contains acc' point').
Proof.
  intros Hacc Hs acc' point'.
  destruct (has_geometry point) eqn:Hg.
  - pose proof (getBox_point_cache_not_nan E acc point Hs Hg)
      as (C1 & C2 & C3 & C4).
    destruct (getBox_point_extremes E acc point Hg) as (E1 & E2 & E3 & E4).
    destruct Hacc as (A1 & A2 & A3 & A4).
    fold acc' in E1, E2, E3, E4. fold point' in E1, E2, E3, E4, C1, C2, C3, C4.
    unfold acc_not_nan, acc_within, acc_contains.
    rewrite E1, E2, E3, E4.
    repeat split;
      auto using Math_min_not_nan, Math_max_not_nan, Math_min_le_l,
        Math_min_le_r, Math_max_ge_l, Math_max_ge_r.
  - unfold acc', point'.
    rewrite (getBox_point_no_geometry E acc point Hg). cbn [fst snd].
    split; [exact Hacc|]. split; [now apply acc_within_refl|discriminate].
Qed.

Lemma getBox_loop_sound (E : External) (paths : list MapPointOptions) :
  Forall (sound_geometry E) paths ->
  forall acc,
    acc_not_nan acc ->
    acc_not_nan (fst (getBox_loop E acc paths))
    /\ acc_within acc (fst (getBox_loop E acc paths))
    /\ Forall (fun point' =>
                 has_geometry point' = true ->
                 hasBox (fst (getBox_loop E acc paths)) = true
                 /\ acc_contains (fst (getBox_loop E acc paths)) point')
         (snd (getBox_loop E acc paths))
    /\ (hasBox acc = true -> hasBox (fst (getBox_loop E acc paths)) = true).
Proof.
  induction 1 as [|point rest Hpoint Hrest IH]; intros acc Hacc.
  - cbn. split; [exact Hacc|]. split; [now apply acc_within_refl|].
    split; [constructor|trivial].
  - cbn [getBox_loop].
    destruct (getBox_point_sound E acc point Hacc Hpoint)
      as (Hn1 & Hw1 & Hc1).
    pose proof (getBox_point_geometry E acc point) as Hgeo.
    pose proof (getBox_point_no_geometry E acc point) as Hno.
    destruct (getBox_point E acc point) as [acc1 point'].
    cbn [fst snd] in *.
    destruct (IH acc1 Hn1) as (Hn2 & Hw2 & Hc2 & Hb2).
    destruct (getBox_loop E acc1 rest) as [acc2 rest'].
    cbn [fst snd] in *.
    split; [exact Hn2|]. split; [eapply acc_within_trans; eassumption|].
    split.
    + constructor; [|exact Hc2].
      intros Hg'.
      assert (Hg : has_geometry point = true).
      { destruct (has_geometry point) eqn:Hg; [reflexivity|].
        specialize (Hno eq_refl). inversion Hno; subst point'.
        now rewrite Hg in Hg'. }
      destruct (Hgeo Hg) as (_ & Hb1 & _).
      split; [now apply Hb2|].
      eapply acc_contains_within; [exact Hw2|now apply Hc1].
    + intros Hb.
      apply Hb2.
      destruct (has_geometry point) eqn:Hg.
      * now destruct (Hgeo eq_refl) as (_ & Hb1 & _).
      * specialize (Hno eq_refl). now inversion Hno; subst.
Qed.

Lemma initial_acc_not_nan : acc_not_nan initial_acc.
Proof. unfold acc_not_nan, initial_acc, MAX_VALUE. cbn. auto. Qed.

Lemma pick_bound_not_nan (o : option num) (d : num) :
  (forall m, o = Some m -> is_nan m = false) -> is_nan d = false ->
  is_nan (pick [o] d) = false.
Proof. destruct o as [m|]; cbn; auto. Qed.

Lemma MAX_VALUE_not_nan : is_nan MAX_VALUE = false.
Proof. reflexivity. Qed.

Lemma neg_MAX_VALUE_not_nan : is_nan (- MAX_VALUE)%num = false.
Proof. reflexivity. Qed.

(** X3.  When the points of the array hold numbers (end points that are
    not NaN, or a cached box without NaN) and the bounds of the series
    set before are not NaN, the box of the series after [getBox]
    contains the cached box of every point with geometry of the
    array. *)
Theorem getBox_box_contains_points :
  forall (E : External) (s : MapSeries) (paths : list MapPointOptions),
    Forall (sound_geometry E) paths ->
    box_set_not_nan (box s) ->
    Forall (fun point' =>
              has_geometry point' = true ->
              series_box_contains (fst (getBox E s paths)) point')
      (snd (getBox E s paths)).
Proof.
  intros E s paths Hsound (B1 & B2 & B3 & B4). unfold getBox.
  destruct (getBox_loop_sound E paths Hsound initial_acc initial_acc_not_nan)
    as ((N1 & N2 & N3 & N4) & _ & Hall & _).
  destruct (getBox_loop E initial_acc paths) as [acc paths'].
  cbn [fst snd] in *.
  eapply Forall_impl; [|exact Hall].
  intros point' Hpoint Hg. destruct (Hpoint Hg) as (Hb & C1 & C2 & C3 & C4).
  unfold getBox_finish. rewrite Hb.
  unfold series_box_contains.
  cbn [box set_geometry minX maxX minY maxY to_number].
  pose proof MAX_VALUE_not_nan. pose proof neg_MAX_VALUE_not_nan.
  repeat split.
  - eapply le_trans; [|exact C1].
    apply Math_min_le_l; [assumption|now apply pick_bound_not_nan].
  - eapply le_trans; [exact C2|].
    apply Math_max_ge_l; [assumption|now apply pick_bound_not_nan].
  - eapply le_trans; [|exact C3].
    apply Math_min_le_l; [assumption|now apply pick_bound_not_nan].
  - eapply le_trans; [exact C4|].
    apply Math_max_ge_l; [assumption|now apply pick_bound_not_nan].
Qed.

Lemma getBox_box_contains_points_witness :
  Forall (fun point' =>
            has_geometry point' = true ->
            series_box_contains
              (fst (getBox example_external plain_series
                      [square_shape; analyzed_square; value_record 1]))
              point')
    (snd (getBox example_external plain_series
            [square_shape; analyzed_square; value_record 1])).
Proof.
  apply getBox_box_contains_points.
  - apply Forall_cons; [|apply Forall_cons; [|apply Forall_cons]].
    + intros _ seg x y [<-|[<-|[<-|[<-|[]]]]] H; inversion H;
        split; reflexivity.
    + intros _. repeat split.
    + exact I.
    + apply Forall_nil.
  - repeat split; intros m H; discriminate H.
Defined.

Lemma getBox_finish_within (s : MapSeries) (acc : BoxAcc) :
  acc_not_nan acc ->
  box_set_not_nan (box s) ->
  series_box_within (box s) (box (getBox_finish s acc)).
Proof.
  intros (N1 & N2 & N3 & N4) (B1 & B2 & B3 & B4).
  unfold getBox_finish, series_box_within.
  destruct (hasBox acc).
  - cbn [box set_geometry minX maxX minY maxY to_number].
    repeat split; intros m Hm; rewrite Hm; cbn [pick].
    + apply Math_min_le_r; auto.
    + apply Math_max_ge_r; auto.
    + apply Math_min_le_r; auto.
    + apply Math_max_ge_r; auto.
  - repeat split; intros m Hm; rewrite Hm; cbn [to_number];
      apply le_refl; auto.
Qed.

(** X4.  Under the same conditions the box of the series only grows:
    every bound that was set before [getBox] lies within the box
    afterwards. *)
Theorem getBox_box_grows :
  forall (E : External) (s : MapSeries) (paths : list MapPointOptions),
    Forall (sound_geometry E) paths ->
    box_set_not_nan (box s) ->
    series_box_within (box s) (box (fst (getBox E s paths))).
Proof.
  intros E s paths Hsound Hbox. unfold getBox.
  destruct (getBox_loop_sound E paths Hsound initial_acc initial_acc_not_nan)
    as (Hacc & _ & _ & _).
  destruct (getBox_loop E initial_acc paths) as [acc paths'].
  cbn [fst snd] in *.
  now apply getBox_finish_within.
Qed.

Lemma getBox_box_grows_witness :
  series_box_within
    (box (fst (getBox example_external plain_series [curved_shape])))
    (box (fst (getBox example_external
                 (fst (getBox example_external plain_series [curved_shape]))
                 [square_shape]))).
Proof.
  apply getBox_box_grows.
  - apply Forall_cons; [|apply Forall_nil].
    intros _ seg x y [<-|[<-|[<-|[<-|[]]]]] H; inversion H;
      split; reflexivity.
  - repeat split; intros m H; vm_compute in H; inversion H; reflexivity.
Defined.

(** ** translatePath on any path *)

Lemma translate_segment_shape (xa ya : Axis.t) (seg : segment) :
  Forall (fun out => segment_kind out = true) (translate_segment xa ya seg)
  /\ map tag (translate_segment xa ya seg)
     = filter known_tag [tag seg].
Proof.
  unfold translate_segment, known_tag. cbn [filter existsb].
  destruct (String.eqb (tag seg) "M") eqn:HM.
  { apply String.eqb_eq in HM. rewrite HM. split; [|reflexivity].
    constructor; [reflexivity|constructor]. }
  destruct (String.eqb (tag seg) "L") eqn:HL.
  { apply String.eqb_eq in HL. rewrite HL. split; [|reflexivity].
    constructor; [reflexivity|constructor]. }
  destruct (String.eqb (tag seg) "C") eqn:HC.
  { apply String.eqb_eq in HC. rewrite HC. split; [|reflexivity].
    constructor; [reflexivity|constructor]. }
  destruct (String.eqb (tag seg) "Q") eqn:HQ.
  { apply String.eqb_eq in HQ. rewrite HQ. split; [|reflexivity].
    constructor; [reflexivity|constructor]. }
  destruct (String.eqb (tag seg) "Z") eqn:HZ.
  { apply String.eqb_eq in HZ. rewrite HZ. split; [|reflexivity].
    constructor; [reflexivity|constructor]. }
  split; [constructor|reflexivity].
Qed.

(** X5.  Whatever the path handed to [translatePath] (segments of any
    tag, with any number of coordinates, or no path at all), the path
    that it returns is made of the five kinds of segment with their
    number of coordinates: the segments tagged M, L, C, Q and Z of the
    input, in their order; segments of any other tag are dropped. *)
Theorem translatePath_well_formed :
  forall (s : MapSeries) (path : option SVGPath),
    let out := translatePath s path in
    Forall (fun seg => segment_kind seg = true) out
    /\ map tag out
       = filter known_tag
           (map tag (match path with Some p => p | None => [] end)).
Proof.
  intros s [p|]; [|split; [constructor|reflexivity]].
  cbv zeta. rewrite translatePath_flat_map.
  induction p as [|seg p [IH1 IH2]]; [split; [constructor|reflexivity]|].
  destruct (translate_segment_shape (xAxis s) (yAxis s) seg) as [H1 H2].
  cbn [flat_map map]. split.
  - apply Forall_app. now split.
  - rewrite map_app, H2, IH2. cbn [filter].
    now destruct (known_tag (tag seg)).
Qed.

Lemma translate_segment_with (xa ya : Axis.t) (fx fy : num -> num)
  (seg : segment) :
  (forall c, translate_coord xa c = fx c) ->
  (forall c, translate_coord ya c = fy c) ->
  segment_kind seg = true ->
  translate_segment xa ya seg
  = [Seg (tag seg) (map_xy fx fy (coords seg))].
Proof.
  intros Hx Hy Hk. destruct seg as [t cs].
  unfold segment_kind in Hk. cbn [tag coords] in Hk.
  unfold translate_segment, seg_at. cbn [tag coords].
  destruct (String.eqb t "M") eqn:HM.
  { apply String.eqb_eq in HM. subst t. simpl in Hk.
    rewrite !orb_false_r in Hk. exact_length Hk. simpl.
    now rewrite !Hx, !Hy. }
  destruct (String.eqb t "L") eqn:HL.
  { apply String.eqb_eq in HL. subst t. simpl in Hk.
    rewrite !orb_false_r in Hk. exact_length Hk. simpl.
    now rewrite !Hx, !Hy. }
  destruct (String.eqb t "C") eqn:HC.
  { apply String.eqb_eq in HC. subst t. simpl in Hk.
    rewrite !orb_false_r in Hk. exact_length Hk. simpl.
    now rewrite !Hx, !Hy. }
  destruct (String.eqb t "Q") eqn:HQ.
  { apply String.eqb_eq in HQ. subst t. simpl in Hk.
    rewrite !orb_false_r in Hk. exact_length Hk. simpl.
    now rewrite !Hx, !Hy. }
  destruct (String.eqb t "Z") eqn:HZ.
  { apply String.eqb_eq in HZ. subst t. simpl in Hk.
    exact_length Hk. reflexivity. }
  simpl in Hk. discriminate.
Qed.

Lemma translate_coord_without_minimum (a : Axis.t) (c : num) :
  Axis.min a = None \/ Axis.min a = Some NaN ->
  translate_coord a c
  = to_pixel (Fin 0) (Axis.transA a) (Axis.minPixelPadding a) c.
Proof. intros [H|H]; unfold translate_coord; now rewrite H. Qed.

(** X6.  An axis minimum that is undefined or NaN counts as 0: on a path
    made of the five kinds of segment, every coordinate is mapped by
    [coord * transA + minPixelPadding] on its axis. *)
Theorem translatePath_without_minimum :
  forall (s : MapSeries) (path : SVGPath),
    Axis.min (xAxis s) = None \/ Axis.min (xAxis s) = Some NaN ->
    Axis.min (yAxis s) = None \/ Axis.min (yAxis s) = Some NaN ->
    forallb segment_kind path = true ->
    translatePath s (Some path)
    = map (fun seg =>
             Seg (tag seg)
               (map_xy
                  (to_pixel (Fin 0) (Axis.transA (xAxis s))
                     (Axis.minPixelPadding (xAxis s)))
                  (to_pixel (Fin 0) (Axis.transA (yAxis s))
                     (Axis.minPixelPadding (yAxis s)))
                  (coords seg)))
        path.
Proof.
  intros s path Hx Hy Hk. rewrite translatePath_flat_map.
  induction path as [|seg path IH]; [reflexivity|].
  cbn [forallb] in Hk. apply andb_true_iff in Hk. destruct Hk as [Hseg Hk].
  cbn [flat_map map].
  rewrite (translate_segment_with (xAxis s) (yAxis s) _ _ seg
             (fun c => translate_coord_without_minimum (xAxis s) c Hx)
             (fun c => translate_coord_without_minimum (yAxis s) c Hy)
             Hseg).
  cbn [app]. f_equal. now apply IH.
Qed.

Lemma translatePath_without_minimum_witness :
  translatePath
    (example_series
       (Axis.mk None None (Fin 3) (Fin 1) (Fin 100) (Fin 0) (Fin 100) false
          None None)
       (Axis.mk (Some NaN) None (Fin 10) (Fin 5) (Fin 100) (Fin 0) (Fin 100)
          false None None))
    (Some [MoveTo 4 1; QuadTo 1 1 2 2; ClosePath])
  = [MoveTo 13 15; QuadTo 4 15 7 25; ClosePath].
Proof.
  etransitivity.
  - apply translatePath_without_minimum.
    + left. reflexivity.
    + right. reflexivity.
    + reflexivity.
  - reflexivity.
Defined.

(** ** translate: the shapes after a full translate *)

Lemma translatePath_kinds (s : MapSeries) (path : option SVGPath) :
  Forall (fun seg => segment_kind seg = true) (translatePath s path).
Proof.
  destruct path as [p|]; [|constructor].
  rewrite translatePath_flat_map.
  induction p as [|seg p IH]; [constructor|].
  cbn [flat_map]. apply Forall_app. split; [|exact IH].
  apply translate_segment_shape.
Qed.

(** X7.  After a full translate every point of the series is ready to be
    drawn: its shape type is ['path'] and its shape is the translated
    path of the point, made of the five kinds of segment only, whatever
    the path option of the point was. *)
Theorem translate_full_shapes :
  forall (E : External) (s : MapSeries),
    doFullTranslate s = true ->
    Forall
      (fun point =>
         shapeType point = Some "path"%string
         /\ exists args,
              shapeArgs point = Some args
              /\ d args = translatePath (generatePoints E s) (pt_path point)
              /\ Forall (fun seg => segment_kind seg = true) (d args))
      (data (translate E s)).
Proof.
  intros E s Hfull. unfold translate. rewrite Hfull.
  cbn [data set_data]. apply Forall_forall. intros point Hin.
  apply in_map_iff in Hin. destruct Hin as (point0 & <- & _).
  unfold translate_point. cbn [shapeType shapeArgs pt_path].
  split; [reflexivity|]. eexists. split; [reflexivity|].
  cbn [d]. split; [reflexivity|apply translatePath_kinds].
Qed.

Lemma translate_full_shapes_witness :
  Forall
    (fun point =>
       shapeType point = Some "path"%string
       /\ exists args,
            shapeArgs point = Some args
            /\ d args
               = translatePath
                   (generatePoints (generating_external [square_point])
                      plain_series)
                   (pt_path point)
            /\ Forall (fun seg => segment_kind seg = true) (d args))
    (data (translate (generating_external [square_point]) plain_series)).
Proof.
  apply translate_full_shapes. reflexivity.
Defined.

(** ** drawPoints: the stroke width and repeated drawing *)

(** X8.  Outside styled mode, [drawPoints] sets the stroke width of the
    group from the scale that the same call puts on the transform of
    the group: whenever that scale on the x axis is neither zero nor
    NaN, the stroke width is the border width option (1 by default)
    divided by it, after a full translate (where the scale is reset to
    1) as in fast-transform mode (where it is the computed scale after
    the dampening). *)
Theorem drawPoints_stroke_width :
  forall (E : External) (s : MapSeries) (tg : TransformAttrs),
    chart_styledMode s = false ->
    transformGroup (drawPoints E s) = Some tg ->
    truthy (scaleX tg) = true ->
    stroke_width (drawPoints E s)
    = Some (pick [options_borderWidth s] (Fin 1) / scaleX tg)%num.
Proof.
  intros E s tg Hstyled Htg Htruthy.
  unfold drawPoints in *.
  destruct (doFullTranslate s) eqn:Hfull.
  - cbn [transformGroup stroke_width set_drawn] in *.
    rewrite Hstyled. inversion Htg; subst tg. reflexivity.
  - destruct (baseTrans s) as [bt|] eqn:Hbt.
    + cbn [transformGroup stroke_width set_drawn] in *.
      rewrite Hstyled. inversion Htg as [Ht]. rewrite Ht.
      cbn [or_default]. unfold or_else. now rewrite Htruthy.
    + cbn [transformGroup stroke_width set_drawn] in *.
      rewrite Hstyled. inversion Htg; subst tg. reflexivity.
Qed.

Lemma drawPoints_stroke_width_witness :
  stroke_width (drawPoints example_external zoomed_series)
  = Some (Fin 3 / Fin 2)%num.
Proof.
  exact (drawPoints_stroke_width example_external zoomed_series
           (mkTransform (Fin 0) (Fin 0) (Fin 2) (Fin 2))
           eq_refl eq_refl eq_refl).
Defined.



(** X10.  [drawPoints] always leaves a base behind: afterwards a full
    translate is due only for changed data, a resize or VML.  When it
    did a full translate itself, the base is the one read off the axes
    and the transform of the group is reset to no translation and a
    scale of 1. *)
Theorem drawPoints_records_base :
  forall (E : External) (s : MapSeries),
    doFullTranslate (drawPoints E s)
    = isDirtyData s || chart_isResizing s || renderer_isVML s
    /\ (doFullTranslate s = true ->
        baseTrans (drawPoints E s) = Some (new_baseTrans s)
        /\ transformGroup (drawPoints E s)
           = Some (mkTransform (Fin 0) (Fin 0) (Fin 1) (Fin 1))).
Proof.
  intros E s. unfold drawPoints.
  destruct (doFullTranslate s) eqn:Hfull.
  - split; [|intros _; split; reflexivity].
    unfold doFullTranslate.
    cbn [set_drawn isDirtyData chart_isResizing renderer_isVML baseTrans
         is_some negb].
    now rewrite orb_false_r.
  - split; [|discriminate].
    destruct (baseTrans s) as [bt|] eqn:Hbt.
    + unfold doFullTranslate.
      cbn [set_drawn isDirtyData chart_isResizing renderer_isVML baseTrans
           is_some negb].
      now rewrite orb_false_r.
    + unfold doFullTranslate.
      cbn [set_drawn isDirtyData chart_isResizing renderer_isVML baseTrans
           is_some negb].
      now rewrite orb_false_r.
Qed.

Lemma drawPoints_records_base_witness :
  doFullTranslate (drawPoints example_external plain_series) = false
  /\ transformGroup (drawPoints example_external plain_series)
     = Some (mkTransform (Fin 0) (Fin 0) (Fin 1) (Fin 1)).
Proof.
  destruct (drawPoints_records_base example_external plain_series)
    as [Hfull Hbase].
  split; [exact Hfull|]. exact (proj2 (Hbase eq_refl)).
Defined.

(** ** setData: what becomes of the value records and of the shapes *)



Lemma null_points_null_valued (E : External) (jb : JoinBy) (text : string)
  (shapes : list MapPointOptions) :
  Forall null_valued (null_points E jb text shapes).
Proof.
  unfold null_points. apply Forall_forall. intros it Hin.
  apply in_map_iff in Hin. destruct Hin as (shape & <- & _).
  exists (set_own shape "value" VNull). split; [reflexivity|].
  cbn [own set_own]. apply get_set_same.
Qed.

Lemma filter_none {A} (l : list A) : filter (fun _ => false) l = [].
Proof. induction l as [|a l IH]; [reflexivity|exact IH]. Qed.

(** The merged list in terms of the list that the first loop and
    [getBox] leave. *)
Lemma setData_merged (E : External) (opts : JoinOptions) (jb : JoinBy)
  (s : MapSeries) (values normalized : list dataItem)
  (boxed : BoxAcc * list dataItem) (up : option bool) :
  normalize_from E opts jb 0 values = inr normalized ->
  getBox_items_loop E initial_acc normalized = inr boxed ->
  exists j added,
    setData E opts jb s (Some values) up = inr j
    /\ merged j = Some (snd boxed ++ added)
    /\ Forall null_valued added
    /\ (allAreas opts = false \/ resolved_mapData opts = None ->
        added = [])
    /\ exists keep : MapPointOptions -> bool,
         added = map null_point (filter keep (mapData_of j)).
Proof.
  intros Hn Hb. unfold setData, getBox_items. rewrite Hn. cbn [bind ret].
  rewrite Hb. cbn [bind ret fst snd].
  destruct (resolved_mapData opts) as [shapes0|].
  - destruct (index_shapes E jb 0 shapes0 []) as [shapes1 mapMap].
    destruct (allAreas opts).
    + destruct (getBox E (getBox_finish s (fst boxed)) shapes1)
        as [s2 shapes2].
      eexists. eexists. split; [reflexivity|]. cbn [merged].
      split; [reflexivity|]. split; [apply null_points_null_valued|].
      split; [intros [H|H]; discriminate H|].
      eexists. unfold null_points, mapData_of. cbn [joined_mapData].
      reflexivity.
    + destruct (getBox_refs E (getBox_finish s (fst boxed)) _ shapes1)
        as [s2 shapes2].
      eexists. exists []. split; [reflexivity|]. cbn [merged].
      rewrite app_nil_r. split; [reflexivity|]. split; [constructor|].
      split; [reflexivity|].
      exists (fun _ => false). now rewrite filter_none.
  - eexists. exists []. split; [reflexivity|]. cbn [merged].
    rewrite app_nil_r. split; [reflexivity|]. split; [constructor|].
    split; [reflexivity|].
    exists (fun _ => false). now rewrite filter_none.
Qed.






(** *** The join by position *)

Lemma normalize_from_numbers (E : External) (opts : JoinOptions)
  (jb : JoinBy) (ns : list Q) :
  joinBy0 jb = Some "_i"%string ->
  forall i,
    normalize_from E opts jb i (map (fun n => ItemNumber (Fin n)) ns)
    = inr (positional_records i ns).
Proof.
  intros Hj. induction ns as [|n ns IH]; intros i; [reflexivity|].
  cbn [map normalize_from positional_records].
  unfold normalize_item. rewrite Hj. cbn [isNumber String.eqb Ascii.eqb
    Bool.eqb]. cbn [bind ret]. rewrite IH. reflexivity.
Qed.

Lemma getBox_items_loop_records (E : External) (ns : list Q) :
  forall i acc,
    getBox_items_loop E acc (positional_records i ns)
    = inr (acc, positional_records i ns).
Proof.
  induction ns as [|n ns IH]; intros i acc; [reflexivity|].
  cbn [positional_records getBox_items_loop getBox_item].
  unfold getBox_point. cbn [path new_object set_own].
  cbn [bind ret fst snd]. rewrite IH. reflexivity.
Qed.

(** X12.  With [joinBy: null], [setOptions] makes the position the key,
    and [setData] turns a list of numbers into records that carry their
    value and their position, counted from 0, in the order of the list;
    only shapes without value may follow them. *)
Theorem join_by_position_numbers :
  forall (E : External) (opts : JoinOptions) (s : MapSeries) (ns : list Q)
         (up : option bool),
    let series := setOptions s JoinByNull in
    exists j added,
      setData E opts (joinBy series) series
        (Some (map (fun n => ItemNumber (Fin n)) ns)) up = inr j
      /\ merged j = Some (positional_records 0 ns ++ added)
      /\ Forall null_valued added.
Proof.
  intros E opts s ns up series.
  destruct (setData_merged E opts (joinBy series) series
              (map (fun n => ItemNumber (Fin n)) ns)
              (positional_records 0 ns)
              (initial_acc, positional_records 0 ns) up)
    as (j & added & Hj & Hm & Hnull & _).
  - now apply normalize_from_numbers.
  - apply getBox_items_loop_records.
  - exists j, added. auto.
Qed.

(** *** Array points *)

Lemma get_set_other (o : object) (name x : string) (v : jsval) :
  name <> x -> get (set o name v) x = get o x.
Proof.
  intros Hne. induction o as [|[k w] o IH]; cbn [set get].
  - destruct (String.eqb name x) eqn:H; [|reflexivity].
    apply String.eqb_eq in H. contradiction.
  - destruct (String.eqb k name) eqn:Hk; cbn [get].
    + apply String.eqb_eq in Hk. subst k.
      destruct (String.eqb name x) eqn:H; [|reflexivity].
      apply String.eqb_eq in H. contradiction.
    + destruct (String.eqb k x); [reflexivity|exact IH].
Qed.

Lemma copy_values_step (E : External) (name : string)
  (names : list string) (v : jsval) (vals : list jsval) (o : object) :
  direct_name name -> is_undefined v = false ->
  copy_values E (name :: names) (v :: vals) o
  = copy_values E names vals (set o name v).
Proof.
  intros [Hne Hdot] Hv. cbn [copy_values hd tl]. rewrite Hv, Hdot.
  destruct (String.eqb name "") eqn:H.
  - apply String.eqb_eq in H. contradiction.
  - reflexivity.
Qed.

Lemma copy_values_other (E : External) (names : list string) :
  forall (vals : list jsval) (o : object) (x : string),
    Forall direct_name names ->
    List.length vals = List.length names ->
    Forall (fun v => is_undefined v = false) vals ->
    ~ In x names ->
    get (copy_values E names vals o) x = get o x.
Proof.
  induction names as [|name names IH]; intros vals o x Hd Hl Hv Hx;
    [reflexivity|].
  destruct vals as [|v vals]; [discriminate Hl|].
  inversion Hd as [|? ? Hname Hnames]; subst.
  inversion Hv as [|? ? Hv0 Hvals]; subst.
  rewrite copy_values_step by assumption.
  rewrite IH; trivial.
  - apply get_set_other. intros ->. apply Hx. now left.
  - cbn in Hl. now inversion Hl.
  - intros H. apply Hx. now right.
Qed.

Lemma copy_values_lookup (E : External) (names : list string) :
  forall (vals : list jsval) (o : object) (i : nat) (name : string),
    Forall direct_name names -> NoDup names ->
    List.length vals = List.length names ->
    Forall (fun v => is_undefined v = false) vals ->
    nth_error names i = Some name ->
    nth_error vals i = Some (get (copy_values E names vals o) name).
Proof.
  induction names as [|name0 names IH]; intros vals o i name Hd Hnd Hl Hv Hi.
  - now destruct i.
  - destruct vals as [|v vals]; [discriminate Hl|].
    inversion Hd as [|? ? Hname Hnames]; subst.
    inversion Hv as [|? ? Hv0 Hvals]; subst.
    inversion Hnd as [|? ? Hnotin Hnd']; subst.
    cbn in Hl. inversion Hl as [Hl'].
    rewrite copy_values_step by assumption.
    destruct i as [|i]; cbn [nth_error] in *.
    + inversion Hi; subst name.
      rewrite copy_values_other by assumption.
      now rewrite get_set_same.
    + now apply IH.
Qed.

(** X13.  An array point with one leading string more than there are
    names in [pointArrayMap] (and no [keys] option) is read as the key
    followed by the values: the object made of it holds the string under
    ['hc-key'] and every value under its name, for names that are
    distinct, not empty and without a dot. *)
Theorem array_point_with_key :
  forall (E : External) (opts : JoinOptions) (key : string)
         (vals : list jsval),
    keys opts = None ->
    Forall direct_name (pointArrayMap opts) ->
    NoDup (pointArrayMap opts) ->
    ~ In "hc-key"%string (pointArrayMap opts) ->
    List.length vals = List.length (pointArrayMap opts) ->
    Forall (fun v => is_undefined v = false) vals ->
    let o := array_to_object E opts (VStr key :: vals) in
    get o "hc-key" = VStr key
    /\ forall i name,
         nth_error (pointArrayMap opts) i = Some name ->
         nth_error vals i = Some (get o name).
Proof.
  intros E opts key vals Hkeys Hd Hnd Hkey Hl Hv o.
  assert (Ho : o = copy_values E (pointArrayMap opts) vals
                     [("hc-key"%string, VStr key)]).
  { unfold o, array_to_object, effective_pointArrayMap. rewrite Hkeys.
    cbn [List.length]. rewrite Hl.
    now rewrite (proj2 (Nat.ltb_lt _ _) (Nat.lt_succ_diag_r _)). }
  rewrite Ho. split.
  - now rewrite copy_values_other.
  - intros i name Hi. now apply copy_values_lookup.
Qed.

Lemma array_point_with_key_witness :
  let o := array_to_object example_external (join_options true keyed_shapes)
             [VStr "no"; VNum (Fin 5)] in
  get o "hc-key" = VStr "no"
  /\ nth_error [VNum (Fin 5)] 0 = Some (get o "value").
Proof.
  destruct (array_point_with_key example_external
              (join_options true keyed_shapes) "no" [VNum (Fin 5)]
              eq_refl) as [Hk Hv].
  - repeat constructor. discriminate.
  - repeat constructor. intros [].
  - intros [H|[]]. discriminate H.
  - reflexivity.
  - repeat constructor.
  - split; [exact Hk|]. exact (Hv 0%nat "value"%string eq_refl).
Defined.

(** *** The index of the shapes *)

Lemma index_shapes_last (E : External) (jb : JoinBy)
  (shapes : list MapPointOptions) :
  forall (i0 : nat) (m : list (string * nat)),
    let r := index_shapes E jb i0 shapes m in
    let ts := map (shape_text E jb) (fst r) in
    (forall p t,
        nth_error ts p = Some t ->
        exists j,
          lookup (snd r) t = Some (i0 + j)%nat
          /\ (p <= j)%nat
          /\ nth_error ts j = Some t
          /\ forall k, (j < k)%nat -> nth_error ts k <> Some t)
    /\ (forall t, ~ In t ts -> lookup (snd r) t = lookup m t).
Proof.
  induction shapes as [|sh shapes IH]; intros i0 m.
  - cbn. split; [|reflexivity]. intros [|p] t H; discriminate H.
  - cbn [index_shapes].
    set (sh' := index_shape E jb i0 sh).
    set (t0 := ToString E (shape_key E jb sh')).
    specialize (IH (S i0) (store m t0 i0)).
    destruct (index_shapes E jb (S i0) shapes (store m t0 i0))
      as [rest' m''].
    cbn [fst snd map] in *. fold (shape_text E jb sh').
    change (shape_text E jb sh') with t0.
    destruct IH as [IHa IHb].
    assert (Hfirst :
              exists j,
                lookup m'' t0 = Some (i0 + j)%nat
                /\ nth_error (t0 :: map (shape_text E jb) rest') j = Some t0
                /\ forall k, (j < k)%nat ->
                     nth_error (t0 :: map (shape_text E jb) rest') k
                     <> Some t0).
    { destruct (in_dec string_dec t0 (map (shape_text E jb) rest'))
        as [Hin|Hnotin].
      - apply In_nth_error in Hin. destruct Hin as [p Hp].
        destruct (IHa p t0 Hp) as (j & Hl & _ & Hj & Hlast).
        exists (S j). split; [rewrite Hl; f_equal; lia|].
        split; [exact Hj|].
        intros [|k] Hk; [lia|]. cbn [nth_error]. apply Hlast. lia.
      - exists 0%nat. split.
        + rewrite (IHb t0 Hnotin), lookup_store, String.eqb_refl.
          f_equal. lia.
        + split; [reflexivity|].
          intros [|k] Hk; [lia|]. cbn [nth_error]. intros H.
          apply Hnotin. eapply nth_error_In. exact H. }
    split.
    + intros [|p] t Hp; cbn [nth_error] in Hp.
      * inversion Hp; subst t.
        destruct Hfirst as (j & Hl & Hj & Hlast).
        exists j. split; [exact Hl|]. split; [lia|]. now split.
      * destruct (IHa p t Hp) as (j & Hl & Hpj & Hj & Hlast).
        exists (S j). split; [rewrite Hl; f_equal; lia|].
        split; [lia|]. split; [exact Hj|].
        intros [|k] Hk; [lia|]. cbn [nth_error]. apply Hlast. lia.
    + intros t Ht.
      rewrite IHb.
      * rewrite lookup_store.
        destruct (String.eqb t0 t) eqn:Heq; [|reflexivity].
        apply String.eqb_eq in Heq. elim Ht. now left.
      * intros H. apply Ht. now right.
Qed.

(** X14.  In the index of shapes that [setData] builds, a later shape
    takes the place of an earlier one with the same key: the entry under
    the key of a shape is the last shape of the map data whose key has
    the same text (for shapes without a key, the text of
    [undefined]). *)
Theorem mapMap_last_shape_wins :
  forall (E : External) (jb : JoinBy) (shapes : list MapPointOptions)
         (p : nat) (shape : MapPointOptions),
    let indexed := fst (index_shapes E jb 0 shapes []) in
    let mapMap := snd (index_shapes E jb 0 shapes []) in
    nth_error indexed p = Some shape ->
    exists j last,
      lookup mapMap (shape_text E jb shape) = Some j
      /\ (p <= j)%nat
      /\ nth_error indexed j = Some last
      /\ shape_text E jb last = shape_text E jb shape
      /\ forall k later,
           (j < k)%nat -> nth_error indexed k = Some later ->
           shape_text E jb later <> shape_text E jb shape.
Proof.
  intros E jb shapes p shape indexed mapMap Hp.
  destruct (index_shapes_last E jb shapes 0 []) as [Ha _].
  fold indexed in Ha. fold mapMap in Ha.
  destruct (Ha p (shape_text E jb shape)) as (j & Hl & Hpj & Hj & Hlast).
  { now rewrite nth_error_map, Hp. }
  rewrite nth_error_map in Hj.
  destruct (nth_error indexed j) as [last|] eqn:Hlast_shape;
    [|discriminate Hj].
  cbn in Hj. injection Hj as Htext.
  exists j, last. split; [exact Hl|]. split; [exact Hpj|].
  split; [exact Hlast_shape|]. split; [exact Htext|].
  intros k later Hk Hlater Heq.
  apply (Hlast k Hk). now rewrite nth_error_map, Hlater, <- Heq.
Qed.

Lemma mapMap_last_shape_wins_witness :
  lookup
    (snd (index_shapes example_external by_key 0
            [keyed_shape "no" 0; keyed_shape "se" 1; keyed_shape "no" 2]
            []))
    "no"
  = Some 2%nat.
Proof.
  destruct (mapMap_last_shape_wins example_external by_key
              [keyed_shape "no" 0; keyed_shape "se" 1; keyed_shape "no" 2]
              0%nat _ eq_refl)
    as (j & last & Hl & _ & Hj & _ & Hlast).
  destruct j as [|[|[|j]]].
  - elim (Hlast 2%nat _ ltac:(lia) eq_refl). reflexivity.
  - discriminate.
  - exact Hl.
  - destruct j; discriminate Hj.
Defined.

(** *** getBox on the shapes that hold data *)








(** *** Entries that the join by position cannot take *)

Lemma normalize_item_error (E : External) (opts : JoinOptions)
  (jb : JoinBy) (i : nat) (val : dataItem) (e : TypeError) :
  normalize_item E opts jb i val = inl e -> e = CannotSetProperty "_i".
Proof.
  unfold normalize_item.
  destruct (joinBy0 jb) as [k|]; [|discriminate].
  destruct (String.eqb k "_i"); [|discriminate].
  destruct val as [n|t| |l|o]; try destruct (isNumber n);
    cbn; intros H; inversion H; reflexivity.
Qed.

Lemma normalize_from_rejects (E : External) (opts : JoinOptions)
  (jb : JoinBy) (data : list dataItem) (it : dataItem) :
  In it data ->
  (forall i, normalize_item E opts jb i it = inl (CannotSetProperty "_i")) ->
  forall i,
    normalize_from E opts jb i data = inl (CannotSetProperty "_i").
Proof.
  intros Hin Hit. induction data as [|val rest IH]; intros i; [easy|].
  cbn [normalize_from].
  destruct (normalize_item E opts jb i val) as [e|v] eqn:Hval.
  - cbn. now rewrite (normalize_item_error E opts jb i val e Hval).
  - destruct Hin as [->|Hin].
    + rewrite Hit in Hval. discriminate Hval.
    + cbn. now rewrite (IH Hin (S i)).
Qed.

(** X16.  Joined by position, [setData] takes only finite numbers, arrays
    and objects: an entry that is [null], a string, NaN or an infinity
    cannot be given its position, and [setData] throws on the
    assignment, wherever the entry stands in the data. *)
Theorem join_by_position_rejects_primitives :
  forall (E : External) (opts : JoinOptions) (jb : JoinBy) (s : MapSeries)
         (data : list dataItem) (up : option bool) (it : dataItem),
    joinBy0 jb = Some "_i"%string ->
    In it data ->
    it = ItemNull
    \/ (exists t, it = ItemString t)
    \/ (exists n, it = ItemNumber n /\ isNumber n = false) ->
    setData E opts jb s (Some data) up = inl (CannotSetProperty "_i").
Proof.
  intros E opts jb s data up it Hj Hin Hit. unfold setData.
  rewrite (normalize_from_rejects E opts jb data it Hin); [reflexivity|].
  intros i. unfold normalize_item. rewrite Hj.
  cbn [String.eqb Ascii.eqb Bool.eqb].
  destruct Hit as [->|[[t ->]|[n [-> Hn]]]]; try reflexivity.
  now rewrite Hn.
Qed.

Lemma join_by_position_rejects_primitives_witness :
  setData example_external (join_options false three_shapes)
    (joinBy (setOptions plain_series JoinByNull))
    (setOptions plain_series JoinByNull)
    (Some [ItemNumber (Fin 1); ItemNumber NaN; ItemNumber (Fin 3)]) None
  = inl (CannotSetProperty "_i").
Proof.
  apply (join_by_position_rejects_primitives example_external
           (join_options false three_shapes)
           (joinBy (setOptions plain_series JoinByNull))
           (setOptions plain_series JoinByNull)
           [ItemNumber (Fin 1); ItemNumber NaN; ItemNumber (Fin 3)] None
           (ItemNumber NaN)).
  - reflexivity.
  - right. now left.
  - right. right. exists NaN. now split.
Defined.

(** ** Exact arithmetic on numbers *)

Lemma Fin_Qred_eq (a b : Q) : (a == b)%Q -> Fin (Qred a) = Fin (Qred b).
Proof. intros H. f_equal. now apply Qred_complete. Qed.

Lemma num_le_Fin (a b : Q) : (a <= b)%Q -> num_le (Fin a) (Fin b).
Proof.
  intros H. unfold num_le, le, cmp.
  pose proof (proj1 (Qle_alt a b) H) as Hc.
  destruct (a ?= b)%Q; trivial. now elim Hc.
Qed.

Lemma strict_eq_Fin (a b : Q) : (a == b)%Q -> strict_eq (Fin a) (Fin b) = true.
Proof.
  intros H. unfold strict_eq, cmp. apply Qeq_alt in H. now rewrite H.
Qed.

Lemma div_Fin (a b : Q) :
  ~ (b == 0)%Q -> (Fin a / Fin b)%num = Fin (Qred (a / b)).
Proof.
  intros Hb. unfold div. destruct (b ?= 0)%Q eqn:Hc; trivial.
  apply Qeq_alt in Hc. contradiction.
Qed.

Lemma strict_eq_zero_false (q : Q) :
  strict_eq (Fin q) (Fin 0) = false -> ~ (q == 0)%Q.
Proof.
  unfold strict_eq, cmp. intros H Hq. apply Qeq_alt in Hq.
  now rewrite Hq in H.
Qed.

(** ** The compare value modifier: the baseline and the order *)

(** X17.  The baseline itself is shown as no change: with a baseline
    that is a number other than zero, the modifier maps the baseline to
    0 in value mode, and in percent mode to 0, or to 100 when
    [compareBase] is 100; the change is recorded on the point. *)
Theorem modifyValue_at_baseline :
  forall (s : StockSeries) (baseline : Q) (point : option StockPoint),
    compareValue s = Some (Fin baseline) ->
    ~ (baseline == 0)%Q ->
    call_modifyValue (initCompare s (Some "value"%string))
      (Some (Fin baseline)) point
    = Some (Fin 0, set_change point (Fin 0))
    /\ call_modifyValue (initCompare s (Some "percent"%string))
         (Some (Fin baseline)) point
       = Some (if base_is_100 (options_compareBase s)
               then (Fin 100, set_change point (Fin 100))
               else (Fin 0, set_change point (Fin 0))).
Proof.
  intros s baseline point Hb Hz.
  unfold call_modifyValue, modifyValue. cbn [initCompare modifyValue_compare
    is_compare_mode compareValue options_compareBase].
  cbn [String.eqb Ascii.eqb Bool.eqb orb andb]. rewrite Hb.
  cbn [String.eqb Ascii.eqb Bool.eqb orb andb].
  split.
  - assert (H : (Fin baseline - Fin baseline)%num = Fin 0).
    { unfold sub. rewrite (Fin_Qred_eq (baseline - baseline) 0);
        [reflexivity|ring]. }
    now rewrite H.
  - rewrite div_Fin by assumption.
    rewrite (Fin_Qred_eq (baseline / baseline) 1) by (field; exact Hz).
    unfold base_is_100.
    destruct (options_compareBase s) as [b|]; [|reflexivity].
    now destruct (strict_eq b (Fin 100)).
Qed.

Lemma modifyValue_at_baseline_witness :
  call_modifyValue (initCompare (example_stock None) (Some "percent"%string))
    (Some (Fin 50)) (Some (mkStockPoint None))
  = Some (Fin 0, Some (mkStockPoint (Some (Fin 0)))).
Proof.
  destruct (modifyValue_at_baseline (example_stock None) 50
              (Some (mkStockPoint None)) eq_refl) as [_ H].
  - discriminate.
  - exact H.
Defined.

Lemma Qinv_negative (c : Q) : (c < 0)%Q -> (/ c < 0)%Q.
Proof.
  intros Hc.
  assert (Hpos : (0 < / - c)%Q) by (apply Qinv_lt_0_compat; lra).
  assert (Hinv : (/ - c == - / c)%Q).
  { field. intros H. rewrite H in Hc. discriminate Hc. }
  rewrite Hinv in Hpos. lra.
Qed.

Lemma percent_increasing (a b c k : Q) :
  (0 < c)%Q -> (a <= b)%Q ->
  (Qred (Qred (100 * Qred (a / c)) - k)
   <= Qred (Qred (100 * Qred (b / c)) - k))%Q.
Proof.
  intros Hc Hab. rewrite !Qred_correct.
  assert (H : (a / c <= b / c)%Q).
  { unfold Qdiv. apply Qmult_le_compat_r; [exact Hab|].
    apply Qlt_le_weak. now apply Qinv_lt_0_compat. }
  lra.
Qed.

Lemma percent_decreasing (a b c k : Q) :
  (c < 0)%Q -> (a <= b)%Q ->
  (Qred (Qred (100 * Qred (b / c)) - k)
   <= Qred (Qred (100 * Qred (a / c)) - k))%Q.
Proof.
  intros Hc Hab. rewrite !Qred_correct.
  assert (H : (b / c <= a / c)%Q).
  { unfold Qdiv. pose proof (Qinv_negative c Hc) as Hi.
    assert (Hm : (a * - / c <= b * - / c)%Q).
    { apply Qmult_le_compat_r; [exact Hab|lra]. }
    lra. }
  lra.
Qed.

(** X18.  The modifier keeps the order of the values in value mode, and
    in percent mode when the baseline is positive; with a negative
    baseline the percent mode reverses it. *)
Theorem modifyValue_order :
  forall (s : StockSeries) (baseline low high : Q),
    compareValue s = Some (Fin baseline) ->
    (low <= high)%Q ->
    num_le (fst (modifyValue "value" s (Some (Fin low)) None))
           (fst (modifyValue "value" s (Some (Fin high)) None))
    /\ ((0 < baseline)%Q ->
        num_le (fst (modifyValue "percent" s (Some (Fin low)) None))
               (fst (modifyValue "percent" s (Some (Fin high)) None)))
    /\ ((baseline < 0)%Q ->
        num_le (fst (modifyValue "percent" s (Some (Fin high)) None))
               (fst (modifyValue "percent" s (Some (Fin low)) None))).
Proof.
  intros s baseline low high Hb Hle.
  unfold modifyValue. rewrite Hb.
  cbn [String.eqb Ascii.eqb Bool.eqb fst].
  split; [|split].
  - unfold sub. apply num_le_Fin. rewrite !Qred_correct. lra.
  - intros Hc.
    assert (Hz : ~ (baseline == 0)%Q) by lra.
    rewrite !div_Fin by assumption.
    destruct (match options_compareBase s with
              | Some b => strict_eq b (Fin 100)
              | None => false
              end);
      unfold mul, sub; apply num_le_Fin; now apply percent_increasing.
  - intros Hc.
    assert (Hz : ~ (baseline == 0)%Q) by lra.
    rewrite !div_Fin by assumption.
    destruct (match options_compareBase s with
              | Some b => strict_eq b (Fin 100)
              | None => false
              end);
      unfold mul, sub; apply num_le_Fin; now apply percent_decreasing.
Qed.

Lemma modifyValue_order_witness :
  num_le
    (fst (modifyValue "percent" (mkStock (Some (Fin (-50))) None None false
                                   false)
            (Some (Fin 75)) None))
    (fst (modifyValue "percent" (mkStock (Some (Fin (-50))) None None false
                                   false)
            (Some (Fin 25)) None)).
Proof.
  destruct (modifyValue_order
              (mkStock (Some (Fin (-50))) None None false false)
              (-50) 25 75 eq_refl) as (_ & _ & H).
  - discriminate.
  - apply H. reflexivity.
Defined.

Lemma modifyValue_number (c : string) (s : StockSeries) (q : Q)
  (point : option StockPoint) :
  usable_baseline (compareValue s) ->
  isNumber (fst (modifyValue c s (Some (Fin q)) point)) = true.
Proof.
  intros Hu. unfold modifyValue.
  destruct (compareValue s) as [v|] eqn:Hv; [|reflexivity].
  destruct (Hu v eq_refl) as [Hn Hz].
  destruct v as [cv| | |]; try discriminate Hn.
  apply strict_eq_zero_false in Hz.
  cbn [fst]. rewrite div_Fin by assumption.
  destruct (String.eqb c "value"); [reflexivity|].
  now destruct (match options_compareBase s with
                | Some b => strict_eq b (Fin 100)
                | None => false
                end).
Qed.

(** X19.  The handler of [afterGetExtremes] hands on extremes in order:
    with a modifier, a baseline that is a number other than zero, and
    [arrayMin] and [arrayMax] giving the smaller and the larger of two
    numbers, the modified minimum is not above the modified maximum,
    also when a negative baseline reverses the order of the two. *)
Theorem afterGetExtremes_ordered :
  forall (arrayMin arrayMax : list num -> num) (s : StockSeries)
         (c : string) (baseline low high : Q),
    (forall a b : Q, arrayMin [Fin a; Fin b] = Math_min (Fin a) (Fin b)) ->
    (forall a b : Q, arrayMax [Fin a; Fin b] = Math_max (Fin a) (Fin b)) ->
    modifyValue_compare s = Some c ->
    compareValue s = Some (Fin baseline) ->
    ~ (baseline == 0)%Q ->
    exists dataMin dataMax,
      afterGetExtremes arrayMin arrayMax s
        (Some (Some (Fin low), Some (Fin high)))
      = Some (Some dataMin, Some dataMax)
      /\ num_le dataMin dataMax.
Proof.
  intros arrayMin arrayMax s c baseline low high Hmin Hmax Hc Hb Hz.
  assert (Hu : usable_baseline (compareValue s)).
  { intros v Hv. rewrite Hb in Hv. inversion Hv; subst v.
    split; [reflexivity|].
    unfold strict_eq, cmp. destruct (baseline ?= 0)%Q eqn:Hq; trivial.
    apply Qeq_alt in Hq. contradiction. }
  pose proof (modifyValue_number c s low None Hu) as Hlow.
  pose proof (modifyValue_number c s high None Hu) as Hhigh.
  unfold afterGetExtremes. rewrite Hc.
  destruct (fst (modifyValue c s (Some (Fin low)) None)) as [a| | |];
    try discriminate Hlow.
  destruct (fst (modifyValue c s (Some (Fin high)) None)) as [b| | |];
    try discriminate Hhigh.
  rewrite Hmin, Hmax.
  eexists. eexists. split; [reflexivity|].
  eapply le_trans.
  - apply Math_min_le_l; reflexivity.
  - apply Math_max_ge_l; reflexivity.
Qed.

Lemma afterGetExtremes_ordered_witness :
  exists dataMin dataMax,
    afterGetExtremes example_arrayMin example_arrayMax
      (mkStock (Some (Fin (-50))) None (Some "percent"%string) false false)
      (Some (Some (Fin 25), Some (Fin 75)))
    = Some (Some dataMin, Some dataMax)
    /\ num_le dataMin dataMax.
Proof.
  apply (afterGetExtremes_ordered example_arrayMin example_arrayMax
           (mkStock (Some (Fin (-50))) None (Some "percent"%string) false
              false)
           "percent"%string (-50) 25 75).
  - intros a b. unfold example_arrayMin. cbn [fold_right].
    unfold Math_min at 2. reflexivity.
  - intros a b. unfold example_arrayMax. cbn [fold_right].
    unfold Math_max at 2. reflexivity.
  - reflexivity.
  - reflexivity.
  - discriminate.
Defined.

(** ** processData: the search of the baseline *)

Lemma baseline_at_number (keyIndex : option nat) (xs : list num)
  (xMin : option num) (compareStart i : nat) (y : yValue) (v : num) :
  baseline_at keyIndex xs xMin compareStart i y = Some v ->
  isNumber v = true /\ strict_eq v (Fin 0) = false.
Proof.
  unfold baseline_at.
  destruct (read_compareValue keyIndex y) as [w|]; [|discriminate].
  destruct (isNumber w) eqn:Hn; [|discriminate].
  destruct (match nth_error xs (i + compareStart) with
            | Some x => ge x (to_number xMin)
            | None => false
            end); [|discriminate].
  destruct (strict_eq w (Fin 0)) eqn:Hz; [discriminate|].
  cbn. intros H. inversion H; subst v. now split.
Qed.

Lemma find_compareValue_number (keyIndex : option nat) (xs : list num)
  (xMin : option num) (compareStart : nat) (ys : list yValue) :
  forall i v,
    find_compareValue keyIndex xs xMin compareStart i ys = Some v ->
    isNumber v = true /\ strict_eq v (Fin 0) = false.
Proof.
  induction ys as [|y ys IH]; intros i v H; [discriminate|].
  cbn [find_compareValue] in H.
  destruct (baseline_at keyIndex xs xMin compareStart i y) as [w|] eqn:Hw.
  - inversion H; subst w. eapply baseline_at_number. exact Hw.
  - eapply IH. exact H.
Qed.

(** X20.  [processData] never takes zero, NaN or an infinity as the
    baseline: when the baseline is none or a number other than zero
    after the base method, it is so after [processData]. *)
Theorem processData_baseline_usable :
  forall (seriesProcessData : CompareSeries -> CompareSeries)
         (this : CompareSeries),
    usable_baseline (compareValue (stock (seriesProcessData this))) ->
    usable_baseline
      (compareValue (stock (processData seriesProcessData this))).
Proof.
  intros base this Hu. unfold processData.
  destruct (cs_xAxis (base this)) as [xAxis|]; [|exact Hu].
  destruct (processedYData (base this)) as [ys|]; [|exact Hu].
  destruct (find_compareValue _ _ _ _ _ _) as [v|] eqn:Hfind; [|exact Hu].
  cbn [stock set_stock compareValue set_compareValue].
  intros w Hw. inversion Hw; subst w.
  eapply find_compareValue_number. exact Hfind.
Qed.

Lemma processData_baseline_usable_witness :
  compareValue (stock (processData (fun s => s) (five_points None)))
  = Some (Fin 40)
  /\ usable_baseline
       (compareValue (stock (processData (fun s => s) (five_points None)))).
Proof.
  split; [reflexivity|].
  apply (processData_baseline_usable (fun s => s) (five_points None)).
  intros v Hv. discriminate Hv.
Defined.

(** X21.  Unless [compareStart] is on, the loop of [processData] stops
    one entry before the end: a series with a single point, or with
    none, gets no baseline, and [processData] leaves what the base
    method computed. *)
Theorem processData_single_point :
  forall (seriesProcessData : CompareSeries -> CompareSeries)
         (this : CompareSeries),
    options_compareStart this <> Some true ->
    (forall ys, processedYData (seriesProcessData this) = Some ys ->
                (List.length ys <= 1)%nat) ->
    processData seriesProcessData this = seriesProcessData this.
Proof.
  intros base this Hstart Hshort. unfold processData.
  destruct (cs_xAxis (base this)) as [xAxis|]; [|reflexivity].
  destruct (processedYData (base this)) as [ys|] eqn:Hys; [|reflexivity].
  specialize (Hshort ys eq_refl).
  assert (Hcs : compare_start this = 1%nat).
  { unfold compare_start.
    destruct (options_compareStart this) as [[|]|]; trivial.
    now elim Hstart. }
  rewrite Hcs.
  replace (List.length ys - 1)%nat with 0%nat by lia.
  reflexivity.
Qed.

Lemma processData_single_point_witness :
  compareValue (stock (processData (fun s => s) single_point)) = None.
Proof.
  rewrite (processData_single_point (fun s => s) single_point).
  - reflexivity.
  - discriminate.
  - intros ys H. inversion H. cbn. lia.
Defined.

Lemma find_compareValue_first (keyIndex : option nat) (xs : list num)
  (xMin : option num) (compareStart : nat) (ys : list yValue) :
  forall (i p : nat) (y : yValue) (v : num),
    nth_error ys p = Some y ->
    baseline_at keyIndex xs xMin compareStart (i + p) y = Some v ->
    (forall j y',
        (j < p)%nat -> nth_error ys j = Some y' ->
        baseline_at keyIndex xs xMin compareStart (i + j) y' = None) ->
    find_compareValue keyIndex xs xMin compareStart i ys = Some v.
Proof.
  induction ys as [|y0 ys IH]; intros i p y v Hp Hv Hbefore.
  - now destruct p.
  - cbn [find_compareValue]. destruct p as [|p]; cbn [nth_error] in Hp.
    + inversion Hp; subst y0. rewrite Nat.add_0_r in Hv. now rewrite Hv.
    + pose proof (Hbefore 0%nat y0 ltac:(lia) eq_refl) as H0.
      rewrite Nat.add_0_r in H0. rewrite H0.
      apply (IH (S i) p y v Hp).
      * now replace (S i + p)%nat with (i + S p)%nat by lia.
      * intros j y' Hj Hy'.
        replace (S i + j)%nat with (i + S j)%nat by lia.
        apply Hbefore; [lia|exact Hy'].
Qed.

Lemma nth_error_firstn_lt {A} (l : list A) (n j : nat) :
  (j < n)%nat -> nth_error (firstn n l) j = nth_error l j.
Proof.
  revert n j. induction l as [|a l IH]; intros [|n] [|j] H; cbn; trivial;
    try lia.
  apply IH. lia.
Qed.

(** X22.  The baseline that [processData] sets is the value of the first
    entry that passes the test of the loop: a number other than zero,
    whose x value ([compareStart] on) or the x value of the entry after
    it (otherwise) is not below the minimum of the x axis. *)
Theorem processData_first_baseline :
  forall (seriesProcessData : CompareSeries -> CompareSeries)
         (this : CompareSeries) (xAxis : Axis.t) (ys : list yValue)
         (p : nat) (y : yValue) (v : num),
    let series := seriesProcessData this in
    let test := baseline_at (compare_keyIndex series)
                  (processedXData series) (Axis.min xAxis)
                  (compare_start this) in
    cs_xAxis series = Some xAxis ->
    processedYData series = Some ys ->
    nth_error ys p = Some y ->
    (p + compare_start this < List.length ys)%nat ->
    test p y = Some v ->
    (forall j y',
        (j < p)%nat -> nth_error ys j = Some y' -> test j y' = None) ->
    compareValue (stock (processData seriesProcessData this)) = Some v.
Proof.
  intros base this xAxis ys p y v series test Hx Hys Hp Hlen Hv Hbefore.
  unfold processData. fold series. rewrite Hx, Hys.
  rewrite (find_compareValue_first (compare_keyIndex series)
             (processedXData series) (Axis.min xAxis) (compare_start this)
             (firstn (List.length ys - compare_start this) ys)
             0 p y v).
  - reflexivity.
  - rewrite nth_error_firstn_lt by lia. exact Hp.
  - exact Hv.
  - intros j y' Hj Hy'. rewrite nth_error_firstn_lt in Hy' by lia.
    now apply Hbefore.
Qed.

Lemma processData_first_baseline_witness :
  compareValue (stock (processData (fun s => s) (five_points (Some true))))
  = Some (Fin 40).
Proof.
  apply (processData_first_baseline (fun s => s) (five_points (Some true))
           (Axis.mk (Some (Fin 3)) None (Fin 1) (Fin 0) (Fin 100) (Fin 0)
              (Fin 100) false None None)
           [YNumber (Fin 10); YNumber (Fin 0); YNumber (Fin 40);
            YNumber (Fin 50); YNumber (Fin 60)]
           2%nat (YNumber (Fin 40)) (Fin 40)
           eq_refl eq_refl eq_refl).
  - cbn. lia.
  - reflexivity.
  - intros [|[|j]] y' Hj Hy'; try lia; inversion Hy'; reflexivity.
Defined.

(** ** setCompare on an axis *)

(** X23.  [Axis.setCompare] on a y axis switches every series of the axis
    to the mode and remembers it in the user options of the series; the
    baseline of each series stays, so the modifier of a series computes
    what the mode computes on the series as it was.  On an x axis nothing
    changes and the chart is not redrawn. *)
Theorem axis_setCompare_all_series :
  forall (series : list CompareSeries) (c : string) (redraw : option bool),
    c = "value"%string \/ c = "percent"%string ->
    Forall2
      (fun before after =>
         userOptions_compare after = Some c
         /\ compareValue (stock after) = compareValue (stock before)
         /\ forall value point,
              call_modifyValue (stock after) value point
              = Some (modifyValue c (stock before) value point))
      series (fst (axis_setCompare false series (Some c) redraw))
    /\ snd (axis_setCompare false series (Some c) redraw)
       = match redraw with Some r => r | None => true end
    /\ axis_setCompare true series (Some c) redraw = (series, false).
Proof.
  intros series c redraw Hc. cbn [axis_setCompare fst snd].
  split; [|split; reflexivity].
  induction series as [|s series IH]; cbn [map]; constructor; [|exact IH].
  destruct (initCompare_installs (stock s) c Hc) as (Hm & Hv & Hbase).
  cbn [setCompare userOptions_compare stock].
  split; [reflexivity|]. split; [exact Hv|].
  intros value point. unfold call_modifyValue. rewrite Hm.
  unfold modifyValue. now rewrite Hv, Hbase.
Qed.

Lemma axis_setCompare_all_series_witness :
  map (fun s => call_modifyValue (stock s) (Some (Fin 80)) None)
    (fst (axis_setCompare false
            [set_stock single_point (example_stock None)]
            (Some "percent"%string) None))
  = [Some (Fin 60, None)].
Proof.
  destruct (axis_setCompare_all_series
              [set_stock single_point (example_stock None)]
              "percent"%string None (or_intror eq_refl)) as (H & _ & _).
  inversion H as [|before after l l' (_ & _ & Hcall) Hrest]; subst.
  inversion Hrest; subst.
  cbn [axis_setCompare fst map]. rewrite Hcall. reflexivity.
Defined.

(** ** crispPolyLine *)

Lemma Qred_inject_Z (z : Z) : Qred (inject_Z z) = inject_Z z.
Proof.
  unfold Qred, inject_Z.
  pose proof (Z.ggcd_gcd z 1) as Hg.
  pose proof (Z.ggcd_correct_divisors z 1) as Hd.
  destruct (Z.ggcd z 1) as [g [aa bb]]. cbn [fst] in Hg.
  rewrite Z.gcd_1_r in Hg. subst g. destruct Hd as [Ha Hb].
  rewrite Z.mul_1_l in Ha, Hb. now subst aa bb.
Qed.

Lemma whole_Qred (q : Q) (z : Z) :
  (q == inject_Z z)%Q -> whole (Fin (Qred q)).
Proof.
  intros H. exists z. unfold of_Z. f_equal.
  rewrite (Qred_complete _ _ H). apply Qred_inject_Z.
Qed.

Lemma width_halves (w : Z) :
  (inject_Z w == 2 * inject_Z (w / 2) + inject_Z (w mod 2))%Q.
Proof.
  rewrite (Z_div_mod_eq_full w 2) at 1.
  rewrite inject_Z_plus, inject_Z_mult. reflexivity.
Qed.

Lemma rem_width (w : Z) :
  (0 <= w)%Z -> rem (of_Z w) (Fin 2) = of_Z (w mod 2).
Proof.
  intros Hw. unfold rem, of_Z.
  change (Qeq_bool 2 0) with false. cbv iota. f_equal.
  assert (Ht : Qtrunc (inject_Z w / 2) = (w / 2)%Z).
  { unfold Qtrunc, Qdiv, Qmult, Qinv, inject_Z. cbn [Qnum Qden].
    rewrite Z.mul_1_r. change (Z.pos (1 * 2)) with 2%Z.
    apply Z.quot_div_nonneg; lia. }
  rewrite Ht.
  rewrite <- (Qred_inject_Z (w mod 2)). apply Qred_complete.
  rewrite (width_halves w) at 1. ring.
Qed.

Lemma half_Fin (q : Q) : (Fin q / Fin 2)%num = Fin (Qred (q / 2)).
Proof. apply div_Fin. discriminate. Qed.

(** A vertical line is crisp after the rounding of its x value. *)
Lemma crisp_x (w : Z) (q : Q) :
  (0 <= w)%Z ->
  crisp (of_Z w)
    (Math_round (Fin q) - rem (of_Z w) (Fin 2) / Fin 2)%num.
Proof.
  intros Hw. rewrite rem_width by assumption.
  unfold crisp, Math_round, of_Z. rewrite !half_Fin.
  set (n := Qfloor (q + (1 # 2))).
  pose proof (width_halves w) as Hh.
  split; unfold sub, add.
  - apply (whole_Qred _ (n - w / 2 - w mod 2)).
    rewrite !Qred_correct, Hh. unfold Z.sub.
    rewrite !inject_Z_plus, !inject_Z_opp. field.
  - apply (whole_Qred _ (n + w / 2)).
    rewrite !Qred_correct, Hh, !inject_Z_plus. field.
Qed.

(** A horizontal line is crisp after the rounding of its y value. *)
Lemma crisp_y (w : Z) (q : Q) :
  (0 <= w)%Z ->
  crisp (of_Z w)
    (Math_round (Fin q) + rem (of_Z w) (Fin 2) / Fin 2)%num.
Proof.
  intros Hw. rewrite rem_width by assumption.
  unfold crisp, Math_round, of_Z. rewrite !half_Fin.
  set (n := Qfloor (q + (1 # 2))).
  pose proof (width_halves w) as Hh.
  split; unfold sub, add.
  - apply (whole_Qred _ (n - w / 2)).
    rewrite !Qred_correct, Hh. unfold Z.sub.
    rewrite !inject_Z_plus, !inject_Z_opp. field.
  - apply (whole_Qred _ (n + w / 2 + w mod 2)).
    rewrite !Qred_correct, Hh, !inject_Z_plus. field.
Qed.

(** The path that [crispPolyLine] returns, two points by two points. *)
Lemma crispPolyLine_pairs (width : num) (points : list PolyPoint) :
  forall out,
    crispPolyLine points width = inr out ->
    Forall2 (fun before after =>
               after = crisp_pair width (fst before) (snd before))
      (pairs points) (pairs out).
Proof.
  assert (H : forall n points,
             (List.length points <= n)%nat ->
             forall out,
               crispPolyLine points width = inr out ->
               Forall2 (fun before after =>
                          after = crisp_pair width (fst before) (snd before))
                 (pairs points) (pairs out)).
  { induction n as [|n IH]; intros [|a [|b rest]] Hlen out Hout;
      cbn in Hlen; try lia; cbn [crispPolyLine] in Hout;
      try discriminate Hout.
    - inversion Hout. constructor.
    - inversion Hout. constructor.
    - destruct (crisp_pair width a b) as [a' b'] eqn:Hpair.
      destruct (crispPolyLine rest width) as [e|r] eqn:Hrest;
        [discriminate Hout|].
      cbn in Hout. inversion Hout; subst out.
      cbn [pairs]. constructor; [cbn [fst snd]; now rewrite Hpair|].
      destruct n as [|n]; [lia|].
      apply (IH rest); [cbn; lia|].
      (* the bound of the hypothesis is one more than needed *)
      exact Hrest. }
  intros out Hout. exact (H (List.length points) points (Nat.le_refl _) out Hout).
Qed.

(** X24.  [crispPolyLine] makes the lines that run along an axis crisp:
    for a width that is a whole number, a segment whose two x values are
    the same number gets one x value for both ends, at which a line of
    that width covers whole pixels, and so for the y values of a
    horizontal segment. *)
Theorem crispPolyLine_crisp :
  forall (points out : list PolyPoint) (w : Z),
    (0 <= w)%Z ->
    crispPolyLine points (of_Z w) = inr out ->
    Forall2
      (fun before after =>
         (isNumber (pp_x (fst before)) = true ->
          strict_eq (pp_x (fst before)) (pp_x (snd before)) = true ->
          crisp (of_Z w) (pp_x (fst after))
          /\ pp_x (snd after) = pp_x (fst after))
         /\ (isNumber (pp_y (fst before)) = true ->
             strict_eq (pp_y (fst before)) (pp_y (snd before)) = true ->
             crisp (of_Z w) (pp_y (fst after))
             /\ pp_y (snd after) = pp_y (fst after)))
      (pairs points) (pairs out).
Proof.
  intros points out w Hw Hout.
  eapply Forall2_impl; [|exact (crispPolyLine_pairs (of_Z w) points out Hout)].
  intros [a b] [a' b'] Hpair. cbn [fst snd] in *.
  unfold crisp_pair in Hpair. inversion Hpair; subst a' b'.
  cbn [pp_x pp_y]. split.
  - intros Hn He. rewrite He.
    destruct (pp_x a) as [q| | |]; try discriminate Hn.
    split; [now apply crisp_x|reflexivity].
  - intros Hn He. rewrite He.
    destruct (pp_y a) as [q| | |]; try discriminate Hn.
    split; [now apply crisp_y|reflexivity].
Qed.

Lemma crispPolyLine_crisp_witness :
  crispPolyLine
    [mkPolyPoint "M" (Fin 10.2) (Fin 0); mkPolyPoint "L" (Fin 10.2) (Fin 100)]
    (of_Z 1)
  = inr [mkPolyPoint "M" (Fin (19 # 2)) (Fin 0); mkPolyPoint "L" (Fin (19 # 2)) (Fin 100)]
  /\ crisp (of_Z 1) (Fin (19 # 2)).
Proof.
  assert (Hout : crispPolyLine
                   [mkPolyPoint "M" (Fin 10.2) (Fin 0);
                    mkPolyPoint "L" (Fin 10.2) (Fin 100)]
                   (of_Z 1)
                 = inr [mkPolyPoint "M" (Fin (19 # 2)) (Fin 0);
                        mkPolyPoint "L" (Fin (19 # 2)) (Fin 100)]).
  { vm_compute. reflexivity. }
  split; [exact Hout|].
  pose proof (crispPolyLine_crisp _ _ 1%Z ltac:(lia) Hout) as H.
  inversion H as [|before after l l' [Hx _] Hrest]; subst.
  exact (proj1 (Hx eq_refl eq_refl)).
Defined.

(** X25.  [crispPolyLine] takes the points two by two: with an even
    number of points it returns as many points with the same tags, and
    leaves the x values of a segment whose x values differ, and the y
    values of a segment whose y values differ, as they are; with an odd
    number of points it throws, on reading the missing end point. *)
Theorem crispPolyLine_by_pairs :
  forall (points : list PolyPoint) (width : num),
    (Nat.Even (List.length points) ->
     exists out,
       crispPolyLine points width = inr out
       /\ map pp_tag out = map pp_tag points
       /\ Forall2
            (fun before after =>
               (strict_eq (pp_x (fst before)) (pp_x (snd before)) = false ->
                pp_x (fst after) = pp_x (fst before)
                /\ pp_x (snd after) = pp_x (snd before))
               /\ (strict_eq (pp_y (fst before)) (pp_y (snd before)) = false ->
                   pp_y (fst after) = pp_y (fst before)
                   /\ pp_y (snd after) = pp_y (snd before)))
            (pairs points) (pairs out))
    /\ (Nat.Odd (List.length points) ->
        crispPolyLine points width = inl (CannotReadProperty "1")).
Proof.
  intros points width.
  assert (H : forall n points,
             (List.length points <= n)%nat ->
             (Nat.Even (List.length points) ->
              exists out,
                crispPolyLine points width = inr out
                /\ map pp_tag out = map pp_tag points)
             /\ (Nat.Odd (List.length points) ->
                 crispPolyLine points width
                 = inl (CannotReadProperty "1"))).
  { induction n as [|n IH]; intros [|a [|b rest]] Hlen; cbn in Hlen;
      try lia.
    - split; [intros _; exists []; split; reflexivity|].
      intros [k Hk]. cbn in Hk. lia.
    - split; [intros _; exists []; split; reflexivity|].
      intros [k Hk]. cbn in Hk. lia.
    - split; [|reflexivity]. intros [k Hk]. cbn in Hk. lia.
    - destruct n as [|n]; [lia|].
      destruct (IH rest ltac:(cbn; lia)) as [He Ho].
      cbn [crispPolyLine List.length].
      destruct (crisp_pair width a b) as [a' b'] eqn:Hpair.
      assert (Htags : pp_tag a' = pp_tag a /\ pp_tag b' = pp_tag b).
      { unfold crisp_pair in Hpair. inversion Hpair. split; reflexivity. }
      destruct Htags as [Ha Hb].
      split.
      + intros Heven. apply (proj1 (Nat.Even_succ_succ _)) in Heven.
        destruct (He Heven) as (r & Hr & Ht). rewrite Hr. cbn [bind ret].
        eexists. split; [reflexivity|]. cbn [map]. now rewrite Ha, Hb, Ht.
      + intros Hodd. apply (proj1 (Nat.Odd_succ_succ _)) in Hodd.
        now rewrite (Ho Hodd). }
  destruct (H (List.length points) points (Nat.le_refl _)) as [He Ho].
  split; [|exact Ho].
  intros Heven. destruct (He Heven) as (out & Hout & Htags).
  exists out. split; [exact Hout|]. split; [exact Htags|].
  eapply Forall2_impl; [|exact (crispPolyLine_pairs width points out Hout)].
  intros [a b] [a' b'] Hpair. cbn [fst snd] in *.
  unfold crisp_pair in Hpair. inversion Hpair; subst a' b'.
  cbn [pp_x pp_y]. split; intros Hne; rewrite Hne; split; reflexivity.
Qed.

Lemma crispPolyLine_by_pairs_witness :
  crispPolyLine
    [mkPolyPoint "M" (Fin 0) (Fin 0); mkPolyPoint "L" (Fin 100) (Fin 0);
     mkPolyPoint "M" (Fin 0) (Fin 50)]
    (Fin 1)
  = inl (CannotReadProperty "1").
Proof.
  apply (crispPolyLine_by_pairs
           [mkPolyPoint "M" (Fin 0) (Fin 0); mkPolyPoint "L" (Fin 100) (Fin 0);
            mkPolyPoint "M" (Fin 0) (Fin 50)]
           (Fin 1)).
  exists 1%nat. reflexivity.
Defined.

(** ** getExtremes *)

Lemma getBox_items_loop_objects (E : External) (vs : list MapPointOptions) :
  forall acc,
    getBox_items_loop E acc (map ItemObject vs)
    = inr (fst (getBox_loop E acc vs),
           map ItemObject (snd (getBox_loop E acc vs))).
Proof.
  induction vs as [|v vs IH]; intros acc; [reflexivity|].
  cbn [map getBox_items_loop getBox_item getBox_loop].
  destruct (getBox_point E acc v) as [acc1 v'].
  cbn [bind ret fst snd]. rewrite IH.
  destruct (getBox_loop E acc1 vs) as [acc2 vs']. reflexivity.
Qed.

Lemma getBox_items_of_objects (E : External) (s : MapSeries)
  (vs : list MapPointOptions) :
  getBox_items E s (map ItemObject vs)
  = inr (fst (getBox E s vs), map ItemObject (snd (getBox E s vs))).
Proof.
  unfold getBox_items, getBox. rewrite getBox_items_loop_objects.
  now destruct (getBox_loop E initial_acc vs).
Qed.

(** X26.  On a rendered chart whose data has changed, [getExtremes] runs
    [getBox] on the data of the options, here point objects that hold
    numbers, and reports the bounds of the box on the y axis; the box is
    the one that [getBox] leaves, so it still covers the box set before;
    and a value extreme that was a number stays a number, whatever the
    base method reports. *)
Theorem getExtremes_after_update :
  forall (E : External)
         (seriesGetExtremes : MapValueSeries -> option num * option num)
         (this : MapValueSeries) (vs : list MapPointOptions),
    map_hasRendered this = true ->
    isDirtyData (map_series this) = true ->
    options_data this = Some (map ItemObject vs) ->
    Forall (sound_geometry E) vs ->
    box_set_not_nan (box (map_series this)) ->
    exists this',
      getExtremes E seriesGetExtremes this
      = inr (this', (minY (box (map_series this')),
                     maxY (box (map_series this'))))
      /\ map_series this' = fst (getBox E (map_series this) vs)
      /\ options_data this'
         = Some (map ItemObject (snd (getBox E (map_series this) vs)))
      /\ series_box_within (box (map_series this))
           (box (map_series this'))
      /\ (isNumber_opt (valueMin this) = true ->
          isNumber_opt (valueMin this') = true)
      /\ (isNumber_opt (valueMax this) = true ->
          isNumber_opt (valueMax this') = true).
Proof.
  intros E base this vs Hr Hd Hdata Hsound Hbox.
  unfold getExtremes. destruct (base this) as [dataMin dataMax].
  rewrite Hr, Hd, Hdata. cbn [andb]. rewrite getBox_items_of_objects.
  cbn [bind ret fst snd].
  eexists (mkMapValues _ _ _ _ _). split; [reflexivity|].
  cbn [map_series options_data valueMin valueMax].
  split; [reflexivity|]. split; [reflexivity|].
  split.
  { unfold getBox.
    destruct (getBox_loop_sound E vs Hsound initial_acc initial_acc_not_nan)
      as (Hacc & _ & _ & _).
    destruct (getBox_loop E initial_acc vs) as [acc vs'].
    cbn [fst snd] in *. now apply getBox_finish_within. }
  split.
  - intros H. now destruct (isNumber_opt dataMin) eqn:Hn.
  - intros H. now destruct (isNumber_opt dataMax) eqn:Hn.
Qed.

Lemma getExtremes_after_update_witness :
  exists this',
    getExtremes example_external (fun _ => (Some NaN, None)) updated_map
    = inr (this', (Some (Fin 0), Some (Fin 10)))
    /\ isNumber_opt (valueMin this') = true.
Proof.
  destruct (getExtremes_after_update example_external
              (fun _ => (Some NaN, None)) updated_map [square_shape]
              eq_refl eq_refl eq_refl)
    as (this' & Hget & Hs & _ & _ & Hmin & _).
  - apply Forall_cons; [|apply Forall_nil].
    intros _ seg x y [<-|[<-|[<-|[<-|[]]]]] H; inversion H;
      split; reflexivity.
  - repeat split; intros m H; inversion H; reflexivity.
  - exists this'. split.
    + rewrite Hget. rewrite Hs. reflexivity.
    + apply Hmin. reflexivity.
Defined.

(** ** The start of the drill-down animation *)

(** X27.  When the drill-down animation runs, the points start at the
    corner of the box of the level, scaled by one factor on both axes:
    the smaller of the ratio of the widths and the ratio of the heights
    of the box of the level and the plot box, so one of the two and
    above neither, whenever neither ratio is NaN.  On initialisation
    nothing is recorded. *)
Theorem animateDrilldown_uniform_scale :
  forall (fromBox toBox : BBoxObject),
    let ratioX := (bb_width fromBox / bb_width toBox)%num in
    let ratioY := (bb_height fromBox / bb_height toBox)%num in
    is_nan ratioX = false -> is_nan ratioY = false ->
    animateDrilldown fromBox toBox true = None
    /\ exists scale,
         animateDrilldown fromBox toBox false
         = Some (mkTransform (bb_x fromBox) (bb_y fromBox) scale scale)
         /\ (scale = ratioX \/ scale = ratioY)
         /\ num_le scale ratioX
         /\ num_le scale ratioY.
Proof.
  intros fromBox toBox ratioX ratioY Hx Hy.
  split; [reflexivity|].
  exists (Math_min ratioX ratioY). split; [reflexivity|]. split.
  - unfold Math_min. destruct (cmp ratioX ratioY) as [[| |]|] eqn:Hc; auto.
    destruct ratioX, ratioY; discriminate.
  - split; [now apply Math_min_le_l|now apply Math_min_le_r].
Qed.

Lemma animateDrilldown_uniform_scale_witness :
  exists scale,
    animateDrilldown (mkBBox (Fin 10) (Fin 20) (Fin 100) (Fin 30))
      (mkBBox (Fin 0) (Fin 0) (Fin 400) (Fin 300)) false
    = Some (mkTransform (Fin 10) (Fin 20) scale scale)
    /\ num_le scale (Fin 100 / Fin 400)%num
    /\ num_le scale (Fin 30 / Fin 300)%num.
Proof.
  destruct (animateDrilldown_uniform_scale
              (mkBBox (Fin 10) (Fin 20) (Fin 100) (Fin 30))
              (mkBBox (Fin 0) (Fin 0) (Fin 400) (Fin 300))
              eq_refl eq_refl)
    as [_ (scale & Hs & _ & Hw & Hh)].
  exists scale. split; [exact Hs|]. split; [exact Hw|exact Hh].
Defined.

(** ** Column pyramid: the shape of a point *)

Lemma truthy_Fin (q : Q) : ~ (q == 0)%Q -> truthy (Fin q) = true.
Proof.
  intros H. cbn [truthy]. destruct (Qeq_bool q 0) eqn:Hq; [|reflexivity].
  apply Qeq_bool_iff in Hq. contradiction.
Qed.

Lemma falsy_Fin (q : Q) : (q == 0)%Q -> truthy (Fin q) = false.
Proof.
  intros H. cbn [truthy]. apply Qeq_bool_iff in H. now rewrite H.
Qed.

(** X28.  On an upright chart, a point whose stack has no height (a
    height of zero, or NaN) gets a pyramid without width rather than
    widths that are NaN: both widths are zero, and when the position
    and the width of the bar are numbers the four corners of the path
    lie at one and the same abscissa. *)
Theorem pyramid_without_stack_height :
  forall (C : ColumnExternal) (series : ColumnPyramidSeries) (p : Prelude)
         (point : ColumnPyramidPoint),
    let g := geometry C series p point in
    chart_inverted series = false ->
    truthy (stackHeight g) = false ->
    topXwidth g = Fin 0
    /\ bottomXwidth g = Fin 0
    /\ (isNumber (g_barX g) = true -> isNumber (g_barW g) = true ->
        strict_eq (x1 g) (x2 g) = true
        /\ strict_eq (x2 g) (x3 g) = true
        /\ strict_eq (x3 g) (x4 g) = true).
Proof.
  intros C series p point g. unfold g, geometry. cbv zeta.
  intros Hup. rewrite Hup.
  cbn [stackHeight topXwidth bottomXwidth x1 x2 x3 x4 g_barX g_barW].
  intros Hflat. rewrite Hflat.
  split; [reflexivity|]. split; [reflexivity|].
  intros Hx Hw.
  destruct (to_number (cp_plotX point) + p_pointXOffset p)%num
    as [x| | |]; try discriminate Hx.
  destruct (p_seriesBarW p / Fin 2)%num as [w| | |]; try discriminate Hw.
  repeat split; unfold add, sub; apply strict_eq_Fin;
    rewrite !Qred_correct; ring.
Qed.

Lemma pyramid_without_stack_height_witness :
  let g := geometry example_column_external (stacked_pyramid 0 None 100)
             (prelude example_column_external (stacked_pyramid 0 None 100))
             (mkPyramidPoint (Some (Fin 30)) (Some (Fin 40)) (Some (Fin 100))
                None (Number (Fin 100)) None None None None None) in
  stackHeight g = Fin 0
  /\ topXwidth g = Fin 0
  /\ bottomXwidth g = Fin 0
  /\ strict_eq (x1 g) (x2 g) = true.
Proof.
  cbv zeta. split; [vm_compute; reflexivity|].
  destruct (pyramid_without_stack_height example_column_external
              (stacked_pyramid 0 None 100)
              (prelude example_column_external (stacked_pyramid 0 None 100))
              (mkPyramidPoint (Some (Fin 30)) (Some (Fin 40))
                 (Some (Fin 100)) None (Number (Fin 100)) None None None
                 None None)
              eq_refl)
    as (Ht & Hb & Hx).
  - vm_compute. reflexivity.
  - split; [exact Ht|]. split; [exact Hb|].
    destruct Hx as (H12 & _ & _); [vm_compute; reflexivity..|exact H12].
Defined.

(** X29.  Under percent stacking the top of the stack is the pixel of
    100 or of -100, never of the total of the stack: with a threshold of
    zero, that of -100 for a negative point and that of 100 otherwise;
    with a threshold that is a number other than 0 and -1, that of -100
    for every point, whatever its sign. *)
Theorem percent_stack_top :
  forall (C : ColumnExternal) (series : ColumnPyramidSeries) (p : Prelude)
         (point : ColumnPyramidPoint) (threshold : Q),
    is_percent (options_stacking series) = true ->
    options_threshold series = Number (Fin threshold) ->
    ((threshold == 0)%Q ->
     topPointY (geometry C series p point)
     = cp_toPixels C (cp_yAxis series)
         (if lt (nullable_number (y point)) (Fin 0)
          then Fin (-100) else Fin 100)
         true)
    /\ (~ (threshold == 0)%Q -> ~ (threshold == -1)%Q ->
        topPointY (geometry C series p point)
        = cp_toPixels C (cp_yAxis series) (Fin (-100)) true).
Proof.
  intros C series p point threshold Hp Ht.
  assert (Htop :
            topPointY (geometry C series p point)
            = cp_toPixels C (cp_yAxis series)
                (if truthy (Fin threshold
                            + (if lt (nullable_number (y point)) (Fin 0)
                               then Fin 1 else Fin 0))%num
                 then Fin (-100) else Fin 100)
                true).
  { unfold geometry. cbv zeta. rewrite Hp, Ht. cbn [nullable_number].
    now destruct (chart_inverted series). }
  rewrite Htop. split.
  - intros H0. destruct (lt (nullable_number (y point)) (Fin 0)).
    + unfold add. rewrite truthy_Fin; [reflexivity|].
      rewrite Qred_correct, H0. discriminate.
    + unfold add. rewrite falsy_Fin; [reflexivity|].
      rewrite Qred_correct, H0. reflexivity.
  - intros H0 H1. destruct (lt (nullable_number (y point)) (Fin 0)).
    + unfold add. rewrite truthy_Fin; [reflexivity|].
      rewrite Qred_correct. intros H. apply H1. lra.
    + unfold add. rewrite truthy_Fin; [reflexivity|].
      rewrite Qred_correct. intros H. apply H0. lra.
Qed.

Lemma percent_stack_top_witness :
  topPointY
    (geometry example_column_external
       (stacked_pyramid 10 (Some "percent"%string) 60)
       (prelude example_column_external
          (stacked_pyramid 10 (Some "percent"%string) 60))
       (mkPyramidPoint (Some (Fin 30)) (Some (Fin 40)) (Some (Fin 100))
          None (Number (Fin 60)) None None None None None))
  = Fin (-100).
Proof.
  destruct (percent_stack_top example_column_external
              (stacked_pyramid 10 (Some "percent"%string) 60)
              (prelude example_column_external
                 (stacked_pyramid 10 (Some "percent"%string) 60))
              (mkPyramidPoint (Some (Fin 30)) (Some (Fin 40))
                 (Some (Fin 100)) None (Number (Fin 60)) None None None
                 None None)
              10 eq_refl eq_refl) as [_ H].
  rewrite H.
  - vm_compute. reflexivity.
  - discriminate.
  - discriminate.
Defined.

Lemma Math_ceil_ge (a : num) : is_nan a = false -> num_le a (Math_ceil a).
Proof.
  destruct a as [q| | |]; intros H; try discriminate H; try reflexivity.
  cbn [Math_ceil]. unfold of_Z. apply num_le_Fin. apply Qle_ceiling.
Qed.

(** X30.  The width of the bar from which the pyramids are cut is never
    below one pixel plus twice the border: it is the larger of that and
    the width of the column metrics, rounded up when there is a point
    padding. *)
Theorem pyramid_bar_width :
  forall (C : ColumnExternal) (series : ColumnPyramidSeries),
    let p := prelude C series in
    is_nan (p_pointWidth p) = false ->
    is_nan (p_borderWidth p) = false ->
    num_le (Fin 1 + Fin 2 * p_borderWidth p)%num (p_seriesBarW p)
    /\ num_le (p_pointWidth p) (p_seriesBarW p).
Proof.
  intros C series p. unfold p, prelude. cbv zeta.
  cbn [p_pointWidth p_borderWidth p_seriesBarW].
  set (w := fst (getColumnMetrics C series)).
  set (b := pick [cp_options_borderWidth series] _).
  intros Hw Hb.
  assert (Hmin : is_nan (Fin 1 + Fin 2 * b)%num = false).
  { destruct b as [q| | |]; try discriminate Hb; reflexivity. }
  pose proof (Math_max_ge_r w _ Hw Hmin) as H1.
  pose proof (Math_max_ge_l w _ Hw Hmin) as H2.
  pose proof (Math_max_not_nan w _ Hw Hmin) as Hn.
  destruct (truthy (to_number (options_pointPadding series))).
  - split; (eapply le_trans; [|apply Math_ceil_ge; exact Hn]); assumption.
  - split; assumption.
Qed.

Lemma pyramid_bar_width_witness :
  num_le (Fin 1 + Fin 2 * Fin 1)%num
    (p_seriesBarW (prelude example_column_external (flat_pyramid false))).
Proof.
  destruct (pyramid_bar_width example_column_external (flat_pyramid false)
              eq_refl eq_refl) as [H _].
  exact H.
Defined.
